(** * Flowchart reconstruction: connection pool, arrow resolver, chain
      collapser and serializer of [flowchart_from_image.py]

    The development embeds the geometric core of the script: the detector
    output (boxes with integer corners and a class id) is turned into shapes,
    the shapes seed a pool of connection nodes, every arrow detection is
    snapped to the pool, the arrow mesh is collapsed into shape-to-shape
    edges by a breadth-first traversal, and the result is serialised as a
    chart document and an NxN matrix document.

    Conventions.
    - Python [int] is [Z].  Coordinates produced by true division
      ([x1 + width/2], [(ax1 + ax2)/2]) are exact rationals [Q].
    - [math.hypot] is read over the reals: a distance is kept through its
      square (see [distance]), so that every comparison the code makes is
      decided exactly; [distance_ltb_real] relates the comparison to the
      order of the real numbers, square roots included.  The interpreter
      compares doubles: [Double] has [find_nearest_connection] over
      binary64 values, and [find_nearest_connection_rounds_to_threshold]
      shows where the two readings part.
    - The module-level [connection_id_counter] is threaded explicitly: a
      function that calls [get_next_connection_id] takes the counter and
      returns the new one.
    - The calls into Word ([AddShape], [AddLine]) and the OCR service only
      consume values; they are left out, and the OCR result is a parameter
      [ocr_dict] of the serializer.
    - [while queue:] is iterated with fuel; running out of fuel is [None].
      [bfs_terminates] bounds the fuel that is needed and
      [collapse_arrow_chains_fuel] shows that more of it changes nothing.
    - A Python [set] is a [gset]; where the code iterates over one, the
      model lists it in the order of [elements]. *)

From Stdlib Require Import Floats.
From Stdlib Require Import QArith Reals Qreals Psatz.
From stdpp Require Import gmap strings list pretty.

(** ** Detector output *)

(** One detected box, after [map(int, box.xyxy[0])] and [int(box.cls[0])]. *)
Record box := Box {
  box_cls : Z;
  box_x1 : Z;
  box_y1 : Z;
  box_x2 : Z;
  box_y2 : Z
}.

(** [results] is a list of results, each with its [boxes]. *)
Definition yolo_results : Type := list (list box).

Definition point : Type := (Q * Q)%type.

(** ** Global tables *)

Definition SHAPE_MAP : gmap Z (option Z) :=
  list_to_map [(4, Some 4); (5, None); (6, Some 67); (7, Some 1);
               (8, Some 2); (9, Some 9)]%Z.

Definition SHAPE_NAME_MAP_items : list (Z * option string) :=
  [(4, Some "Decision"); (5, None); (6, Some "Output"); (7, Some "Process");
   (8, Some "Scan (input)"); (9, Some "Start/End")]%Z.

Definition SHAPE_NAME_MAP : gmap Z (option string) :=
  list_to_map SHAPE_NAME_MAP_items.

(** [d.get(k, default)] of a dict whose values may be [None]. *)
Definition dict_get {V} (d : gmap Z (option V)) (k : Z) (default : option V)
  : option V :=
  match d !! k with
  | Some v => v
  | None => default
  end.

(** ** Global connection node counter *)

(** Returns the id and the incremented counter. *)
Definition get_next_connection_id (connection_id_counter : Z) : Z * Z :=
  let cid := connection_id_counter in
  (cid, (connection_id_counter + 1)%Z).

(** ** Shapes *)

(** The tuple
    [(shape_id, class_id, x1, y1, width, height, cx, cy, edge_centers, shape_obj)]
    without the Word object.  [edge_centers] is the dict in insertion order. *)
Record shape := Shape {
  shape_id : Z;
  shape_class_id : Z;
  shape_x1 : Z;
  shape_y1 : Z;
  shape_width : Z;
  shape_height : Z;
  shape_cx : Q;
  shape_cy : Q;
  shape_edge_centers : list (string * point)
}.

Definition is_arrow_class (class_id : Z) : bool :=
  bool_decide (class_id ∈ [0; 1; 2; 3]%Z).

(** Body of the inner loop of [draw_shapes]. *)
Definition draw_shapes_box (shape_positions : list shape) (b : box)
  : list shape :=
  let x1 := box_x1 b in
  let y1 := box_y1 b in
  let class_id := box_cls b in
  let width := (box_x2 b - x1)%Z in
  let height := (box_y2 b - y1)%Z in
  if negb (is_arrow_class class_id) && negb (class_id =? 5)%Z then
    match dict_get SHAPE_MAP class_id None with
    | None => shape_positions
    | Some shape_type =>
        let cx := (inject_Z x1 + inject_Z width / 2)%Q in
        let cy := (inject_Z y1 + inject_Z height / 2)%Q in
        let edge_centers :=
          [("top", (cx, inject_Z y1));
           ("bottom", (cx, inject_Z (y1 + height)));
           ("left", (inject_Z x1, cy));
           ("right", (inject_Z (x1 + width), cy))] in
        let shape_id := Z.of_nat (length shape_positions) in
        shape_positions ++
          [Shape shape_id class_id x1 y1 width height cx cy edge_centers]
    end
  else shape_positions.

Definition draw_shapes (results : yolo_results) : list shape :=
  fold_left (fun shape_positions boxes =>
               fold_left draw_shapes_box boxes shape_positions)
            results [].

(** ** Connection pool *)

(** A connection node dict: keys [id], [point], [type], [shape_id], [side]. *)
Record conn := Conn {
  conn_id : Z;
  conn_point : point;
  conn_type : string;
  conn_shape_id : option Z;
  conn_side : option string
}.

Definition build_connections_side (sid : Z) (acc : list conn * Z)
    (item : string * point) : list conn * Z :=
  let '(connections_pool, counter) := acc in
  let '(side, pt) := item in
  let '(cid, counter) := get_next_connection_id counter in
  (connections_pool ++ [Conn cid pt "shape" (Some sid) (Some side)], counter).

Definition build_connections_pool (shape_positions : list shape) (counter : Z)
  : list conn * Z :=
  fold_left (fun acc s =>
               fold_left (build_connections_side (shape_id s))
                         (shape_edge_centers s) acc)
            shape_positions ([], counter).

(** *** Distances *)

(** A value compared in [find_nearest_connection]: the threshold as it was
    passed, or a result of [math.hypot], the non-negative real whose square
    is [sq]. *)
Inductive distance :=
| Threshold (t : Q)
| Hypot (sq : Q).

Definition hypot (dx dy : Q) : distance := Hypot (dx * dx + dy * dy).

Definition Qltb (a b : Q) : bool := if Qlt_le_dec a b then true else false.

(** [a < b] on the reals the two values stand for. *)
Definition distance_ltb (a b : distance) : bool :=
  match a, b with
  | Threshold s, Threshold t => Qltb s t
  | Hypot s, Hypot t => Qltb s t
  | Hypot s, Threshold t => Qltb 0 t && Qltb s (t * t)
  | Threshold s, Hypot t => Qltb s 0 || Qltb (s * s) t
  end.

Definition conn_distance (candidate : point) (c : conn) : distance :=
  hypot (fst candidate - fst (conn_point c)) (snd candidate - snd (conn_point c)).

(** Body of the scan loop; the state is [(best, best_dist)]. *)
Definition nearest_step (candidate : point) (acc : option conn * distance)
    (c : conn) : option conn * distance :=
  let '(best, best_dist) := acc in
  let d := conn_distance candidate c in
  if distance_ltb d best_dist then (Some c, d) else (best, best_dist).

Definition nearest_scan (candidate : point) (pool : list conn) (threshold : Q)
  : option conn * distance :=
  fold_left (nearest_step candidate) pool (None, Threshold threshold).

(** Returns the node, the pool after the call and the counter after it. *)
Definition find_nearest_connection (candidate : point) (pool : list conn)
    (threshold : Q) (counter : Z) : conn * list conn * Z :=
  match fst (nearest_scan candidate pool threshold) with
  | Some best => (best, pool, counter)
  | None =>
      let '(cid, counter) := get_next_connection_id counter in
      let best := Conn cid candidate "arrow" None None in
      (best, pool ++ [best], counter)
  end.

(** ** Arrow resolver *)

(** One entry of [arrow_connections]. *)
Record arrow_conn := ArrowConn {
  arrow_class_id : Z;
  arrow_bbox : list Z;
  arrow_tail_candidate : list Q;
  arrow_tip_candidate : list Q;
  arrow_tail : conn;
  arrow_tip : conn
}.

(** First loop of [process_arrow_detections]: the tuples
    [(class_id, x1, y1, x2, y2)] of the boxes whose class is in [0,1,2,3]. *)
Definition arrow_detections_box (acc : list (Z * Z * Z * Z * Z)) (b : box)
  : list (Z * Z * Z * Z * Z) :=
  if is_arrow_class (box_cls b)
  then acc ++ [(box_cls b, box_x1 b, box_y1 b, box_x2 b, box_y2 b)]
  else acc.

Definition arrow_detections (results : yolo_results)
  : list (Z * Z * Z * Z * Z) :=
  fold_left (fun acc boxes => fold_left arrow_detections_box boxes acc)
            results [].

(** The [if]/[elif] chain on [class_id]; [None] is the [else: continue]. *)
Definition arrow_candidates (arrow : Z * Z * Z * Z * Z)
  : option (point * point) :=
  let '(class_id, ax1, ay1, ax2, ay2) := arrow in
  let mid_x := (inject_Z (ax1 + ax2) / 2)%Q in
  let mid_y := (inject_Z (ay1 + ay2) / 2)%Q in
  if (class_id =? 0)%Z then
    Some ((mid_x, inject_Z ay1), (mid_x, inject_Z ay2))
  else if (class_id =? 3)%Z then
    Some ((mid_x, inject_Z ay2), (mid_x, inject_Z ay1))
  else if (class_id =? 1)%Z then
    Some ((inject_Z ax2, mid_y), (inject_Z ax1, mid_y))
  else if (class_id =? 2)%Z then
    Some ((inject_Z ax1, mid_y), (inject_Z ax2, mid_y))
  else None.

Definition tuple_to_list (p : point) : list Q := [fst p; snd p].

(** Body of the second loop; the state is
    [(arrow_connections, connections_pool, counter)]. *)
Definition process_arrow (acc : list arrow_conn * list conn * Z)
    (arrow : Z * Z * Z * Z * Z) : list arrow_conn * list conn * Z :=
  let '(arrow_connections, connections_pool, counter) := acc in
  let '(class_id, ax1, ay1, ax2, ay2) := arrow in
  match arrow_candidates arrow with
  | None => acc
  | Some (tail_candidate, tip_candidate) =>
      let '(tail_conn, connections_pool, counter) :=
        find_nearest_connection tail_candidate connections_pool 50 counter in
      let '(tip_conn, connections_pool, counter) :=
        find_nearest_connection tip_candidate connections_pool 50 counter in
      (arrow_connections ++
         [ArrowConn class_id [ax1; ay1; ax2; ay2]
                    (tuple_to_list tail_candidate)
                    (tuple_to_list tip_candidate) tail_conn tip_conn],
       connections_pool, counter)
  end.

Definition process_arrow_detections (results : yolo_results)
    (connections_pool : list conn) (counter : Z)
  : list arrow_conn * list conn * Z :=
  fold_left process_arrow (arrow_detections results)
            ([], connections_pool, counter).

(** ** Chain collapser *)

Fixpoint get_node_by_id (node_id : Z) (pool : list conn) : option conn :=
  match pool with
  | [] => None
  | c :: pool' =>
      if decide (conn_id c = node_id) then Some c
      else get_node_by_id node_id pool'
  end.

(** A tuple [(start_shape, node['shape_id'])]. *)
Definition edge : Type := (option Z * option Z)%type.

(** [graph[tail['id']].append(tip['id'])] on the [defaultdict(list)]. *)
Definition graph_add (graph : gmap Z (list Z)) (arrow : arrow_conn)
  : gmap Z (list Z) :=
  let tail := arrow_tail arrow in
  let tip := arrow_tip arrow in
  <[conn_id tail := graph !!! conn_id tail ++ [conn_id tip]]> graph.

Definition build_graph (arrow_connections : list arrow_conn)
  : gmap Z (list Z) :=
  fold_left graph_add arrow_connections ∅.

Record bfs_state := BfsState {
  bfs_queue : list Z;
  bfs_visited : gset Z;
  bfs_final_edges : gset edge
}.

(** One turn of [while queue:]; [None] when the queue is empty. *)
Definition bfs_step (graph : gmap Z (list Z)) (connections_pool : list conn)
    (start_id : Z) (start_shape : option Z) (st : bfs_state)
  : option bfs_state :=
  match bfs_queue st with
  | [] => None
  | current_id :: queue =>
      if decide (current_id ∈ bfs_visited st) then
        Some (BfsState queue (bfs_visited st) (bfs_final_edges st))
      else
        let visited := {[current_id]} ∪ bfs_visited st in
        let final_edges :=
          if decide (current_id ≠ start_id) then
            match get_node_by_id current_id connections_pool with
            | Some node =>
                if decide (conn_type node = "shape")
                then {[(start_shape, conn_shape_id node)]} ∪ bfs_final_edges st
                else bfs_final_edges st
            | None => bfs_final_edges st
            end
          else bfs_final_edges st in
        let queue :=
          queue ++ filter (fun neighbor => neighbor ∉ visited)
                          (graph !!! current_id) in
        Some (BfsState queue visited final_edges)
  end.

Fixpoint bfs_loop (fuel : nat) (graph : gmap Z (list Z))
    (connections_pool : list conn) (start_id : Z) (start_shape : option Z)
    (st : bfs_state) : option bfs_state :=
  match fuel with
  | O => None
  | S fuel' =>
      match bfs_step graph connections_pool start_id start_shape st with
      | None => Some st
      | Some st' =>
          bfs_loop fuel' graph connections_pool start_id start_shape st'
      end
  end.

(** Body of [for conn in connections_pool:]; the state is [final_edges]. *)
Definition collapse_from (fuel : nat) (graph : gmap Z (list Z))
    (connections_pool : list conn) (acc : option (gset edge)) (c : conn)
  : option (gset edge) :=
  match acc with
  | None => None
  | Some final_edges =>
      if decide (conn_type c = "shape") then
        let start_id := conn_id c in
        let start_shape := conn_shape_id c in
        bfs_final_edges <$>
          bfs_loop fuel graph connections_pool start_id start_shape
                   (BfsState [start_id] ∅ final_edges)
      else Some final_edges
  end.

(** The set [final_edges] before the last comprehension. *)
Definition collapse_edge_set (fuel : nat) (connections_pool : list conn)
    (arrow_connections : list arrow_conn) : option (gset edge) :=
  let graph := build_graph arrow_connections in
  fold_left (collapse_from fuel graph connections_pool) connections_pool
            (Some ∅).

(** [[edge for edge in final_edges if edge[0] != edge[1]]].  The order in
    which the set is listed is the one of [elements]. *)
Definition collapse_arrow_chains (fuel : nat) (connections_pool : list conn)
    (arrow_connections : list arrow_conn) : option (list edge) :=
  (fun final_edges : gset edge =>
     filter (fun e : edge => e.1 ≠ e.2) (elements final_edges))
    <$> collapse_edge_set fuel connections_pool arrow_connections.

(** ** Graph serializer *)

Record chart_node := ChartNode {
  node_id : Z;
  node_class_id : Z;
  node_name : option string;
  node_bbox : list Z;
  node_center : list Q;
  node_edge_centers : list (string * list Q);
  node_ocr_text : string
}.

(** The dict written for ['tail'] and ['tip'] of an arrow. *)
Record chart_endpoint := ChartEndpoint {
  endpoint_id : Z;
  endpoint_point : list Q;
  endpoint_type : string;
  endpoint_shape_id : option Z;
  endpoint_side : option string
}.

Record chart_arrow := ChartArrow {
  chart_arrow_class_id : Z;
  chart_arrow_bbox : list Z;
  chart_arrow_tail_candidate : list Q;
  chart_arrow_tip_candidate : list Q;
  chart_arrow_tail : chart_endpoint;
  chart_arrow_tip : chart_endpoint
}.

(** The chart dict, with its keys in insertion order. *)
Record chart_json := ChartJson {
  chart_nodes : list chart_node;
  chart_edges : list (option Z * option Z);
  chart_SHAPE_MAP : list (string * option string);
  chart_arrows : list chart_arrow
}.

Definition chart_endpoint_of (c : conn) : chart_endpoint :=
  ChartEndpoint (conn_id c) (tuple_to_list (conn_point c)) (conn_type c)
                (conn_shape_id c) (conn_side c).

Definition build_chart_json (shape_positions : list shape)
    (final_edges : list edge) (arrow_connections : list arrow_conn)
    (ocr_dict : gmap Z string) : chart_json :=
  ChartJson
    (map (fun s =>
            ChartNode (shape_id s) (shape_class_id s)
                      (dict_get SHAPE_NAME_MAP (shape_class_id s) None)
                      [shape_x1 s; shape_y1 s; shape_width s; shape_height s]
                      [shape_cx s; shape_cy s]
                      (map (fun kv => (fst kv, tuple_to_list (snd kv)))
                           (shape_edge_centers s))
                      (default "" (ocr_dict !! shape_id s)))
         shape_positions)
    (map (fun e : edge => (e.1, e.2)) final_edges)
    (map (fun kv : Z * option string => (pretty (fst kv), snd kv))
         SHAPE_NAME_MAP_items)
    (map (fun arrow =>
            ChartArrow (arrow_class_id arrow) (arrow_bbox arrow)
                       (arrow_tail_candidate arrow) (arrow_tip_candidate arrow)
                       (chart_endpoint_of (arrow_tail arrow))
                       (chart_endpoint_of (arrow_tip arrow)))
         arrow_connections).

Record shape_mapping_entry := ShapeMappingEntry {
  mapping_id : Z;
  mapping_class_id : Z;
  mapping_name : option string;
  mapping_bbox : list Z;
  mapping_center : list Q
}.

(** Position addressed by the index [i] in a list of length [n]: negative
    indices count from the end, anything outside [-n, n) is [IndexError]. *)
Definition py_index (n : nat) (i : Z) : option nat :=
  if decide (0 ≤ i < Z.of_nat n)%Z then Some (Z.to_nat i)
  else if decide (- Z.of_nat n ≤ i < 0)%Z then Some (Z.to_nat (i + Z.of_nat n))
  else None.

(** [i, j = edge; matrix[i][j] = 1]; [None] when it raises. *)
Definition matrix_set (matrix : list (list Z)) (e : edge)
  : option (list (list Z)) :=
  match e with
  | (Some i, Some j) =>
      ri ← py_index (length matrix) i;
      row ← matrix !! ri;
      cj ← py_index (length row) j;
      Some (<[ri := <[cj := 1%Z]> row]> matrix)
  | _ => None
  end.

Fixpoint matrix_fill (matrix : list (list Z)) (final_edges : list edge)
  : option (list (list Z)) :=
  match final_edges with
  | [] => Some matrix
  | e :: rest => matrix' ← matrix_set matrix e; matrix_fill matrix' rest
  end.

Definition build_nxn_matrix (shape_positions : list shape)
    (final_edges : list edge)
  : option (list (list Z) * list shape_mapping_entry) :=
  let n := length shape_positions in
  let matrix := replicate n (replicate n 0%Z) in
  matrix ← matrix_fill matrix final_edges;
  let shape_mapping :=
    map (fun s =>
           ShapeMappingEntry
             (shape_id s) (shape_class_id s)
             (dict_get SHAPE_NAME_MAP (shape_class_id s)
                       (Some ("Class " +:+ pretty (shape_class_id s))))
             [shape_x1 s; shape_y1 s; shape_width s; shape_height s]
             [shape_cx s; shape_cy s])
        shape_positions in
  Some (matrix, shape_mapping).

(** ** Main processing function *)

(** The two documents handed to [json.dumps]. *)
Record documents := Documents {
  doc_chart : chart_json;
  doc_matrix : list (list Z);
  doc_shapes : list shape_mapping_entry
}.

(** Steps 1 to 3 of [main]: shapes, pool, arrows. *)
Definition reconstruct (results : yolo_results) (counter : Z)
  : list shape * list conn * list arrow_conn * Z :=
  let shape_positions := draw_shapes results in
  let '(connections_pool, counter) :=
    build_connections_pool shape_positions counter in
  let '(arrow_connections, connections_pool, counter) :=
    process_arrow_detections results connections_pool counter in
  (shape_positions, connections_pool, arrow_connections, counter).

(** [main] from the detections on: returns the documents ([None] when a step
    raises or the traversal runs out of fuel) and the counter it leaves.
    The calls that reach outside (the detector, Word, the OCR service, the
    file writes) are not part of it, and neither are their failures. *)
Definition main (fuel : nat) (results : yolo_results)
    (ocr_dict : gmap Z string) (counter : Z) : option documents * Z :=
  let '(shape_positions, connections_pool, arrow_connections, counter) :=
    reconstruct results counter in
  (final_edges ← collapse_arrow_chains fuel connections_pool arrow_connections;
   let chart := build_chart_json shape_positions final_edges
                                 arrow_connections ocr_dict in
   '(matrix, shape_mapping) ← build_nxn_matrix shape_positions final_edges;
   Some (Documents chart matrix shape_mapping),
   counter).

(** ** A run on a two-shape diagram *)

Module Example.

(** Shape 0 has its right anchor at (0,0), shape 1 its left anchor at
    (200,0); two right-pointing arrows meet at (100,0). *)
Definition results : yolo_results :=
  [[Box 7 (-20) (-10) 0 10; Box 2 0 (-5) 100 5;
    Box 9 200 (-10) 220 10; Box 2 100 (-5) 200 5]]%Z.

Definition shapes : list shape :=
  Eval vm_compute in (reconstruct results 0).1.1.1.

Definition pool : list conn :=
  Eval vm_compute in (reconstruct results 0).1.1.2.

Definition arrows : list arrow_conn :=
  Eval vm_compute in (reconstruct results 0).1.2.

(** The same two shapes joined by a right-pointing and a left-pointing
    arrow over the same box: the links 3 -> 6 and 6 -> 3 form a cycle. *)
Definition cyclic_results : yolo_results :=
  [[Box 7 (-20) (-10) 0 10; Box 2 0 (-5) 200 5;
    Box 9 200 (-10) 220 10; Box 1 0 (-5) 200 5]]%Z.

Definition cyclic_pool : list conn :=
  Eval vm_compute in (reconstruct cyclic_results 0).1.1.2.

Definition cyclic_arrows : list arrow_conn :=
  Eval vm_compute in (reconstruct cyclic_results 0).1.2.

End Example.


(** ** Orientation classes *)

Inductive orientation := PointsDown | PointsUp | PointsRight | PointsLeft.

(** Modelled from the spec: the names of the detector's four arrow classes
    are part of the trained model, not of the source.  Image coordinates
    grow downwards, so the branch whose tail is on the upper edge [y1] is
    the class that points down, and so on for the other three. *)
Definition orientation_of_class_id (class_id : Z) : option orientation :=
  if (class_id =? 0)%Z then Some PointsDown
  else if (class_id =? 3)%Z then Some PointsUp
  else if (class_id =? 2)%Z then Some PointsRight
  else if (class_id =? 1)%Z then Some PointsLeft
  else None.

(** The table of the specification: tail and tip for a bounding box
    [(x1, y1, x2, y2)]. *)
Definition spec_tail_tip (o : orientation) (x1 y1 x2 y2 : Z) : point * point :=
  let mid_x := (inject_Z (x1 + x2) / 2)%Q in
  let mid_y := (inject_Z (y1 + y2) / 2)%Q in
  match o with
  | PointsDown => ((mid_x, inject_Z y1), (mid_x, inject_Z y2))
  | PointsUp => ((mid_x, inject_Z y2), (mid_x, inject_Z y1))
  | PointsRight => ((inject_Z x1, mid_y), (inject_Z x2, mid_y))
  | PointsLeft => ((inject_Z x2, mid_y), (inject_Z x1, mid_y))
  end.

Definition box_tuple (b : box) : Z * Z * Z * Z * Z :=
  (box_cls b, box_x1 b, box_y1 b, box_x2 b, box_y2 b).

(** What an arrow link keeps of its detection. *)
Definition arrow_source (a : arrow_conn) : Z * list Z :=
  (arrow_class_id a, arrow_bbox a).

Definition box_source (b : box) : Z * list Z :=
  (box_cls b, [box_x1 b; box_y1 b; box_x2 b; box_y2 b]).

(** ** Distances as real numbers *)

(** The real number a [distance] stands for. *)
Definition distance_value (d : distance) : R :=
  match d with
  | Threshold t => Q2R t
  | Hypot sq => sqrt (Q2R sq)
  end.

(** A result of [hypot] has a non-negative square. *)
Definition distance_wf (d : distance) : Prop :=
  match d with
  | Threshold _ => True
  | Hypot sq => (0 <= sq)%Q
  end.

(** The Euclidean distance between two points. *)
Definition euclidean (p q : point) : R :=
  sqrt (Rsqr (Q2R (fst p - fst q)) + Rsqr (Q2R (snd p - snd q))).

(** ** Snapping vocabulary *)

(** [c] lies strictly within [threshold] of [candidate]. *)
Definition within (candidate : point) (threshold : Q) (c : conn) : Prop :=
  distance_ltb (conn_distance candidate c) (Threshold threshold) = true.

(** [c1] is strictly closer to [candidate] than [c2]. *)
Definition closer (candidate : point) (c1 c2 : conn) : Prop :=
  distance_ltb (conn_distance candidate c1) (conn_distance candidate c2) = true.

(** What the scan loop has established after a prefix of the pool. *)
Definition scanned (candidate : point) (threshold : Q) (pool : list conn)
    (acc : option conn * distance) : Prop :=
  match acc with
  | (None, best_dist) =>
      best_dist = Threshold threshold ∧
      ∀ c, c ∈ pool → ¬ within candidate threshold c
  | (Some best, best_dist) =>
      best_dist = conn_distance candidate best ∧
      within candidate threshold best ∧
      ∃ l1 l2, pool = l1 ++ best :: l2 ∧
               (∀ c, c ∈ l1 → closer candidate best c) ∧
               (∀ c, c ∈ l2 → ¬ closer candidate c best)
  end.

(** ** Traversal vocabulary *)

Definition tail_id (a : arrow_conn) : Z := conn_id (arrow_tail a).
Definition tip_id (a : arrow_conn) : Z := conn_id (arrow_tip a).

(** The seed state of the traversal started at [start_id]. *)
Definition bfs_init (start_id : Z) (final_edges : gset edge) : bfs_state :=
  BfsState [start_id] ∅ final_edges.

(** The ids that get past the visited test, in the order in which the loop
    reaches them: [current_id] is listed when the turn executes
    [visited.add(current_id)]. *)
Fixpoint bfs_expanded (fuel : nat) (graph : gmap Z (list Z))
    (connections_pool : list conn) (start_id : Z) (start_shape : option Z)
    (st : bfs_state) : list Z :=
  match fuel with
  | O => []
  | S fuel' =>
      match bfs_queue st,
            bfs_step graph connections_pool start_id start_shape st with
      | current_id :: _, Some st' =>
          (if decide (current_id ∈ bfs_visited st) then [] else [current_id])
          ++ bfs_expanded fuel' graph connections_pool start_id start_shape st'
      | _, _ => []
      end
  end.

(** Bound on the turns left: the queue length plus the arrows whose tail
    has not been expanded yet. *)
Definition bfs_potential (arrow_connections : list arrow_conn)
    (st : bfs_state) : nat :=
  length (bfs_queue st)
  + length (filter (fun a => tail_id a ∉ bfs_visited st) arrow_connections).

(** ** Reachability through the arrow mesh *)

(** Some arrow link has its tail at node [u] and its tip at node [v]. *)
Definition link (arrows : list arrow_conn) (u v : Z) : Prop :=
  ∃ a, a ∈ arrows ∧ tail_id a = u ∧ tip_id a = v.

(** [v] is reached from [u] through a chain of arrow links. *)
Definition reach (arrows : list arrow_conn) : Z → Z → Prop :=
  rtc (link arrows).

(** [e] is the edge recorded when the traversal seeded at [start_id] gets
    to the id [t]. *)
Definition reached_edge (pool : list conn) (start_id : Z)
    (start_shape : option Z) (t : Z) (e : edge) : Prop :=
  t ≠ start_id ∧
  ∃ node, get_node_by_id t pool = Some node ∧ conn_type node = "shape" ∧
          e = (start_shape, conn_shape_id node).

(** [e] is an edge owed to the seed [s]: [s] is a shape anchor and a chain
    of arrow links leads from it to another id that resolves to a shape
    anchor. *)
Definition seed_edge (pool : list conn) (arrows : list arrow_conn) (s : conn)
    (e : edge) : Prop :=
  conn_type s = "shape" ∧
  ∃ t, reach arrows (conn_id s) t ∧
       reached_edge pool (conn_id s) (conn_shape_id s) t e.

(** Loop invariant of the traversal seeded at [start_id] with the edge set
    [edges0]. *)
Record bfs_inv (arrows : list arrow_conn) (pool : list conn) (start_id : Z)
    (start_shape : option Z) (edges0 : gset edge) (st : bfs_state) : Prop :=
  BfsInv {
    inv_reach : ∀ u, u ∈ bfs_queue st ∨ u ∈ bfs_visited st →
                     reach arrows start_id u;
    inv_start : start_id ∈ bfs_visited st ∨ start_id ∈ bfs_queue st;
    inv_closed : ∀ u v, u ∈ bfs_visited st → link arrows u v →
                        v ∈ bfs_visited st ∨ v ∈ bfs_queue st;
    inv_edges : ∀ e, e ∈ bfs_final_edges st ↔
                     e ∈ edges0 ∨
                     ∃ t, t ∈ bfs_visited st ∧
                          reached_edge pool start_id start_shape t e
  }.

(** ** Pipeline vocabulary *)

(** Every node of type ['shape'] carries the id of one of [n] shapes. *)
Definition shape_ids_in_range (n : nat) (pool : list conn) : Prop :=
  ∀ c, c ∈ pool → conn_type c = "shape" →
       ∃ k, conn_shape_id c = Some k ∧ (0 ≤ k < Z.of_nat n)%Z.

(** Both ends of the edge are shape ids below [n]. *)
Definition edge_in_range (n : nat) (e : edge) : Prop :=
  ∃ i j, e = (Some i, Some j) ∧
         (0 ≤ i < Z.of_nat n)%Z ∧ (0 ≤ j < Z.of_nat n)%Z.

(** [matrix[i][j]] for indices that are in range. *)
Definition entry (matrix : list (list Z)) (i j : nat) : option Z :=
  row ← matrix !! i; row !! j.

(** [n] rows of [n] columns. *)
Definition square (n : nat) (matrix : list (list Z)) : Prop :=
  length matrix = n ∧ ∀ row, row ∈ matrix → length row = n.

(** ** Runs from different counter values *)

(** Two calls of [main] in one interpreter: the module-level counter is
    initialised once, so the second call starts where the first stopped. *)
Definition main_twice (fuel : nat) (results : yolo_results)
    (ocr_dict : gmap Z string) (counter : Z)
  : option documents * option documents * Z :=
  let '(docs1, counter) := main fuel results ocr_dict counter in
  let '(docs2, counter) := main fuel results ocr_dict counter in
  (docs1, docs2, counter).

(** The same node with its id moved by [k]. *)
Definition shift_conn (k : Z) (c : conn) : conn :=
  Conn (conn_id c + k) (conn_point c) (conn_type c) (conn_shape_id c)
       (conn_side c).

Definition shift_arrow (k : Z) (a : arrow_conn) : arrow_conn :=
  ArrowConn (arrow_class_id a) (arrow_bbox a) (arrow_tail_candidate a)
            (arrow_tip_candidate a) (shift_conn k (arrow_tail a))
            (shift_conn k (arrow_tip a)).

Definition shift_endpoint (k : Z) (p : chart_endpoint) : chart_endpoint :=
  ChartEndpoint (endpoint_id p + k) (endpoint_point p) (endpoint_type p)
                (endpoint_shape_id p) (endpoint_side p).

Definition shift_chart_arrow (k : Z) (a : chart_arrow) : chart_arrow :=
  ChartArrow (chart_arrow_class_id a) (chart_arrow_bbox a)
             (chart_arrow_tail_candidate a) (chart_arrow_tip_candidate a)
             (shift_endpoint k (chart_arrow_tail a))
             (shift_endpoint k (chart_arrow_tip a)).

(** The documents with every connection-node id moved by [k]; the ids
    occur in the arrows of the chart only. *)
Definition shift_documents (k : Z) (d : documents) : documents :=
  Documents
    (ChartJson (chart_nodes (doc_chart d)) (chart_edges (doc_chart d))
               (chart_SHAPE_MAP (doc_chart d))
               (shift_chart_arrow k <$> chart_arrows (doc_chart d)))
    (doc_matrix d) (doc_shapes d).

(** The connection-node ids written in the chart, tail then tip of each
    arrow. *)
Definition chart_connection_ids (d : documents) : list (Z * Z) :=
  (fun a => (endpoint_id (chart_arrow_tail a),
             endpoint_id (chart_arrow_tip a)))
    <$> chart_arrows (doc_chart d).

(** The pool holds the ids [counter0], [counter0 + 1], ... in order, and
    [counter] is the next one. *)
Definition ids_from (counter0 : Z) (pool : list conn) (counter : Z) : Prop :=
  counter = (counter0 + Z.of_nat (length pool))%Z ∧
  ∀ i c, pool !! i = Some c → conn_id c = (counter0 + Z.of_nat i)%Z.

(** * Further vocabulary *)

(** ** Shapes kept by [draw_shapes] *)

(** The classes that pass both tests of [draw_shapes]: not an arrow class,
    not 5, and mapped by [SHAPE_MAP] to a shape type. *)
Definition is_shape_class (class_id : Z) : bool :=
  bool_decide (class_id ∈ [4; 6; 7; 8; 9]%Z).

(** The tuple appended for a box when [shape_positions] holds [k] shapes. *)
Definition shape_of_box (k : nat) (b : box) : shape :=
  let x1 := box_x1 b in
  let y1 := box_y1 b in
  let width := (box_x2 b - x1)%Z in
  let height := (box_y2 b - y1)%Z in
  let cx := (inject_Z x1 + inject_Z width / 2)%Q in
  let cy := (inject_Z y1 + inject_Z height / 2)%Q in
  Shape (Z.of_nat k) (box_cls b) x1 y1 width height cx cy
        [("top", (cx, inject_Z y1));
         ("bottom", (cx, inject_Z (y1 + height)));
         ("left", (inject_Z x1, cy));
         ("right", (inject_Z (x1 + width), cy))].

(** The four nodes seeded for a shape when the counter is at [counter]. *)
Definition anchors_of (counter : Z) (s : shape) : list conn :=
  imap (fun j item =>
          Conn (counter + Z.of_nat j) (snd item) "shape" (Some (shape_id s))
               (Some (fst item)))
       (shape_edge_centers s).

(** The nodes seeded for a list of shapes, counting from [counter]. *)
Fixpoint seed_all (counter : Z) (shapes : list shape) : list conn :=
  match shapes with
  | [] => []
  | s :: rest =>
      anchors_of counter s
      ++ seed_all (counter + Z.of_nat (length (shape_edge_centers s))) rest
  end.

(** ** Resolved arrow links *)

(** Both ends of the link are nodes of [pool], each strictly within 50 of
    the candidate point recorded for it. *)
Definition link_resolved (pool : list conn) (a : arrow_conn) : Prop :=
  arrow_tail a ∈ pool ∧ arrow_tip a ∈ pool ∧
  ∃ tail_candidate tip_candidate,
    arrow_tail_candidate a = tuple_to_list tail_candidate ∧
    arrow_tip_candidate a = tuple_to_list tip_candidate ∧
    (euclidean tail_candidate (conn_point (arrow_tail a)) < Q2R 50)%R ∧
    (euclidean tip_candidate (conn_point (arrow_tip a)) < Q2R 50)%R.

(** ** Indices that Python accepts *)

(** Both ends of the edge are integers that index a list of length [n],
    from the front or, when negative, from the end. *)
Definition edge_addressable (n : nat) (e : edge) : Prop :=
  ∃ i j, e = (Some i, Some j) ∧
         (- Z.of_nat n ≤ i < Z.of_nat n)%Z ∧ (- Z.of_nat n ≤ j < Z.of_nat n)%Z.

(** ** Text inside quotes *)

(** The double quote and the newline character. *)
Definition quote_char : Ascii.ascii := Ascii.ascii_of_nat 34.
Definition newline_char : Ascii.ascii := Ascii.ascii_of_nat 10.

(** The rest of the pattern after its opening quote (the lazy group of
    dots and the closing quote), matched at the head of [s]: the group stops
    at the first quote; the dot does not match a newline, so a newline or
    the end of the text before a quote is a failure. *)
Fixpoint lazy_group (s : string) : option string :=
  match s with
  | EmptyString => None
  | String c rest =>
      if Ascii.eqb c quote_char then Some EmptyString
      else if Ascii.eqb c newline_char then None
      else String c <$> lazy_group rest
  end.

(** Group 1 of the [re.search] for a quote, a lazy group of dots and a
    quote in [metin]: the match attempt at the leftmost position that
    succeeds; [None] when there is no match. *)
Fixpoint search_quoted (metin : string) : option string :=
  match metin with
  | EmptyString => None
  | String c rest =>
      if Ascii.eqb c quote_char then
        match lazy_group rest with
        | Some group => Some group
        | None => search_quoted rest
        end
      else search_quoted rest
  end.

Definition icerigi_al (metin : string) : string :=
  match search_quoted metin with
  | Some group => group
  | None => metin
  end.

(** [c] occurs in [s]. *)
Fixpoint occurs (c : Ascii.ascii) (s : string) : bool :=
  match s with
  | EmptyString => false
  | String c' rest => Ascii.eqb c' c || occurs c rest
  end.

(** ** What is drawn in Word *)

(** A shape of the document after [AddShape] and the assignments to its
    fill colour and text; [None] as fill: the colour was not set. *)
Record word_shape := WordShape {
  ws_type : option Z;
  ws_left : Z;
  ws_top : Z;
  ws_width : Z;
  ws_height : Z;
  ws_fill : option (Z * Z * Z);
  ws_text : option string
}.

(** A line of the document after [AddLine] and the assignment to its
    [EndArrowheadStyle]. *)
Record word_line := WordLine {
  wl_begin_x : Q;
  wl_begin_y : Q;
  wl_end_x : Q;
  wl_end_y : Q;
  wl_end_arrowhead : Z
}.

(** The [if]/[elif] chain that sets the fill colour, the same in the three
    files. *)
Definition fill_of_class (class_id : Z) : option (Z * Z * Z) :=
  if (class_id =? 4)%Z then Some (0, 255, 0)%Z
  else if (class_id =? 6)%Z then Some (0, 0, 255)%Z
  else if (class_id =? 7)%Z then Some (255, 0, 0)%Z
  else if (class_id =? 8)%Z then Some (255, 255, 0)%Z
  else if (class_id =? 9)%Z then Some (0, 255, 255)%Z
  else None.

(** The Word object [shape_obj] that [draw_shapes] stores in the tuple of a
    shape: created with the type of [SHAPE_MAP], filled by class, labelled
    with the class name. *)
Definition shape_obj (s : shape) : word_shape :=
  WordShape (dict_get SHAPE_MAP (shape_class_id s) None)
            (shape_x1 s) (shape_y1 s) (shape_width s) (shape_height s)
            (fill_of_class (shape_class_id s))
            (dict_get SHAPE_NAME_MAP (shape_class_id s)
               (Some ("Class " +:+ pretty (shape_class_id s)))).

(** Step 5 of [main]: the text of every shape is replaced by the OCR text
    passed through [icerigi_al]. *)
Definition main_shape_obj (ocr_dict : gmap Z string) (s : shape)
  : word_shape :=
  let ocr_text := default EmptyString (ocr_dict !! shape_id s) in
  let o := shape_obj s in
  WordShape (ws_type o) (ws_left o) (ws_top o) (ws_width o) (ws_height o)
            (ws_fill o) (Some (icerigi_al ocr_text)).

(** The line that [process_arrow_detections] draws for an arrow link. *)
Definition arrow_line (a : arrow_conn) : word_line :=
  WordLine (fst (conn_point (arrow_tail a))) (snd (conn_point (arrow_tail a)))
           (fst (conn_point (arrow_tip a))) (snd (conn_point (arrow_tip a)))
           3.

(** ** The documents read back *)

(** A shape dict of a loaded JSON document: a node of the chart or an entry
    of the matrix document's shape list.  [js_ocr_text] is [None] when the
    key is absent. *)
Record json_shape := JsonShape {
  js_id : Z;
  js_class_id : Z;
  js_name : option string;
  js_bbox : list Z;
  js_center : list Q;
  js_ocr_text : option string
}.

(** [json.dumps] followed by [json.load] gives back the numbers, strings,
    [None]s and lists that were written; a node of the chart is read as: *)
Definition load_chart_node (n : chart_node) : json_shape :=
  JsonShape (node_id n) (node_class_id n) (node_name n) (node_bbox n)
            (node_center n) (Some (node_ocr_text n)).

(** and an entry of the matrix document, which has no OCR text, as: *)
Definition load_mapping_entry (m : shape_mapping_entry) : json_shape :=
  JsonShape (mapping_id m) (mapping_class_id m) (mapping_name m)
            (mapping_bbox m) (mapping_center m) None.

(** [SHAPE_DRAW_MAP] of the two re-creation scripts. *)
Definition SHAPE_DRAW_MAP : gmap Z (option Z) :=
  list_to_map [(4, Some 4); (5, None); (6, Some 67); (7, Some 1);
               (8, Some 2); (9, Some 9)]%Z.

(** Truth value of [d.get(key)] for a string value. *)
Definition truthy (v : option string) : bool :=
  match v with
  | Some (String _ _) => true
  | _ => false
  end.

(** Body of the loop of [create_shapes], the same in both scripts; [None]
    when the bounding box does not unpack into four values. *)
Definition create_shape (node : json_shape) : option word_shape :=
  match js_bbox node with
  | [x1; y1; width; height] =>
      let shape_type := dict_get SHAPE_DRAW_MAP (js_class_id node) (Some 1%Z) in
      let text :=
        if truthy (js_ocr_text node) then js_ocr_text node
        else if truthy (js_name node) then js_name node
        else Some EmptyString in
      Some (WordShape shape_type x1 y1 width height
                      (fill_of_class (js_class_id node)) text)
  | _ => None
  end.

(** The shapes drawn by [create_shapes], in order. *)
Definition create_shapes (nodes : list json_shape) : option (list word_shape) :=
  mapM create_shape nodes.

Module RecreateFromJson.

(** Body of the loop of [create_arrows]; [None] when a point has fewer than
    two coordinates. *)
Definition create_arrow (arrow : chart_arrow) : option word_line :=
  match endpoint_point (chart_arrow_tail arrow),
        endpoint_point (chart_arrow_tip arrow) with
  | x1 :: y1 :: _, x2 :: y2 :: _ => Some (WordLine x1 y1 x2 y2 3)
  | _, _ => None
  end.

Definition create_arrows (arrows : list chart_arrow) : option (list word_line) :=
  mapM create_arrow arrows.

End RecreateFromJson.

Module RecreateFromMatrix.

(** [None] when a bounding box or a centre does not unpack. *)
Definition compute_arrow_endpoints (source target : json_shape)
  : option (point * point) :=
  match js_bbox source, js_center source, js_bbox target, js_center target with
  | [sx; sy; sw; sh], [scx; scy], [tx; ty; tw; th], [tcx; tcy] =>
      Some (if Qltb scy tcy then
              ((scx, inject_Z (sy + sh)), (tcx, inject_Z ty))
            else if Qltb tcy scy then
              ((scx, inject_Z sy), (tcx, inject_Z (ty + th)))
            else if Qltb scx tcx then
              ((inject_Z (sx + sw), scy), (inject_Z tx, tcy))
            else
              ((inject_Z sx, scy), (inject_Z (tx + tw), tcy)))
  | _, _, _, _ => None
  end.

(** [{shape["id"]: shape for shape in shape_mapping}]: a later shape with
    the same id replaces an earlier one. *)
Definition shape_dict_of (shape_mapping : list json_shape)
  : gmap Z json_shape :=
  fold_left (fun d s => <[js_id s := s]> d) shape_mapping ∅.

(** Body of the inner loop of [create_arrows_from_matrix] for the cell
    [(i, j)]; the state is the list of lines drawn so far.  [None] when
    [matrix[i][j]] or [compute_arrow_endpoints] raises. *)
Definition create_arrows_cell (matrix : list (list Z))
    (shape_dict : gmap Z json_shape) (i j : nat) (lines : list word_line)
  : option (list word_line) :=
  row ← matrix !! i;
  x ← row !! j;
  if decide (x = 1%Z) then
    match shape_dict !! Z.of_nat i, shape_dict !! Z.of_nat j with
    | Some source, Some target =>
        '(source_pt, target_pt) ← compute_arrow_endpoints source target;
        Some (lines ++ [WordLine (fst source_pt) (snd source_pt)
                                 (fst target_pt) (snd target_pt) 3])
    | _, _ => Some lines
    end
  else Some lines.

(** A loop [for k in range(n)] over a body that may raise. *)
Definition for_range {A} (n : nat) (body : nat → A → option A) (init : A)
  : option A :=
  fold_left (fun acc k => acc ≫= body k) (seq 0 n) (Some init).

(** The lines drawn by [create_arrows_from_matrix], in order. *)
Definition create_arrows_from_matrix (matrix : list (list Z))
    (shape_mapping : list json_shape) : option (list word_line) :=
  let shape_dict := shape_dict_of shape_mapping in
  let n := length matrix in
  for_range n (fun i =>
    for_range n (fun j => create_arrows_cell matrix shape_dict i j)) [].

End RecreateFromMatrix.

(** ** The shapes as the documents describe them *)

(** The entry that [build_nxn_matrix] writes for a shape. *)
Definition shape_mapping_of (s : shape) : shape_mapping_entry :=
  ShapeMappingEntry
    (shape_id s) (shape_class_id s)
    (dict_get SHAPE_NAME_MAP (shape_class_id s)
              (Some ("Class " +:+ pretty (shape_class_id s))))
    [shape_x1 s; shape_y1 s; shape_width s; shape_height s]
    [shape_cx s; shape_cy s].

(** The shape of [draw_shapes] with the text that the re-creation from the
    chart gives it: the OCR text when there is one, the class name
    otherwise. *)
Definition relabelled (ocr_dict : gmap Z string) (s : shape) : word_shape :=
  let ocr_text := default EmptyString (ocr_dict !! shape_id s) in
  let o := shape_obj s in
  WordShape (ws_type o) (ws_left o) (ws_top o) (ws_width o) (ws_height o)
            (ws_fill o)
            (if truthy (Some ocr_text) then Some ocr_text else ws_text o).

(** ** Lines drawn from a matrix *)

(** The cells of an [n] x [n] matrix in the order of the two nested loops. *)
Definition row_major (n : nat) : list (nat * nat) :=
  i ← seq 0 n; (fun j => (i, j)) <$> seq 0 n.

(** The line from the [i]-th to the [j]-th shape of the list. *)
Definition matrix_line (shape_mapping : list json_shape) (i j : nat)
  : option word_line :=
  source ← shape_mapping !! i;
  target ← shape_mapping !! j;
  '(source_pt, target_pt) ←
    RecreateFromMatrix.compute_arrow_endpoints source target;
  Some (WordLine (fst source_pt) (snd source_pt)
                 (fst target_pt) (snd target_pt) 3).

(** What is drawn for a cell: the line when the cell holds 1, nothing
    otherwise. *)
Definition cell_lines (matrix : list (list Z)) (shape_mapping : list json_shape)
    (cell : nat * nat) : list word_line :=
  if decide (entry matrix cell.1 cell.2 = Some 1%Z)
  then option_list (matrix_line shape_mapping cell.1 cell.2)
  else [].

(** Bounding box and centre of the shape unpack, and its id is [k]. *)
Definition well_formed_shape (k : nat) (s : json_shape) : Prop :=
  js_id s = Z.of_nat k ∧ length (js_bbox s) = 4%nat ∧
  length (js_center s) = 2%nat.

(** ** The two kinds of nodes *)

(** A node is an anchor of one of [n] shapes, with its side, or a floating
    node without owner and side. *)
Definition node_typed (n : nat) (c : conn) : Prop :=
  (conn_type c = "shape" ∧
   (∃ k, conn_shape_id c = Some k ∧ (0 ≤ k < Z.of_nat n)%Z) ∧
   ∃ side, conn_side c = Some side ∧
           side ∈ ["top"; "bottom"; "left"; "right"])
  ∨ (conn_type c = "arrow" ∧ conn_shape_id c = None ∧ conn_side c = None).

(** ** The scan of [find_nearest_connection] in double precision *)

(** [find_nearest_connection] compares the results of [math.hypot], which
    are binary64 values.  On the coordinates of the pipeline (pixel corners
    and halves of their sums) two distances that differ, and a distance and
    the threshold, lie far apart compared with the rounding of a double,
    and the pipeline above is stated over exact distances.  For arbitrary
    points the rounding shows: a node whose distance is below the threshold
    by less than the rounding error is not snapped to.  [Double] is the
    function over binary64 values. *)
Module Double.

(** A coordinate is a binary64 value.  A Python [int] coordinate, and an
    [int] threshold, is read as the double it converts to, which is the
    same number up to [2^53] in magnitude. *)
Definition point : Type := (float * float)%type.

(** A connection node dict, with a [point] of doubles. *)
Record conn := Conn {
  conn_id : Z;
  conn_point : point;
  conn_type : string;
  conn_shape_id : option Z;
  conn_side : option string
}.

Section Scan.

(** [math.hypot].  The scan is defined for any function in its place. *)
Variable hypot : float → float → float.

Definition conn_distance (candidate : point) (c : conn) : float :=
  hypot (fst candidate - fst (conn_point c))%float
        (snd candidate - snd (conn_point c))%float.

(** Body of the scan loop; the state is [(best, best_dist)]. *)
Definition nearest_step (candidate : point) (acc : option conn * float)
    (c : conn) : option conn * float :=
  let '(best, best_dist) := acc in
  let d := conn_distance candidate c in
  if (d <? best_dist)%float then (Some c, d) else (best, best_dist).

Definition nearest_scan (candidate : point) (pool : list conn)
    (threshold : float) : option conn * float :=
  fold_left (nearest_step candidate) pool (None, threshold).

(** Returns the node, the pool after the call and the counter after it. *)
Definition find_nearest_connection (candidate : point) (pool : list conn)
    (threshold : float) (counter : Z) : conn * list conn * Z :=
  match fst (nearest_scan candidate pool threshold) with
  | Some best => (best, pool, counter)
  | None =>
      let '(cid, counter) := get_next_connection_id counter in
      let best := Conn cid candidate "arrow" None None in
      (best, pool ++ [best], counter)
  end.

End Scan.

(** The Euclidean norm of [(x, y)] rounded to the nearest double: the sum
    of the squares is formed exactly and rounded once, by the square root.
    An infinite argument gives infinity, also beside a NaN.  The
    interpreter's [math.hypot] is documented to err by less than one unit
    in the last place and to return the correctly rounded value almost
    always; only [find_nearest_connection_rounds_to_threshold] evaluates
    this function. *)
Definition math_hypot (x y : float) : float :=
  match Prim2SF x, Prim2SF y with
  | S754_infinity _, _ | _, S754_infinity _ => infinity
  | S754_nan, _ | _, S754_nan => nan
  | S754_zero _, _ => abs y
  | _, S754_zero _ => abs x
  | S754_finite _ mx ex, S754_finite _ my ey =>
      let e := Z.min ex ey in
      let sq := ((Z.pos mx * 2 ^ (ex - e)) ^ 2
                 + (Z.pos my * 2 ^ (ey - e)) ^ 2)%Z in
      SF2Prim (SFsqrt prec emax (S754_finite false (Z.to_pos sq) (2 * e)))
  end.

(** The rational number a finite double stands for. *)
Definition to_Q (x : float) : Q :=
  match Prim2SF x with
  | S754_finite s m e =>
      inject_Z (if s then Z.neg m else Z.pos m) * Qpower 2 e
  | _ => 0
  end.

Definition to_point (p : point) : (Q * Q)%type := (to_Q (fst p), to_Q (snd p)).

End Double.

(** A candidate at the exact distance [sqrt (2500 - 28 * 2^-49 + 2^-98)]
    from the origin, and a node at the origin. *)
Definition boundary_candidate : Double.point := (48, 14 - 0x1p-49)%float.

Definition origin_node : Double.conn :=
  Double.Conn 0 (0, 0)%float "shape" (Some 0%Z) (Some "top").

(** What the loop of [Double.find_nearest_connection] has established after
    the nodes of [scanned]: no best node yet and none of them below the
    threshold, or a best node below the threshold, strictly below every
    node before it and not above any node after it.  A distance that is
    NaN is below nothing and nothing is below it. *)
Definition double_scanned (hypot : float → float → float)
    (candidate : Double.point) (threshold : float)
    (scanned : list Double.conn) (acc : option Double.conn * float) : Prop :=
  let d := Double.conn_distance hypot candidate in
  match acc.1 with
  | None =>
      acc.2 = threshold ∧
      ∀ c, c ∈ scanned → (d c <? threshold)%float = false
  | Some best =>
      acc.2 = d best ∧ (d best <? threshold)%float = true ∧
      ∃ l1 l2, scanned = l1 ++ best :: l2 ∧
        (∀ c, c ∈ l1 → (d c <=? d best)%float = false) ∧
        (∀ c, c ∈ l2 → (d c <? d best)%float = false)
  end.

(** * Properties *)

(** ** Arrow resolver *)

Lemma is_arrow_class_spec class_id :
  is_arrow_class class_id = true ↔
  (class_id = 0 ∨ class_id = 1 ∨ class_id = 2 ∨ class_id = 3)%Z.
Proof.
  unfold is_arrow_class. rewrite bool_decide_eq_true.
  rewrite !elem_of_cons, elem_of_nil. tauto.
Qed.

Lemma orientation_recognised class_id :
  is_Some (orientation_of_class_id class_id) ↔ is_arrow_class class_id = true.
Proof.
  rewrite is_arrow_class_spec. unfold orientation_of_class_id.
  destruct (class_id =? 0)%Z eqn:E0; [apply Z.eqb_eq in E0; split; eauto|].
  destruct (class_id =? 3)%Z eqn:E3; [apply Z.eqb_eq in E3; split; eauto|].
  destruct (class_id =? 2)%Z eqn:E2; [apply Z.eqb_eq in E2; split; eauto|].
  destruct (class_id =? 1)%Z eqn:E1; [apply Z.eqb_eq in E1; split; eauto|].
  apply Z.eqb_neq in E0, E3, E2, E1.
  split; [intros [? [=]] | lia].
Qed.

(** C8: for a recognised orientation class the tail and tip candidates are
    the edge midpoints the table of the specification gives for that class:
    down is (mid-x, y1) to (mid-x, y2), up is (mid-x, y2) to (mid-x, y1),
    right is (x1, mid-y) to (x2, mid-y), left is (x2, mid-y) to (x1, mid-y). *)
Theorem arrow_candidates_table class_id x1 y1 x2 y2 o :
  orientation_of_class_id class_id = Some o →
  arrow_candidates (class_id, x1, y1, x2, y2) = Some (spec_tail_tip o x1 y1 x2 y2).
Proof.
  unfold orientation_of_class_id, arrow_candidates.
  destruct (class_id =? 0)%Z eqn:E0; [by intros [= <-]|].
  destruct (class_id =? 3)%Z eqn:E3; [by intros [= <-]|].
  destruct (class_id =? 2)%Z eqn:E2.
  - intros [= <-]. apply Z.eqb_eq in E2 as ->. reflexivity.
  - destruct (class_id =? 1)%Z eqn:E1; [by intros [= <-]|discriminate].
Qed.

Lemma arrow_candidates_table_witness :
  orientation_of_class_id 2 = Some PointsRight ∧
  arrow_candidates (2, 0, -5, 100, 5)%Z =
    Some ((inject_Z 0, (inject_Z (-5 + 5) / 2)%Q),
          (inject_Z 100, (inject_Z (-5 + 5) / 2)%Q)).
Proof.
  split; [reflexivity|].
  exact (arrow_candidates_table 2 0 (-5) 100 5 PointsRight eq_refl).
Defined.

(** Each row of the table is realised by a class. *)
Lemma arrow_candidates_rows o :
  ∃ class_id, is_arrow_class class_id = true ∧
    ∀ x1 y1 x2 y2,
      arrow_candidates (class_id, x1, y1, x2, y2)
      = Some (spec_tail_tip o x1 y1 x2 y2).
Proof.
  destruct o; [exists 0%Z | exists 3%Z | exists 2%Z | exists 1%Z];
    (split; [reflexivity | intros; reflexivity]).
Qed.

Lemma arrow_candidates_is_Some arrow :
  is_arrow_class arrow.1.1.1.1 = true → is_Some (arrow_candidates arrow).
Proof.
  destruct arrow as [[[[class_id ax1] ay1] ax2] ay2]; simpl.
  rewrite is_arrow_class_spec. unfold arrow_candidates.
  intros [-> | [-> | [-> | ->]]]; simpl; by eexists.
Qed.

Lemma fold_left_collect {A B} (p : A → bool) (f : A → B) l acc :
  fold_left (fun acc x => if p x then acc ++ [f x] else acc) l acc
  = acc ++ map f (filter (fun x => p x = true) l).
Proof.
  revert acc. induction l as [|x l IH]; intros acc; simpl.
  - by rewrite app_nil_r.
  - rewrite IH. rewrite filter_cons. destruct (p x) eqn:E.
    + rewrite decide_True by done. simpl. by rewrite <- app_assoc.
    + rewrite decide_False by (by intros ?). done.
Qed.

Lemma fold_left_concat {A B} (f : B → A → B) (ls : list (list A)) acc :
  fold_left (fun acc l => fold_left f l acc) ls acc
  = fold_left f (concat ls) acc.
Proof.
  revert acc. induction ls as [|l ls IH]; intros acc; simpl; [done|].
  by rewrite IH, fold_left_app.
Qed.

(** The first loop keeps exactly the boxes whose class is 0, 1, 2 or 3. *)
Lemma arrow_detections_filter results :
  arrow_detections results
  = map box_tuple
        (filter (fun b => is_arrow_class (box_cls b) = true) (concat results)).
Proof.
  unfold arrow_detections. rewrite fold_left_concat.
  apply (fold_left_collect (fun b => is_arrow_class (box_cls b)) box_tuple).
Qed.

Lemma process_arrow_eq acc pool counter arrow tail_candidate tip_candidate :
  arrow_candidates arrow = Some (tail_candidate, tip_candidate) →
  process_arrow (acc, pool, counter) arrow =
    let r1 := find_nearest_connection tail_candidate pool 50 counter in
    let r2 := find_nearest_connection tip_candidate r1.1.2 50 r1.2 in
    (acc ++ [ArrowConn arrow.1.1.1.1
                       [arrow.1.1.1.2; arrow.1.1.2; arrow.1.2; arrow.2]
                       (tuple_to_list tail_candidate)
                       (tuple_to_list tip_candidate) r1.1.1 r2.1.1],
     r2.1.2, r2.2).
Proof.
  intros Hc. unfold process_arrow.
  destruct arrow as [[[[class_id ax1] ay1] ax2] ay2]. rewrite Hc. simpl.
  destruct (find_nearest_connection tail_candidate pool 50 counter)
    as [[tc pool1] c1]; simpl.
  by destruct (find_nearest_connection tip_candidate pool1 50 c1)
    as [[pc pool2] c2].
Qed.

Lemma process_arrow_fold_sources bs acc pool counter :
  Forall (fun b => is_arrow_class (box_cls b) = true) bs →
  map arrow_source
      (fold_left process_arrow (map box_tuple bs) (acc, pool, counter)).1.1
  = map arrow_source acc ++ map box_source bs.
Proof.
  revert acc pool counter.
  induction bs as [|b bs IH]; intros acc pool counter Hall;
    cbn [map fold_left].
  - simpl. by rewrite app_nil_r.
  - inversion Hall as [|? ? Hb Hbs]; subst.
    destruct (arrow_candidates_is_Some (box_tuple b) Hb) as [[tl tp] Hc].
    rewrite (process_arrow_eq _ _ _ _ _ _ Hc). cbv zeta.
    rewrite IH by done. rewrite map_app. simpl.
    by rewrite <- app_assoc.
Qed.

(** C3 (as amended): [process_arrow_detections] builds one arrow link, in
    order, for every box whose class is 0, 1, 2 or 3, whatever its width and
    height, and none for a box of any other class; the boxes of other
    classes do not change what the remaining ones produce.  The function is
    total: no input makes it fail. *)
Theorem process_arrow_detections_links results pool counter :
  let kept :=
    filter (fun b => is_arrow_class (box_cls b) = true) (concat results) in
  map arrow_source (process_arrow_detections results pool counter).1.1
  = map box_source kept
  ∧ process_arrow_detections results pool counter
    = process_arrow_detections [kept] pool counter.
Proof.
  intros kept. unfold process_arrow_detections.
  rewrite !arrow_detections_filter. split.
  - rewrite process_arrow_fold_sources; [done|].
    apply Forall_forall. intros b Hb. by apply list_elem_of_filter in Hb as [? _].
  - do 2 f_equal. simpl. rewrite app_nil_r.
    symmetry. by apply list_filter_filter_r.
Qed.

(** C3, counterexample: a box of class 0 with zero width and zero height is
    not skipped, it yields an arrow link whose tail and tip are one node. *)
Lemma degenerate_box_is_linked :
  let b := Box 0 10 10 10 10 in
  (box_x2 b - box_x1 b = 0)%Z ∧ (box_y2 b - box_y1 b = 0)%Z ∧
  ∃ a, (process_arrow_detections [[b]] [] 0).1.1 = [a]
       ∧ arrow_tail a = arrow_tip a.
Proof.
  do 2 (split; [reflexivity|]). eexists. split; reflexivity.
Qed.

(** ** Connection pool: snapping *)

Lemma Qltb_true a b : Qltb a b = true ↔ (a < b)%Q.
Proof.
  unfold Qltb. destruct (Qlt_le_dec a b) as [H|H]; split; try done.
  intros H'. exfalso. lra.
Qed.

Lemma Qltb_false a b : Qltb a b = false ↔ (b <= a)%Q.
Proof.
  unfold Qltb. destruct (Qlt_le_dec a b) as [H|H]; split; try done.
  intros H'. exfalso. lra.
Qed.

Lemma Qltb_Rlt a b : Qltb a b = true ↔ (Q2R a < Q2R b)%R.
Proof.
  rewrite Qltb_true. split; [apply Qlt_Rlt | apply Rlt_Qlt].
Qed.

Lemma Q2R_nonneg q : (0 <= q)%Q → (0 <= Q2R q)%R.
Proof. intros H. apply Qle_Rle in H. by rewrite RMicromega.Q2R_0 in H. Qed.

(** [distance_ltb] decides the order of the reals the values stand for. *)
Lemma distance_ltb_real a b :
  distance_wf a → distance_wf b →
  distance_ltb a b = true ↔ (distance_value a < distance_value b)%R.
Proof.
  destruct a as [s|s], b as [t|t]; simpl; intros Ha Hb.
  - apply Qltb_Rlt.
  - rewrite orb_true_iff, !Qltb_Rlt, Q2R_mult, RMicromega.Q2R_0.
    apply Q2R_nonneg in Hb.
    pose proof (sqrt_pos (Q2R t)) as Hpos.
    pose proof (sqrt_sqrt (Q2R t) Hb) as Hsq.
    split.
    + intros [Hneg|Hlt]; [lra|].
      destruct (Rlt_le_dec (Q2R s) 0) as [?|Hs]; [lra|]. nra.
    + intros Hlt. destruct (Rlt_le_dec (Q2R s) 0) as [?|Hs]; [by left|].
      right. nra.
  - rewrite andb_true_iff, !Qltb_Rlt, Q2R_mult, RMicromega.Q2R_0.
    apply Q2R_nonneg in Ha.
    pose proof (sqrt_pos (Q2R s)) as Hpos.
    pose proof (sqrt_sqrt (Q2R s) Ha) as Hsq.
    split.
    + intros [Ht Hlt]. nra.
    + intros Hlt. split; [lra|]. nra.
  - rewrite Qltb_Rlt. apply Q2R_nonneg in Ha, Hb. split.
    + by apply sqrt_lt_1.
    + by apply sqrt_lt_0.
Qed.

Lemma hypot_wf dx dy : distance_wf (hypot dx dy).
Proof. simpl. nra. Qed.

Lemma conn_distance_value candidate c :
  distance_value (conn_distance candidate c)
  = euclidean candidate (conn_point c).
Proof.
  unfold conn_distance, hypot, distance_value, euclidean, Rsqr.
  by rewrite Q2R_plus, !Q2R_mult.
Qed.

(** [within] and [closer] are statements about Euclidean distances. *)
Lemma within_euclidean candidate threshold c :
  within candidate threshold c ↔
  (euclidean candidate (conn_point c) < Q2R threshold)%R.
Proof.
  unfold within. rewrite <- conn_distance_value.
  apply (distance_ltb_real _ (Threshold threshold)); [apply hypot_wf|done].
Qed.

Lemma closer_euclidean candidate c1 c2 :
  closer candidate c1 c2 ↔
  (euclidean candidate (conn_point c1) < euclidean candidate (conn_point c2))%R.
Proof.
  unfold closer. rewrite <- !conn_distance_value.
  apply distance_ltb_real; apply hypot_wf.
Qed.

Lemma within_spec candidate threshold c sq :
  conn_distance candidate c = Hypot sq →
  within candidate threshold c ↔ (0 < threshold ∧ sq < threshold * threshold)%Q.
Proof.
  intros Hd. unfold within. rewrite Hd. simpl.
  by rewrite andb_true_iff, !Qltb_true.
Qed.

Lemma closer_spec candidate c1 c2 :
  closer candidate c1 c2 ↔
  ∃ s1 s2, conn_distance candidate c1 = Hypot s1 ∧
           conn_distance candidate c2 = Hypot s2 ∧ (s1 < s2)%Q.
Proof.
  unfold closer, conn_distance, hypot. simpl. rewrite Qltb_true.
  split; [intros H; by eexists _, _ | by intros (? & ? & [= <-] & [= <-] & ?)].
Qed.

Lemma conn_distance_Hypot candidate c :
  ∃ sq, conn_distance candidate c = Hypot sq.
Proof. by eexists. Qed.

(** Either order of two nodes is decided by their squares. *)
Lemma not_closer_spec candidate c1 c2 :
  ¬ closer candidate c1 c2 ↔
  ∃ s1 s2, conn_distance candidate c1 = Hypot s1 ∧
           conn_distance candidate c2 = Hypot s2 ∧ (s2 <= s1)%Q.
Proof.
  unfold closer, conn_distance, hypot. simpl.
  rewrite not_true_iff_false, Qltb_false.
  split; [intros H; by eexists _, _ | by intros (? & ? & [= <-] & [= <-] & ?)].
Qed.

Lemma scanned_step candidate threshold pool acc c :
  scanned candidate threshold pool acc →
  scanned candidate threshold (pool ++ [c]) (nearest_step candidate acc c).
Proof.
  destruct acc as [[best|] best_dist]; unfold nearest_step, scanned at 1.
  - intros (-> & Hw & l1 & l2 & -> & H1 & H2).
    destruct (distance_ltb (conn_distance candidate c)
                           (conn_distance candidate best)) eqn:E;
      unfold scanned.
    + (* [c] is strictly closer than the best so far *)
      fold (closer candidate c best) in E.
      apply closer_spec in E as (sc & sb & Hc & Hb & Hlt).
      split; [done|]. split.
      { apply (within_spec _ _ _ _ Hb) in Hw.
        apply (within_spec _ _ _ _ Hc). lra. }
      exists (l1 ++ best :: l2), []. split; [done|]. split.
      * intros e He. apply closer_spec.
        apply elem_of_app in He as [He|He].
        -- apply H1, closer_spec in He as (s1 & s2 & Hb' & He' & ?).
           rewrite Hb in Hb'. injection Hb' as <-.
           exists sc, s2. split_and!; [done..|lra].
        -- apply elem_of_cons in He as [->|He].
           ++ by exists sc, sb.
           ++ apply H2, not_closer_spec in He as (s1 & s2 & He' & Hb' & ?).
              rewrite Hb in Hb'. injection Hb' as <-.
              exists sc, s1. split_and!; [done..|lra].
      * intros e He. by apply elem_of_nil in He.
    + split; [done|]. split; [done|].
      exists l1, (l2 ++ [c]). split; [by rewrite <- app_assoc|].
      split; [done|]. intros e He.
      apply elem_of_app in He as [He|He]; [by apply H2|].
      apply list_elem_of_singleton in He as ->.
      unfold closer. by rewrite E.
  - intros [-> Hnone].
    destruct (distance_ltb (conn_distance candidate c) (Threshold threshold))
      eqn:E; unfold scanned.
    + fold (within candidate threshold c) in E.
      split; [done|]. split; [done|].
      exists pool, []. split; [done|]. split.
      * intros e He. apply closer_spec.
        destruct (conn_distance_Hypot candidate c) as [sc Hc].
        destruct (conn_distance_Hypot candidate e) as [se Hse].
        exists sc, se. split_and!; [done..|].
        apply (within_spec _ _ _ _ Hc) in E.
        specialize (Hnone e He). rewrite (within_spec _ _ _ _ Hse) in Hnone.
        destruct (Qlt_le_dec sc se); [done|]. exfalso. apply Hnone. lra.
      * intros e He. by apply elem_of_nil in He.
    + split; [done|]. intros e He.
      apply elem_of_app in He as [He|He]; [by apply Hnone|].
      apply list_elem_of_singleton in He as ->.
      unfold within. by rewrite E.
Qed.

Lemma nearest_scan_scanned candidate threshold pool :
  scanned candidate threshold pool (nearest_scan candidate pool threshold).
Proof.
  unfold nearest_scan.
  induction pool as [|c pool IH] using rev_ind; simpl.
  - split; [done|]. intros c Hc. by apply elem_of_nil in Hc.
  - rewrite fold_left_app. simpl. by apply scanned_step.
Qed.

Lemma closer_asymm candidate c1 c2 :
  closer candidate c1 c2 → ¬ closer candidate c2 c1.
Proof.
  intros (s1 & s2 & H1 & H2 & Hlt)%closer_spec.
  apply not_closer_spec. exists s2, s1. split_and!; [done..|lra].
Qed.

(** The two outcomes of a call, in the vocabulary of the scan. *)
Lemma find_nearest_connection_scan candidate pool threshold counter :
  (∃ l1 best l2,
      pool = l1 ++ best :: l2 ∧
      find_nearest_connection candidate pool threshold counter
      = (best, pool, counter) ∧
      within candidate threshold best ∧
      (∀ c, c ∈ pool → ¬ closer candidate c best) ∧
      (∀ c, c ∈ l1 → closer candidate best c))
  ∨
  ((∀ c, c ∈ pool → ¬ within candidate threshold c) ∧
   find_nearest_connection candidate pool threshold counter
   = (Conn counter candidate "arrow" None None,
      pool ++ [Conn counter candidate "arrow" None None], (counter + 1)%Z)).
Proof.
  pose proof (nearest_scan_scanned candidate threshold pool) as Hs.
  unfold find_nearest_connection.
  destruct (nearest_scan candidate pool threshold) as [[best|] best_dist];
    simpl in *.
  - left. destruct Hs as (_ & Hw & l1 & l2 & -> & H1 & H2).
    exists l1, best, l2. split_and!; try done.
    intros c Hc. apply elem_of_app in Hc as [Hc|Hc].
    + by apply closer_asymm, H1.
    + apply elem_of_cons in Hc as [->|Hc]; [|by apply H2].
      apply not_closer_spec.
      destruct (conn_distance_Hypot candidate best) as [sq Hsq].
      exists sq, sq. split_and!; [done..|lra].
  - right. by destruct Hs as [_ Hnone].
Qed.

(** Over exact distances, as the pipeline is stated,
    [find_nearest_connection] either snaps or creates.  When some pool node
    lies at a Euclidean distance strictly below the threshold, it returns
    the pool node at minimum distance, the first one in insertion order
    when several are at that distance, and leaves pool and counter as they
    were.  Otherwise (also for the empty pool) it appends exactly one new
    node of type ['arrow'] located at the candidate point and returns it.
    [find_nearest_connection_computed_distance] is the statement over the
    doubles the interpreter compares. *)
Lemma find_nearest_connection_exact candidate pool threshold counter :
  (∃ l1 best l2,
      pool = l1 ++ best :: l2 ∧
      find_nearest_connection candidate pool threshold counter
      = (best, pool, counter) ∧
      (euclidean candidate (conn_point best) < Q2R threshold)%R ∧
      (∀ c, c ∈ pool →
            (euclidean candidate (conn_point best)
             <= euclidean candidate (conn_point c))%R) ∧
      (∀ c, c ∈ l1 →
            (euclidean candidate (conn_point best)
             < euclidean candidate (conn_point c))%R))
  ∨
  ((∀ c, c ∈ pool →
         (Q2R threshold <= euclidean candidate (conn_point c))%R) ∧
   let best := Conn counter candidate "arrow" None None in
   find_nearest_connection candidate pool threshold counter
   = (best, pool ++ [best], (counter + 1)%Z)).
Proof.
  destruct (find_nearest_connection_scan candidate pool threshold counter)
    as [(l1 & best & l2 & Hpool & Hrun & Hw & Hmin & Hfirst)|[Hnone Hrun]].
  - left. exists l1, best, l2. split_and!; try done.
    + by apply within_euclidean.
    + intros c Hc. apply Rnot_lt_le. intros Hlt.
      by apply closer_euclidean, Hmin in Hlt.
    + intros c Hc. by apply closer_euclidean, Hfirst.
  - right. split; [|done].
    intros c Hc. apply Rnot_lt_le. intros Hlt.
    by apply within_euclidean, Hnone in Hlt.
Qed.



(** A node located at the candidate point is within any positive
    threshold. *)
Lemma within_same_point candidate threshold c :
  (0 < threshold)%Q → conn_point c = candidate →
  within candidate threshold c.
Proof.
  intros Ht <-. unfold within, conn_distance, hypot, distance_ltb.
  rewrite andb_true_iff, !Qltb_true. split; [done|].
  destruct (conn_point c) as [x y]; simpl. nra.
Qed.




(** ** Chain collapser: the adjacency relation *)

Lemma graph_add_lookup graph a u :
  graph_add graph a !!! u
  = graph !!! u ++ (if decide (tail_id a = u) then [tip_id a] else []).
Proof.
  unfold graph_add, tail_id, tip_id. case_decide as Hu.
  - subst u. by rewrite lookup_total_insert_eq.
  - rewrite lookup_total_insert_ne by done. by rewrite app_nil_r.
Qed.

Lemma fold_graph_add_lookup arrows graph u :
  fold_left graph_add arrows graph !!! u
  = graph !!! u ++ map tip_id (filter (fun a => tail_id a = u) arrows).
Proof.
  revert graph. induction arrows as [|a arrows IH]; intros graph; simpl.
  - by rewrite app_nil_r.
  - rewrite IH, graph_add_lookup, filter_cons.
    case_decide; simpl; by rewrite <- app_assoc.
Qed.

(** [graph[u]] lists the tips of the arrows whose tail is [u], in order. *)
Lemma build_graph_lookup arrows u :
  build_graph arrows !!! u
  = map tip_id (filter (fun a => tail_id a = u) arrows).
Proof.
  unfold build_graph. rewrite fold_graph_add_lookup.
  by rewrite lookup_total_empty.
Qed.

(** ** Chain collapser: termination *)

Lemma unexpanded_split arrows (visited : gset Z) u :
  u ∉ visited →
  (length (filter (fun a => tail_id a ∉ {[u]} ∪ visited) arrows)
   + length (filter (fun a => tail_id a = u) arrows)
   = length (filter (fun a => tail_id a ∉ visited) arrows))%nat.
Proof.
  intros Hu. induction arrows as [|a arrows IH]; [done|].
  rewrite !filter_cons.
  destruct (decide (tail_id a = u)) as [->|Hne].
  - rewrite decide_False; [|rewrite elem_of_union, elem_of_singleton; tauto].
    rewrite decide_True by done. simpl. lia.
  - destruct (decide (tail_id a ∈ visited)) as [Hin|Hnin].
    + rewrite decide_False; [|rewrite elem_of_union; tauto].
      rewrite decide_False by tauto. done.
    + rewrite decide_True; [|rewrite elem_of_union, elem_of_singleton; tauto].
      rewrite decide_True by done. simpl. lia.
Qed.

Lemma bfs_step_potential arrows pool start_id start_shape st st' :
  bfs_step (build_graph arrows) pool start_id start_shape st = Some st' →
  (bfs_potential arrows st' < bfs_potential arrows st)%nat.
Proof.
  unfold bfs_step, bfs_potential.
  destruct st as [[|current_id queue] visited final_edges]; simpl; [done|].
  case_decide as Hv; intros [= <-]; simpl; [lia|].
  rewrite length_app. rewrite <- (unexpanded_split arrows visited current_id Hv).
  pose proof (length_filter (fun neighbor => neighbor ∉ {[current_id]} ∪ visited)
                (build_graph arrows !!! current_id)) as Hle.
  rewrite build_graph_lookup in Hle |- *. rewrite length_map in Hle. lia.
Qed.

Lemma bfs_loop_terminates arrows pool start_id start_shape fuel st :
  (bfs_potential arrows st < fuel)%nat →
  ∃ st', bfs_loop fuel (build_graph arrows) pool start_id start_shape st
         = Some st' ∧ bfs_queue st' = [].
Proof.
  revert st. induction fuel as [|fuel IH]; intros st Hlt; [lia|]. simpl.
  destruct (bfs_step _ _ _ _ st) as [st1|] eqn:E.
  - apply IH. apply bfs_step_potential in E. lia.
  - exists st. split; [done|].
    unfold bfs_step in E. destruct (bfs_queue st); [done|].
    by case_decide.
Qed.

Lemma bfs_init_potential arrows start_id final_edges :
  (bfs_potential arrows (bfs_init start_id final_edges) ≤ S (length arrows))%nat.
Proof.
  unfold bfs_potential, bfs_init. simpl. apply le_n_S, length_filter.
Qed.

(** More fuel does not change a result. *)
Lemma bfs_loop_fuel_mono graph pool start_id start_shape fuel fuel' st r :
  bfs_loop fuel graph pool start_id start_shape st = Some r →
  (fuel ≤ fuel')%nat →
  bfs_loop fuel' graph pool start_id start_shape st = Some r.
Proof.
  revert fuel' st. induction fuel as [|fuel IH]; intros fuel' st; [done|].
  intros H Hle. destruct fuel' as [|fuel']; [lia|]. simpl in *.
  destruct (bfs_step graph pool start_id start_shape st); [|done].
  apply IH; [done|lia].
Qed.

(** ** Chain collapser: every id is expanded once *)

Lemma bfs_expanded_fresh fuel graph pool start_id start_shape st :
  NoDup (bfs_expanded fuel graph pool start_id start_shape st) ∧
  ∀ u, u ∈ bfs_expanded fuel graph pool start_id start_shape st →
       u ∉ bfs_visited st.
Proof.
  revert st. induction fuel as [|fuel IH]; intros st; simpl.
  - split; [constructor|]. intros u Hu. by apply elem_of_nil in Hu.
  - destruct st as [[|current_id queue] visited final_edges]; simpl.
    { split; [constructor|]. intros u Hu. by apply elem_of_nil in Hu. }
    unfold bfs_step. simpl. case_decide as Hv; simpl.
    + apply (IH (BfsState queue visited final_edges)).
    + match goal with
      | |- context [bfs_expanded fuel _ _ _ _ ?s] =>
          destruct (IH s) as [Hnd Hfresh]
      end. simpl in Hfresh. split.
      * constructor; [|done]. intros Hin. apply Hfresh in Hin.
        apply Hin, elem_of_union_l. by apply elem_of_singleton.
      * intros u Hu. apply elem_of_cons in Hu as [->|Hu]; [done|].
        apply Hfresh in Hu. intros Hin. by apply Hu, elem_of_union_r.
Qed.

(** ** Chain collapser: the traversal computes reachability *)

Lemma elem_of_build_graph arrows u v :
  v ∈ build_graph arrows !!! u ↔ link arrows u v.
Proof.
  rewrite build_graph_lookup, list_elem_of_fmap. unfold link. split.
  - intros (a & -> & Ha). apply list_elem_of_filter in Ha as [? ?]. eauto.
  - intros (a & Ha & Ht & <-). exists a. split; [done|].
    by apply list_elem_of_filter.
Qed.

Lemma bfs_init_inv arrows pool start_id start_shape edges0 :
  bfs_inv arrows pool start_id start_shape edges0 (bfs_init start_id edges0).
Proof.
  split; simpl.
  - intros u [Hu|Hu]; [|by apply elem_of_empty in Hu].
    apply list_elem_of_singleton in Hu as ->. apply rtc_refl.
  - right. by apply list_elem_of_singleton.
  - intros u v Hu. by apply elem_of_empty in Hu.
  - intros e. split; [by left|].
    intros [?|(t & Ht & _)]; [done|]. by apply elem_of_empty in Ht.
Qed.

(** The edge set after the [if current_id != start_id:] block. *)
Lemma bfs_step_edges (pool : list conn) (start_id : Z)
    (start_shape : option Z) (current_id : Z) (final_edges : gset edge)
    (e : edge) :
  e ∈ (if decide (current_id ≠ start_id) then
         match get_node_by_id current_id pool with
         | Some node =>
             if decide (conn_type node = "shape")
             then {[(start_shape, conn_shape_id node)]} ∪ final_edges
             else final_edges
         | None => final_edges
         end
       else final_edges)
  ↔ e ∈ final_edges ∨ reached_edge pool start_id start_shape current_id e.
Proof.
  unfold reached_edge. case_decide as Hne.
  - destruct (get_node_by_id current_id pool) as [node|].
    + case_decide as Ht.
      * rewrite elem_of_union, elem_of_singleton. split.
        -- intros [->|?]; [right|by left]. split; [done|]. by exists node.
        -- intros [?|(_ & node' & [= <-] & _ & ->)]; [by right|by left].
      * split; [by left|].
        intros [?|(_ & node' & [= <-] & ? & _)]; done.
    + split; [by left|]. intros [?|(_ & node' & [=] & _)]; done.
  - split; [by left|]. intros [?|[? _]]; done.
Qed.

Lemma bfs_step_inv arrows pool start_id start_shape edges0 st st' :
  bfs_inv arrows pool start_id start_shape edges0 st →
  bfs_step (build_graph arrows) pool start_id start_shape st = Some st' →
  bfs_inv arrows pool start_id start_shape edges0 st'.
Proof.
  intros [Hreach Hstart Hclosed Hedges]. unfold bfs_step.
  destruct st as [[|current_id queue] visited final_edges]; simpl in *;
    [done|].
  case_decide as Hv; intros [= <-]; split; simpl.
  - intros u [Hu|Hu]; apply Hreach; [left; by apply elem_of_cons; right|by right].
  - destruct Hstart as [?|Hs]; [by left|].
    apply elem_of_cons in Hs as [->|?]; [by left|by right].
  - intros u v Hu Hl. destruct (Hclosed u v Hu Hl) as [?|Hq]; [by left|].
    apply elem_of_cons in Hq as [->|?]; [by left|by right].
  - done.
  - intros u [Hu|Hu].
    + apply elem_of_app in Hu as [Hu|Hu].
      * apply Hreach. left. apply elem_of_cons. by right.
      * apply list_elem_of_filter in Hu as [_ Hu].
        apply elem_of_build_graph in Hu.
        eapply rtc_r; [|exact Hu]. apply Hreach. left. apply elem_of_cons.
        by left.
    + apply elem_of_union in Hu as [Hu|Hu].
      * apply elem_of_singleton in Hu as ->. apply Hreach. left.
        apply elem_of_cons. by left.
      * apply Hreach. by right.
  - destruct Hstart as [?|Hs]; [left; by apply elem_of_union_r|].
    apply elem_of_cons in Hs as [->|?].
    + left. by apply elem_of_union_l, elem_of_singleton.
    + right. apply elem_of_app. by left.
  - intros u v Hu Hl.
    destruct (decide (v ∈ {[current_id]} ∪ visited)) as [?|Hnv]; [by left|].
    right. apply elem_of_app.
    apply elem_of_union in Hu as [Hu|Hu].
    + apply elem_of_singleton in Hu as ->. right.
      apply list_elem_of_filter. split; [done|].
      by apply elem_of_build_graph.
    + destruct (Hclosed u v Hu Hl) as [Hin|Hq].
      * exfalso. by apply Hnv, elem_of_union_r.
      * apply elem_of_cons in Hq as [->|?]; [|by left].
        exfalso. by apply Hnv, elem_of_union_l, elem_of_singleton.
  - intros e. rewrite bfs_step_edges, Hedges. split.
    + intros [[?|(t & Ht & He)]|He]; [by left| |].
      * right. exists t. split; [by apply elem_of_union_r|done].
      * right. exists current_id. split; [|done].
        by apply elem_of_union_l, elem_of_singleton.
    + intros [?|(t & Ht & He)]; [by left; left|].
      apply elem_of_union in Ht as [Ht|Ht].
      * apply elem_of_singleton in Ht as ->. by right.
      * left. right. by exists t.
Qed.

Lemma bfs_loop_inv arrows pool start_id start_shape edges0 fuel st st' :
  bfs_inv arrows pool start_id start_shape edges0 st →
  bfs_loop fuel (build_graph arrows) pool start_id start_shape st = Some st' →
  bfs_inv arrows pool start_id start_shape edges0 st' ∧ bfs_queue st' = [].
Proof.
  revert st. induction fuel as [|fuel IH]; intros st Hinv; [done|]. simpl.
  destruct (bfs_step _ _ _ _ st) as [st1|] eqn:E.
  - apply IH. by eapply bfs_step_inv.
  - intros [= <-]. split; [done|].
    unfold bfs_step in E. destruct (bfs_queue st); [done|]. by case_decide.
Qed.

(** When the queue is empty the visited set is the set of reachable ids. *)
Lemma bfs_inv_visited arrows pool start_id start_shape edges0 st u :
  bfs_inv arrows pool start_id start_shape edges0 st →
  bfs_queue st = [] →
  u ∈ bfs_visited st ↔ reach arrows start_id u.
Proof.
  intros [Hreach Hstart Hclosed _] Hq. rewrite Hq in *. split.
  - intros Hu. apply Hreach. by right.
  - intros Hr. assert (start_id ∈ bfs_visited st) as Hs.
    { destruct Hstart as [?|Hs]; [done|]. by apply elem_of_nil in Hs. }
    clear Hstart Hreach. induction Hr as [x|x y z Hxy Hyz IH]; [done|].
    apply IH. destruct (Hclosed x y Hs Hxy) as [?|Hy]; [done|].
    by apply elem_of_nil in Hy.
Qed.

(** ** Chain collapser: the final edge set *)

Lemma collapse_from_spec (arrows : list arrow_conn) (pool : list conn)
    (fuel : nat) (edges0 : gset edge) (c : conn) :
  (S (length arrows) < fuel)%nat →
  ∃ edges1,
    collapse_from fuel (build_graph arrows) pool (Some edges0) c = Some edges1 ∧
    ∀ e, e ∈ edges1 ↔ e ∈ edges0 ∨ seed_edge pool arrows c e.
Proof.
  intros Hfuel. unfold collapse_from, seed_edge. case_decide as Ht.
  - destruct (bfs_loop_terminates arrows pool (conn_id c) (conn_shape_id c)
                fuel (bfs_init (conn_id c) edges0)) as (st & Hloop & Hq).
    { pose proof (bfs_init_potential arrows (conn_id c) edges0). lia. }
    unfold bfs_init in Hloop. rewrite Hloop. simpl.
    exists (bfs_final_edges st). split; [done|].
    destruct (bfs_loop_inv arrows pool (conn_id c) (conn_shape_id c) edges0
                fuel _ st (bfs_init_inv _ _ _ _ _) Hloop) as [Hinv _].
    intros e. rewrite (inv_edges _ _ _ _ _ _ Hinv). split.
    + intros [?|(t & Hv & He)]; [by left|]. right. split; [done|].
      exists t. split; [|done]. by eapply bfs_inv_visited.
    + intros [?|(_ & t & Hr & He)]; [by left|]. right.
      exists t. split; [|done]. by eapply bfs_inv_visited.
  - exists edges0. split; [done|]. intros e. split; [by left|].
    by intros [?|[? _]].
Qed.

Lemma collapse_fold_spec (arrows : list arrow_conn) (pool : list conn)
    (fuel : nat) (seeds : list conn) (edges0 : gset edge) :
  (S (length arrows) < fuel)%nat →
  ∃ edges1,
    fold_left (collapse_from fuel (build_graph arrows) pool) seeds (Some edges0)
    = Some edges1 ∧
    ∀ e, e ∈ edges1 ↔
         e ∈ edges0 ∨ ∃ s, s ∈ seeds ∧ seed_edge pool arrows s e.
Proof.
  intros Hfuel. revert edges0.
  induction seeds as [|c seeds IH]; intros edges0; cbn [fold_left].
  - exists edges0. split; [done|]. intros e. split; [by left|].
    intros [?|(s & Hs & _)]; [done|]. by apply elem_of_nil in Hs.
  - destruct (collapse_from_spec arrows pool fuel edges0 c Hfuel)
      as (edges1 & -> & H1).
    destruct (IH edges1) as (edges2 & -> & H2).
    exists edges2. split; [done|]. intros e. rewrite H2, H1. split.
    + intros [[?|?]|(s & Hs & He)]; [by left| |].
      * right. exists c. split; [by apply elem_of_cons; left|done].
      * right. exists s. split; [by apply elem_of_cons; right|done].
    + intros [?|(s & Hs & He)]; [by left; left|].
      apply elem_of_cons in Hs as [->|Hs]; [by left; right|].
      right. by exists s.
Qed.

(** With enough fuel the set [final_edges] holds exactly the edges owed to
    the seeds of the pool. *)
Lemma collapse_edge_set_spec fuel pool arrows :
  (S (length arrows) < fuel)%nat →
  ∃ edges,
    collapse_edge_set fuel pool arrows = Some edges ∧
    ∀ e, e ∈ edges ↔ ∃ s, s ∈ pool ∧ seed_edge pool arrows s e.
Proof.
  intros Hfuel. unfold collapse_edge_set.
  destruct (collapse_fold_spec arrows pool fuel pool ∅ Hfuel)
    as (edges & -> & H).
  exists edges. split; [done|]. intros e. rewrite H. split.
  - intros [He|?]; [by apply elem_of_empty in He|done].
  - by right.
Qed.

(** The returned list: no repetition, and its members are the edges owed to
    the seeds whose two ends differ. *)
Lemma collapse_arrow_chains_spec fuel pool arrows :
  (S (length arrows) < fuel)%nat →
  ∃ edges,
    collapse_arrow_chains fuel pool arrows = Some edges ∧
    NoDup edges ∧
    ∀ e, e ∈ edges ↔
         e.1 ≠ e.2 ∧ ∃ s, s ∈ pool ∧ seed_edge pool arrows s e.
Proof.
  intros Hfuel. unfold collapse_arrow_chains.
  destruct (collapse_edge_set_spec fuel pool arrows Hfuel) as (set & -> & H).
  simpl. eexists. split; [done|]. split.
  - apply NoDup_filter, NoDup_elements.
  - intros e. rewrite list_elem_of_filter, elem_of_elements, H. done.
Qed.

(** The result does not depend on the fuel once there is enough of it. *)
Lemma collapse_from_fuel_mono graph pool fuel fuel' acc c r :
  collapse_from fuel graph pool acc c = Some r → (fuel ≤ fuel')%nat →
  collapse_from fuel' graph pool acc c = Some r.
Proof.
  unfold collapse_from. destruct acc as [final_edges|]; [|done].
  case_decide; [|done].
  destruct (bfs_loop fuel _ _ _ _ _) as [st|] eqn:E; [|done].
  intros [= <-] Hle. by rewrite (bfs_loop_fuel_mono _ _ _ _ _ _ _ _ E Hle).
Qed.

(** Any two amounts of fuel that suffice give the same list of edges. *)
Lemma collapse_arrow_chains_fuel fuel fuel' pool arrows :
  (S (length arrows) < fuel)%nat → (S (length arrows) < fuel')%nat →
  collapse_arrow_chains fuel pool arrows
  = collapse_arrow_chains fuel' pool arrows.
Proof.
  intros Hfuel Hfuel'. unfold collapse_arrow_chains.
  destruct (collapse_edge_set_spec fuel pool arrows Hfuel) as (set1 & -> & H1).
  destruct (collapse_edge_set_spec fuel' pool arrows Hfuel')
    as (set2 & -> & H2).
  assert (set2 = set1) as ->; [|done].
  apply set_eq. intros e. by rewrite H1, H2.
Qed.

(** C6: with fuel for the traversal, [collapse_arrow_chains] returns a list
    of edges in which no pair occurs twice and no edge has equal ends. *)
Theorem collapse_arrow_chains_no_loops_no_duplicates fuel pool arrows :
  (S (length arrows) < fuel)%nat →
  ∃ edges,
    collapse_arrow_chains fuel pool arrows = Some edges ∧
    NoDup edges ∧
    ∀ from_shape_id to_shape_id,
      (from_shape_id, to_shape_id) ∈ edges → from_shape_id ≠ to_shape_id.
Proof.
  intros Hfuel.
  destruct (collapse_arrow_chains_spec fuel pool arrows Hfuel)
    as (edges & Hrun & Hnd & Hmem).
  exists edges. split; [done|]. split; [done|].
  intros a b Hin. by apply Hmem in Hin as [Hne _].
Qed.

(** C9: started from any seed, on any pool and any arrow links, cyclic or
    not, the traversal stops with an empty queue within [length arrows + 2]
    turns of the loop, no id gets past the visited test twice, and
    [collapse_arrow_chains] returns. *)
Theorem bfs_terminates arrows pool start_id start_shape edges0 fuel :
  (S (length arrows) < fuel)%nat →
  (∃ st, bfs_loop fuel (build_graph arrows) pool start_id start_shape
                  (bfs_init start_id edges0) = Some st
         ∧ bfs_queue st = []) ∧
  NoDup (bfs_expanded fuel (build_graph arrows) pool start_id start_shape
                      (bfs_init start_id edges0)) ∧
  is_Some (collapse_arrow_chains fuel pool arrows).
Proof.
  intros Hfuel. split_and!.
  - apply bfs_loop_terminates.
    pose proof (bfs_init_potential arrows start_id edges0). lia.
  - apply bfs_expanded_fresh.
  - destruct (collapse_arrow_chains_spec fuel pool arrows Hfuel)
      as (edges & -> & _). by eexists.
Qed.

(** ** Pipeline invariants *)

Lemma fold_left_inv {A B} (P : B → Prop) (f : B → A → B) (l : list A) b :
  P b → (∀ b a, a ∈ l → P b → P (f b a)) → P (fold_left f l b).
Proof.
  revert b. induction l as [|a l IH]; intros b Hb Hstep; simpl; [done|].
  apply IH.
  - apply Hstep; [by apply elem_of_cons; left|done].
  - intros b' a' Ha'. apply Hstep. apply elem_of_cons. by right.
Qed.

(** Shape ids are positions: [shape_id = len(shape_positions)]. *)
Lemma draw_shapes_box_ids shape_positions b :
  (∀ k s, shape_positions !! k = Some s → shape_id s = Z.of_nat k) →
  ∀ k s, draw_shapes_box shape_positions b !! k = Some s →
         shape_id s = Z.of_nat k.
Proof.
  intros Hids k s. unfold draw_shapes_box.
  destruct (negb _ && negb _); [|by apply Hids].
  destruct (dict_get SHAPE_MAP (box_cls b) None); [|by apply Hids].
  intros Hk. apply lookup_app_Some in Hk as [Hk|[Hlen Hk]]; [by apply Hids|].
  apply list_lookup_singleton_Some in Hk as [Hk <-]. simpl. lia.
Qed.

Lemma draw_shapes_ids results k s :
  draw_shapes results !! k = Some s → shape_id s = Z.of_nat k.
Proof.
  unfold draw_shapes. rewrite fold_left_concat. revert k s.
  apply (fold_left_inv
           (fun l => ∀ k s, l !! k = Some s → shape_id s = Z.of_nat k)).
  - intros k s Hk. by rewrite lookup_nil in Hk.
  - intros l b _ Hl. by apply draw_shapes_box_ids.
Qed.

Lemma build_connections_pool_shapes shape_positions counter c :
  c ∈ (build_connections_pool shape_positions counter).1 →
  conn_type c = "shape" ∧
  ∃ s, s ∈ shape_positions ∧ conn_shape_id c = Some (shape_id s).
Proof.
  unfold build_connections_pool. revert c.
  apply (fold_left_inv
           (fun acc : list conn * Z =>
              ∀ c, c ∈ acc.1 →
                   conn_type c = "shape" ∧
                   ∃ s, s ∈ shape_positions ∧
                        conn_shape_id c = Some (shape_id s))).
  - intros c Hc. by apply elem_of_nil in Hc.
  - intros acc s Hs Hacc.
    apply (fold_left_inv
             (fun acc : list conn * Z =>
                ∀ c, c ∈ acc.1 →
                     conn_type c = "shape" ∧
                     ∃ s, s ∈ shape_positions ∧
                          conn_shape_id c = Some (shape_id s))); [done|].
    intros [pool ctr] [side pt] _ Hpool c. simpl.
    intros Hc. apply elem_of_app in Hc as [Hc|Hc]; [by apply Hpool|].
    apply list_elem_of_singleton in Hc as ->. simpl. split; [done|].
    by exists s.
Qed.

Lemma build_connections_pool_in_range results counter :
  shape_ids_in_range (length (draw_shapes results))
    (build_connections_pool (draw_shapes results) counter).1.
Proof.
  intros c Hc _.
  apply build_connections_pool_shapes in Hc as (_ & s & Hs & Hid).
  exists (shape_id s). split; [done|].
  apply list_elem_of_lookup in Hs as [k Hk].
  rewrite (draw_shapes_ids _ _ _ Hk).
  apply lookup_lt_Some in Hk. lia.
Qed.

(** The two outcomes of a call, as far as the pool is concerned. *)
Lemma find_nearest_connection_cases candidate pool threshold counter :
  let r := find_nearest_connection candidate pool threshold counter in
  (r.1.1 ∈ pool ∧ r.1.2 = pool ∧ r.2 = counter) ∨
  (r = (Conn counter candidate "arrow" None None,
        pool ++ [Conn counter candidate "arrow" None None],
        (counter + 1)%Z)).
Proof.
  pose proof (nearest_scan_scanned candidate threshold pool) as Hs.
  unfold find_nearest_connection.
  destruct (nearest_scan candidate pool threshold) as [[best|] best_dist];
    simpl in *; [left|by right].
  destruct Hs as (_ & _ & l1 & l2 & -> & _). split; [|done].
  apply elem_of_app. right. apply elem_of_cons. by left.
Qed.

Lemma find_nearest_connection_in_range n candidate pool threshold counter :
  shape_ids_in_range n pool →
  shape_ids_in_range n
    (find_nearest_connection candidate pool threshold counter).1.2.
Proof.
  intros Hpool.
  destruct (find_nearest_connection_cases candidate pool threshold counter)
    as [(_ & -> & _)| ->]; [done|]. simpl.
  intros c Hc Ht. apply elem_of_app in Hc as [Hc|Hc]; [by apply Hpool|].
  apply list_elem_of_singleton in Hc as ->. done.
Qed.

Lemma process_arrow_in_range n acc arrow :
  shape_ids_in_range n acc.1.2 →
  shape_ids_in_range n (process_arrow acc arrow).1.2.
Proof.
  destruct acc as [[arrows pool] counter]. cbn [fst snd]. intros Hpool.
  destruct (arrow_candidates arrow) as [[tl tp]|] eqn:Hc.
  - rewrite (process_arrow_eq _ _ _ _ _ _ Hc). cbv zeta. cbn [fst snd].
    by do 2 apply find_nearest_connection_in_range.
  - unfold process_arrow.
    destruct arrow as [[[[class_id ax1] ay1] ax2] ay2]. by rewrite Hc.
Qed.

Lemma process_arrow_detections_in_range n results pool counter :
  shape_ids_in_range n pool →
  shape_ids_in_range n (process_arrow_detections results pool counter).1.2.
Proof.
  intros Hpool. unfold process_arrow_detections.
  apply (fold_left_inv
           (fun acc : list arrow_conn * list conn * Z =>
              shape_ids_in_range n acc.1.2)); [done|].
  intros acc arrow _. apply process_arrow_in_range.
Qed.

Lemma get_node_by_id_Some node_id pool node :
  get_node_by_id node_id pool = Some node →
  node ∈ pool ∧ conn_id node = node_id.
Proof.
  induction pool as [|c pool IH]; simpl; [done|].
  case_decide as Hid.
  - intros [= <-]. split; [by apply elem_of_cons; left|done].
  - intros H. destruct (IH H) as [? ?]. split; [|done].
    apply elem_of_cons. by right.
Qed.

(** The edges owed to a seed join shape ids of the pool. *)
Lemma seed_edge_in_range n pool arrows s e :
  shape_ids_in_range n pool → s ∈ pool → seed_edge pool arrows s e →
  edge_in_range n e.
Proof.
  intros Hpool Hs (Hts & t & _ & _ & node & Hget & Htn & ->).
  apply get_node_by_id_Some in Hget as [Hn _].
  destruct (Hpool s Hs Hts) as (i & Hi & ?).
  destruct (Hpool node Hn Htn) as (j & Hj & ?).
  exists i, j. by rewrite Hi, Hj.
Qed.

(** The pool that [reconstruct] hands to the chain collapser. *)
Lemma reconstruct_in_range results counter :
  shape_ids_in_range (length (reconstruct results counter).1.1.1)
                     (reconstruct results counter).1.1.2.
Proof.
  unfold reconstruct.
  pose proof (build_connections_pool_in_range results counter) as Hpool.
  destruct (build_connections_pool (draw_shapes results) counter)
    as [pool counter1]; simpl in Hpool.
  pose proof (process_arrow_detections_in_range _ results pool counter1 Hpool)
    as Hpool'.
  by destruct (process_arrow_detections results pool counter1)
    as [[arrows pool2] counter2].
Qed.

(** ** Serializer: the NxN matrix *)

Lemma py_index_in_range n i :
  (0 ≤ i < Z.of_nat n)%Z → py_index n i = Some (Z.to_nat i).
Proof. intros H. unfold py_index. by rewrite decide_True. Qed.

Lemma matrix_set_spec n matrix i j :
  square n matrix → (0 ≤ i < Z.of_nat n)%Z → (0 ≤ j < Z.of_nat n)%Z →
  ∃ matrix',
    matrix_set matrix (Some i, Some j) = Some matrix' ∧
    square n matrix' ∧
    ∀ a b, entry matrix' a b
           = if decide (a = Z.to_nat i ∧ b = Z.to_nat j) then Some 1%Z
             else entry matrix a b.
Proof.
  intros [Hlen Hrows] Hi Hj. unfold matrix_set.
  rewrite Hlen, (py_index_in_range n i Hi). simpl.
  destruct (lookup_lt_is_Some_2 matrix (Z.to_nat i)) as [row Hrow]; [lia|].
  rewrite Hrow. simpl.
  assert (length row = n) as Hrl.
  { apply Hrows. apply list_elem_of_lookup. by exists (Z.to_nat i). }
  rewrite Hrl, (py_index_in_range n j Hj). simpl.
  eexists. split; [done|]. split.
  - split; [by rewrite length_insert|].
    intros row' Hin. apply list_elem_of_lookup in Hin as [a Ha].
    destruct (decide (a = Z.to_nat i)) as [->|Hne].
    + rewrite list_lookup_insert_eq in Ha by lia.
      injection Ha as <-. by rewrite length_insert.
    + rewrite list_lookup_insert_ne in Ha by done.
      apply Hrows. apply list_elem_of_lookup. by exists a.
  - intros a b. unfold entry.
    destruct (decide (a = Z.to_nat i)) as [->|Hne].
    + rewrite list_lookup_insert_eq by lia. rewrite Hrow. simpl.
      destruct (decide (b = Z.to_nat j)) as [->|Hnb].
      * rewrite decide_True by done. apply list_lookup_insert_eq. lia.
      * rewrite decide_False by tauto. by apply list_lookup_insert_ne.
    + rewrite list_lookup_insert_ne by done. by rewrite decide_False by tauto.
Qed.

Lemma matrix_fill_spec n edges matrix :
  square n matrix → (∀ e, e ∈ edges → edge_in_range n e) →
  ∃ matrix',
    matrix_fill matrix edges = Some matrix' ∧
    square n matrix' ∧
    ∀ a b, entry matrix' a b
           = if decide ((Some (Z.of_nat a), Some (Z.of_nat b)) ∈ edges)
             then Some 1%Z else entry matrix a b.
Proof.
  revert matrix. induction edges as [|e edges IH]; intros matrix Hsq Hall.
  - exists matrix. split; [done|]. split; [done|]. intros a b.
    rewrite decide_False; [done|]. apply not_elem_of_nil.
  - destruct (Hall e) as (i & j & -> & Hi & Hj); [by apply elem_of_cons; left|].
    destruct (matrix_set_spec n matrix i j Hsq Hi Hj) as (m1 & Hset & Hsq1 & H1).
    destruct (IH m1 Hsq1) as (m2 & Hfill & Hsq2 & H2).
    { intros e He. apply Hall. apply elem_of_cons. by right. }
    exists m2. cbn [matrix_fill]. rewrite Hset. simpl.
    split; [done|]. split; [done|].
    intros a b. rewrite H2, H1.
    destruct (decide ((Some (Z.of_nat a), Some (Z.of_nat b)) ∈ edges))
      as [Hin|Hnin].
    + rewrite decide_True; [done|]. apply elem_of_cons. by right.
    + destruct (decide (a = Z.to_nat i ∧ b = Z.to_nat j)) as [[-> ->]|Hne].
      * rewrite decide_True; [done|]. apply elem_of_cons. left.
        f_equal; f_equal; lia.
      * rewrite decide_False; [done|]. intros Hin.
        apply elem_of_cons in Hin as [[= <- <-]|?]; [|done].
        apply Hne. lia.
Qed.

Lemma zero_matrix_square n : square n (replicate n (replicate n 0%Z)).
Proof.
  split; [by rewrite length_replicate|].
  intros row Hrow. apply elem_of_replicate in Hrow as [-> _].
  by rewrite length_replicate.
Qed.

Lemma zero_matrix_entry n a b :
  (a < n)%nat → (b < n)%nat →
  entry (replicate n (replicate n 0%Z)) a b = Some 0%Z.
Proof.
  intros Ha Hb. unfold entry. rewrite lookup_replicate_2 by done. simpl.
  by rewrite lookup_replicate_2.
Qed.

(** On edges between shape ids [build_nxn_matrix] succeeds, and the matrix
    holds a 1 exactly at the edges. *)
Lemma build_nxn_matrix_spec shape_positions edges :
  (∀ e, e ∈ edges → edge_in_range (length shape_positions) e) →
  ∃ matrix shape_mapping,
    build_nxn_matrix shape_positions edges = Some (matrix, shape_mapping) ∧
    square (length shape_positions) matrix ∧
    (∀ a b, (a < length shape_positions)%nat →
            (b < length shape_positions)%nat →
            entry matrix a b
            = Some (if decide ((Some (Z.of_nat a), Some (Z.of_nat b)) ∈ edges)
                    then 1%Z else 0%Z)) ∧
    mapping_id <$> shape_mapping = shape_id <$> shape_positions.
Proof.
  intros Hall. unfold build_nxn_matrix.
  destruct (matrix_fill_spec (length shape_positions) edges
              (replicate (length shape_positions)
                         (replicate (length shape_positions) 0%Z))
              (zero_matrix_square _) Hall) as (matrix & -> & Hsq & Hentry).
  simpl. eexists _, _. split; [done|]. split; [done|]. split.
  - intros a b Ha Hb. rewrite Hentry. case_decide; [done|].
    by apply zero_matrix_entry.
  - exact (map_map _ mapping_id shape_positions).
Qed.

(** The edges computed on the pool of [reconstruct] join shape ids. *)
Lemma reconstruct_edges_in_range results counter fuel shapes pool arrows
    counter' :
  reconstruct results counter = (shapes, pool, arrows, counter') →
  (S (length arrows) < fuel)%nat →
  ∃ edges,
    collapse_arrow_chains fuel pool arrows = Some edges ∧
    ∀ e, e ∈ edges → edge_in_range (length shapes) e.
Proof.
  intros Hrec Hfuel.
  pose proof (reconstruct_in_range results counter) as Hpool.
  rewrite Hrec in Hpool. simpl in Hpool.
  destruct (collapse_arrow_chains_spec fuel pool arrows Hfuel)
    as (edges & Hrun & _ & Hmem).
  exists edges. split; [done|].
  intros e He. apply Hmem in He as (_ & s & Hs & Hseed).
  by eapply seed_edge_in_range.
Qed.

(** C10: on the pool and arrow links that the pipeline builds from any
    detections, every edge (i, j) returned by [collapse_arrow_chains] has
    0 <= i < N and 0 <= j < N for the N shapes, and [build_nxn_matrix]
    performs all its assignments [matrix[i][j] = 1] without an index
    error. *)
Theorem final_edges_index_the_matrix results counter fuel shapes pool arrows
    counter' :
  reconstruct results counter = (shapes, pool, arrows, counter') →
  (S (length arrows) < fuel)%nat →
  ∃ edges,
    collapse_arrow_chains fuel pool arrows = Some edges ∧
    (∀ i j, (i, j) ∈ edges →
            ∃ i' j', i = Some i' ∧ j = Some j' ∧
                     (0 ≤ i' < Z.of_nat (length shapes))%Z ∧
                     (0 ≤ j' < Z.of_nat (length shapes))%Z) ∧
    is_Some (build_nxn_matrix shapes edges).
Proof.
  intros Hrec Hfuel.
  destruct (reconstruct_edges_in_range _ _ _ _ _ _ _ Hrec Hfuel)
    as (edges & Hrun & Hrange).
  exists edges. split; [done|]. split.
  - intros i j Hin. destruct (Hrange _ Hin) as (i' & j' & [= -> ->] & ? & ?).
    by exists i', j'.
  - destruct (build_nxn_matrix_spec shapes edges Hrange) as (m & sm & -> & _).
    by eexists.
Qed.

(** C5: for the shapes and the final edges of a pipeline run, the matrix of
    [build_nxn_matrix] has N rows of N entries, each 0 or 1, with
    [matrix[i][j] = 1] exactly when (i, j) is a final edge; the k-th shape
    and the k-th entry of the shape mapping both carry the id k, so rows
    and columns are addressed by shape id. *)
Theorem matrix_edge_equivalence results counter fuel shapes pool arrows
    counter' :
  reconstruct results counter = (shapes, pool, arrows, counter') →
  (S (length arrows) < fuel)%nat →
  ∃ edges matrix shape_mapping,
    collapse_arrow_chains fuel pool arrows = Some edges ∧
    build_nxn_matrix shapes edges = Some (matrix, shape_mapping) ∧
    square (length shapes) matrix ∧
    (∀ i j, (i < length shapes)%nat → (j < length shapes)%nat →
            ∃ x, entry matrix i j = Some x ∧ (x = 0 ∨ x = 1)%Z ∧
                 (x = 1%Z ↔ (Some (Z.of_nat i), Some (Z.of_nat j)) ∈ edges)) ∧
    (∀ k, (k < length shapes)%nat →
          shape_id <$> shapes !! k = Some (Z.of_nat k) ∧
          mapping_id <$> shape_mapping !! k = Some (Z.of_nat k)).
Proof.
  intros Hrec Hfuel.
  destruct (reconstruct_edges_in_range _ _ _ _ _ _ _ Hrec Hfuel)
    as (edges & Hrun & Hrange).
  destruct (build_nxn_matrix_spec shapes edges Hrange)
    as (matrix & shape_mapping & Hbuild & Hsq & Hentry & Hmap).
  exists edges, matrix, shape_mapping. split_and!; try done.
  - intros i j Hi Hj. rewrite (Hentry i j Hi Hj).
    eexists. split; [done|]. case_decide as Hin.
    + split; [by right|]. by split.
    + split; [by left|]. split; [lia|done].
  - intros k Hk.
    assert (shapes = draw_shapes results) as ->.
    { unfold reconstruct in Hrec.
      destruct (build_connections_pool _ _) as [p c] in Hrec.
      destruct (process_arrow_detections _ _ _) as [[a p'] c'] in Hrec.
      by injection Hrec as <- _ _ _. }
    destruct (lookup_lt_is_Some_2 _ _ Hk) as [s Hs].
    assert (shape_id <$> draw_shapes results !! k = Some (Z.of_nat k)) as Hid.
    { rewrite Hs. simpl. f_equal. by eapply draw_shapes_ids. }
    split; [done|].
    rewrite <- list_lookup_fmap. rewrite <- list_lookup_fmap in Hid.
    by rewrite Hmap.
Qed.

(** ** Chain collapser: chains of arrows become edges *)

Lemma get_node_by_id_NoDup pool c :
  NoDup (conn_id <$> pool) → c ∈ pool →
  get_node_by_id (conn_id c) pool = Some c.
Proof.
  induction pool as [|c' pool IH]; intros Hnd Hc.
  - by apply elem_of_nil in Hc.
  - rewrite fmap_cons in Hnd. apply NoDup_cons in Hnd as [Hnin Hnd].
    simpl. apply elem_of_cons in Hc as [->|Hc].
    + by rewrite decide_True.
    + rewrite decide_False; [by apply IH|].
      intros Heq. apply Hnin. rewrite Heq.
      apply list_elem_of_fmap. by exists c.
Qed.

(** Every shape anchor reachable from a shape anchor of another shape
    yields an edge, whatever nodes the chain passes through. *)
Lemma collapse_arrow_chains_complete fuel pool arrows a b :
  (S (length arrows) < fuel)%nat → NoDup (conn_id <$> pool) →
  a ∈ pool → b ∈ pool → conn_type a = "shape" → conn_type b = "shape" →
  conn_shape_id a ≠ conn_shape_id b →
  reach arrows (conn_id a) (conn_id b) →
  ∃ edges, collapse_arrow_chains fuel pool arrows = Some edges ∧
           (conn_shape_id a, conn_shape_id b) ∈ edges.
Proof.
  intros Hfuel Hnd Ha Hb Hta Htb Hne Hreach.
  destruct (collapse_arrow_chains_spec fuel pool arrows Hfuel)
    as (edges & Hrun & _ & Hmem).
  exists edges. split; [done|]. apply Hmem. split; [done|].
  exists a. split; [done|]. split; [done|].
  exists (conn_id b). split; [done|].
  pose proof (get_node_by_id_NoDup pool a Hnd Ha) as Hga.
  pose proof (get_node_by_id_NoDup pool b Hnd Hb) as Hgb.
  split; [|by exists b].
  intros Heq. rewrite Heq, Hga in Hgb. by injection Hgb as ->.
Qed.

(** C1: on a pool with distinct node ids, if one arrow link leads from an
    anchor of shape A to some node (for instance a floating node at
    (100,0), the anchors being at (0,0) and (200,0)) and a second link
    leads from that node to an anchor of another shape B, the collapser
    returns the edge (A, B); and so it does for every anchor of another
    shape reached through a chain of links of any length, the nodes in
    between being mere waypoints. *)
Theorem transitive_chain_collapse fuel pool arrows :
  (S (length arrows) < fuel)%nat → NoDup (conn_id <$> pool) →
  ∃ edges,
    collapse_arrow_chains fuel pool arrows = Some edges ∧
    (∀ a f b arrow1 arrow2,
        a ∈ pool → b ∈ pool →
        conn_type a = "shape" → conn_type b = "shape" →
        conn_shape_id a ≠ conn_shape_id b →
        arrow1 ∈ arrows → arrow_tail arrow1 = a → arrow_tip arrow1 = f →
        arrow2 ∈ arrows → arrow_tail arrow2 = f → arrow_tip arrow2 = b →
        (conn_shape_id a, conn_shape_id b) ∈ edges) ∧
    (∀ a b,
        a ∈ pool → b ∈ pool →
        conn_type a = "shape" → conn_type b = "shape" →
        conn_shape_id a ≠ conn_shape_id b →
        reach arrows (conn_id a) (conn_id b) →
        (conn_shape_id a, conn_shape_id b) ∈ edges).
Proof.
  intros Hfuel Hnd.
  destruct (collapse_arrow_chains_spec fuel pool arrows Hfuel)
    as (edges & Hrun & _ & _).
  exists edges. split; [done|].
  assert (∀ a b,
            a ∈ pool → b ∈ pool →
            conn_type a = "shape" → conn_type b = "shape" →
            conn_shape_id a ≠ conn_shape_id b →
            reach arrows (conn_id a) (conn_id b) →
            (conn_shape_id a, conn_shape_id b) ∈ edges) as Hany.
  { intros a b Ha Hb Hta Htb Hne Hreach.
    destruct (collapse_arrow_chains_complete fuel pool arrows a b)
      as (edges' & Hrun' & Hin); try done.
    rewrite Hrun in Hrun'. by injection Hrun' as <-. }
  split; [|done].
  intros a f b arrow1 arrow2 Ha Hb Hta Htb Hne H1 Ht1 Hp1 H2 Ht2 Hp2.
  apply Hany; try done.
  apply (rtc_l _ _ (conn_id f)).
  - exists arrow1. unfold tail_id, tip_id. by rewrite Ht1, Hp1.
  - apply rtc_once. exists arrow2. unfold tail_id, tip_id.
    by rewrite Ht2, Hp2.
Qed.

Lemma transitive_chain_collapse_witness :
  (S (length Example.arrows) < 4)%nat ∧
  NoDup (conn_id <$> Example.pool) ∧
  ∃ edges,
    collapse_arrow_chains 4 Example.pool Example.arrows = Some edges ∧
    (Some 0%Z, Some 1%Z) ∈ edges.
Proof.
  assert (S (length Example.arrows) < 4)%nat as Hfuel by (simpl; lia).
  assert (NoDup (conn_id <$> Example.pool)) as Hnd.
  { apply (bool_decide_unpack (NoDup (conn_id <$> Example.pool))).
    vm_compute. exact I. }
  split; [exact Hfuel|]. split; [exact Hnd|].
  destruct (transitive_chain_collapse 4 Example.pool Example.arrows Hfuel Hnd)
    as (edges & Hrun & Hchain & _).
  exists edges. split; [exact Hrun|].
  apply (Hchain (Conn 3 (0, 0 # 2)%Q "shape" (Some 0%Z) (Some "right"))
                (Conn 8 (100, 0 # 2)%Q "arrow" None None)
                (Conn 6 (200, 0 # 2)%Q "shape" (Some 1%Z) (Some "left"))
                (ArrowConn 2 [0; -5; 100; 5]%Z [0; 0 # 2]%Q [100; 0 # 2]%Q
                   (Conn 3 (0, 0 # 2)%Q "shape" (Some 0%Z) (Some "right"))
                   (Conn 8 (100, 0 # 2)%Q "arrow" None None))
                (ArrowConn 2 [100; -5; 200; 5]%Z [100; 0 # 2]%Q [200; 0 # 2]%Q
                   (Conn 8 (100, 0 # 2)%Q "arrow" None None)
                   (Conn 6 (200, 0 # 2)%Q "shape" (Some 1%Z) (Some "left")))).
  - apply (list_elem_of_lookup_2 _ 3%nat). reflexivity.
  - apply (list_elem_of_lookup_2 _ 6%nat). reflexivity.
  - reflexivity.
  - reflexivity.
  - discriminate.
  - apply (list_elem_of_lookup_2 _ 0%nat). reflexivity.
  - reflexivity.
  - reflexivity.
  - apply (list_elem_of_lookup_2 _ 1%nat). reflexivity.
  - reflexivity.
  - reflexivity.
Defined.

(** The run of [main] on the example: one edge from shape 0 to shape 1. *)
Example main_example_edges :
  (λ d, (chart_edges (doc_chart d), doc_matrix d))
    <$> (main 4 Example.results ∅ 0).1
  = Some ([(Some 0, Some 1)]%Z, [[0; 1]; [0; 0]]%Z).
Proof. vm_compute. reflexivity. Qed.

(** ** The theorems on the example runs *)

Lemma example_reconstruct :
  reconstruct Example.results 0
  = (Example.shapes, Example.pool, Example.arrows, 9%Z).
Proof. vm_compute. reflexivity. Defined.

Lemma collapse_arrow_chains_no_loops_no_duplicates_witness :
  (S (length Example.cyclic_arrows) < 4)%nat ∧
  ∃ edges,
    collapse_arrow_chains 4 Example.cyclic_pool Example.cyclic_arrows
    = Some edges ∧
    NoDup edges ∧
    ∀ from_shape_id to_shape_id,
      (from_shape_id, to_shape_id) ∈ edges → from_shape_id ≠ to_shape_id.
Proof.
  assert (S (length Example.cyclic_arrows) < 4)%nat as Hfuel by (simpl; lia).
  split; [exact Hfuel|].
  exact (collapse_arrow_chains_no_loops_no_duplicates
           4 Example.cyclic_pool Example.cyclic_arrows Hfuel).
Defined.

Lemma bfs_terminates_witness :
  (S (length Example.cyclic_arrows) < 4)%nat ∧
  (∃ st, bfs_loop 4 (build_graph Example.cyclic_arrows) Example.cyclic_pool
                  3 (Some 0%Z) (bfs_init 3 ∅) = Some st
         ∧ bfs_queue st = []) ∧
  NoDup (bfs_expanded 4 (build_graph Example.cyclic_arrows)
                      Example.cyclic_pool 3 (Some 0%Z) (bfs_init 3 ∅)) ∧
  is_Some (collapse_arrow_chains 4 Example.cyclic_pool Example.cyclic_arrows).
Proof.
  assert (S (length Example.cyclic_arrows) < 4)%nat as Hfuel by (simpl; lia).
  split; [exact Hfuel|].
  exact (bfs_terminates Example.cyclic_arrows Example.cyclic_pool
                        3 (Some 0%Z) ∅ 4 Hfuel).
Defined.

(** On the cyclic example the seed 3 is reached again through 6 and is
    skipped by the visited test: it is expanded once. *)
Example bfs_expanded_cyclic :
  bfs_expanded 4 (build_graph Example.cyclic_arrows) Example.cyclic_pool
               3 (Some 0%Z) (bfs_init 3 ∅)
  = [3; 6]%Z.
Proof. vm_compute. reflexivity. Qed.

Lemma final_edges_index_the_matrix_witness :
  reconstruct Example.results 0
  = (Example.shapes, Example.pool, Example.arrows, 9%Z) ∧
  (S (length Example.arrows) < 4)%nat ∧
  ∃ edges,
    collapse_arrow_chains 4 Example.pool Example.arrows = Some edges ∧
    (∀ i j, (i, j) ∈ edges →
            ∃ i' j', i = Some i' ∧ j = Some j' ∧
                     (0 ≤ i' < Z.of_nat (length Example.shapes))%Z ∧
                     (0 ≤ j' < Z.of_nat (length Example.shapes))%Z) ∧
    is_Some (build_nxn_matrix Example.shapes edges).
Proof.
  assert (S (length Example.arrows) < 4)%nat as Hfuel by (simpl; lia).
  split; [exact example_reconstruct|]. split; [exact Hfuel|].
  exact (final_edges_index_the_matrix Example.results 0 4 Example.shapes
           Example.pool Example.arrows 9 example_reconstruct Hfuel).
Defined.

Lemma matrix_edge_equivalence_witness :
  reconstruct Example.results 0
  = (Example.shapes, Example.pool, Example.arrows, 9%Z) ∧
  (S (length Example.arrows) < 4)%nat ∧
  ∃ edges matrix shape_mapping,
    collapse_arrow_chains 4 Example.pool Example.arrows = Some edges ∧
    build_nxn_matrix Example.shapes edges = Some (matrix, shape_mapping) ∧
    square (length Example.shapes) matrix ∧
    (∀ i j, (i < length Example.shapes)%nat →
            (j < length Example.shapes)%nat →
            ∃ x, entry matrix i j = Some x ∧ (x = 0 ∨ x = 1)%Z ∧
                 (x = 1%Z ↔ (Some (Z.of_nat i), Some (Z.of_nat j)) ∈ edges)) ∧
    (∀ k, (k < length Example.shapes)%nat →
          shape_id <$> Example.shapes !! k = Some (Z.of_nat k) ∧
          mapping_id <$> shape_mapping !! k = Some (Z.of_nat k)).
Proof.
  assert (S (length Example.arrows) < 4)%nat as Hfuel by (simpl; lia).
  split; [exact example_reconstruct|]. split; [exact Hfuel|].
  exact (matrix_edge_equivalence Example.results 0 4 Example.shapes
           Example.pool Example.arrows 9 example_reconstruct Hfuel).
Defined.

(** ** Runs from different counter values *)

Lemma fold_left_rel {A B1 B2} (R : B1 → B2 → Prop) (f1 : B1 → A → B1)
    (f2 : B2 → A → B2) (l : list A) b1 b2 :
  R b1 b2 → (∀ a b1 b2, R b1 b2 → R (f1 b1 a) (f2 b2 a)) →
  R (fold_left f1 l b1) (fold_left f2 l b2).
Proof.
  intros Hb Hstep. revert b1 b2 Hb.
  induction l as [|a l IH]; intros b1 b2 Hb; simpl; [done|].
  by apply IH, Hstep.
Qed.

Lemma build_connections_pool_shift k shape_positions counter :
  build_connections_pool shape_positions (counter + k)
  = (shift_conn k <$> (build_connections_pool shape_positions counter).1,
     ((build_connections_pool shape_positions counter).2 + k)%Z).
Proof.
  unfold build_connections_pool.
  set (R := fun (b1 b2 : list conn * Z) =>
              b2 = (shift_conn k <$> b1.1, (b1.2 + k)%Z)).
  apply (fold_left_rel R); [done|].
  intros s b1 b2 Hb. apply (fold_left_rel R); [done|].
  intros [side pt] [pool1 c1] b2' ->. unfold R. simpl.
  rewrite fmap_app. f_equal. lia.
Qed.

Lemma nearest_step_shift k candidate best best_dist c :
  nearest_step candidate (shift_conn k <$> best, best_dist) (shift_conn k c)
  = (shift_conn k <$> (nearest_step candidate (best, best_dist) c).1,
     (nearest_step candidate (best, best_dist) c).2).
Proof.
  unfold nearest_step.
  change (conn_distance candidate (shift_conn k c))
    with (conn_distance candidate c).
  by destruct (distance_ltb (conn_distance candidate c) best_dist).
Qed.

Lemma nearest_fold_shift k candidate pool best best_dist :
  fold_left (nearest_step candidate) (shift_conn k <$> pool)
            (shift_conn k <$> best, best_dist)
  = ((shift_conn k <$>
        (fold_left (nearest_step candidate) pool (best, best_dist)).1),
     (fold_left (nearest_step candidate) pool (best, best_dist)).2).
Proof.
  revert best best_dist.
  induction pool as [|c pool IH]; intros best best_dist; [done|].
  rewrite fmap_cons. cbn [fold_left]. rewrite nearest_step_shift.
  destruct (nearest_step candidate (best, best_dist) c) as [b d].
  apply IH.
Qed.

Lemma find_nearest_connection_shift k candidate pool threshold counter :
  find_nearest_connection candidate (shift_conn k <$> pool) threshold
                          (counter + k)
  = let r := find_nearest_connection candidate pool threshold counter in
    (shift_conn k r.1.1, shift_conn k <$> r.1.2, (r.2 + k)%Z).
Proof.
  unfold find_nearest_connection, nearest_scan.
  rewrite (nearest_fold_shift k candidate pool None). simpl.
  destruct (fold_left (nearest_step candidate) pool (None, Threshold threshold)).1;
    simpl; [done|].
  rewrite fmap_app. unfold get_next_connection_id. f_equal. lia.
Qed.

Lemma process_arrow_shift k arrows pool counter arrow :
  process_arrow (shift_arrow k <$> arrows, shift_conn k <$> pool,
                 (counter + k)%Z) arrow
  = let r := process_arrow (arrows, pool, counter) arrow in
    (shift_arrow k <$> r.1.1, shift_conn k <$> r.1.2, (r.2 + k)%Z).
Proof.
  destruct (arrow_candidates arrow) as [[tl tp]|] eqn:Hc.
  - rewrite !(process_arrow_eq _ _ _ _ _ _ Hc). cbv zeta.
    rewrite find_nearest_connection_shift. cbv zeta. cbn [fst snd].
    rewrite find_nearest_connection_shift. cbv zeta. cbn [fst snd].
    by rewrite fmap_app.
  - unfold process_arrow.
    destruct arrow as [[[[class_id ax1] ay1] ax2] ay2]. by rewrite Hc.
Qed.

Lemma process_arrow_detections_shift k results pool counter :
  process_arrow_detections results (shift_conn k <$> pool) (counter + k)
  = let r := process_arrow_detections results pool counter in
    (shift_arrow k <$> r.1.1, shift_conn k <$> r.1.2, (r.2 + k)%Z).
Proof.
  unfold process_arrow_detections. cbv zeta.
  set (R := fun (b1 b2 : list arrow_conn * list conn * Z) =>
              b2 = (shift_arrow k <$> b1.1.1, shift_conn k <$> b1.1.2,
                    (b1.2 + k)%Z)).
  apply (fold_left_rel R); [done|].
  intros arrow [[arrows1 pool1] c1] b2 ->. unfold R. cbn [fst snd].
  apply process_arrow_shift.
Qed.

(** Starting [k] later moves every node id by [k] and nothing else. *)
Lemma reconstruct_shift k results counter :
  reconstruct results (counter + k)
  = let r := reconstruct results counter in
    (r.1.1.1, shift_conn k <$> r.1.1.2, shift_arrow k <$> r.1.2,
     (r.2 + k)%Z).
Proof.
  unfold reconstruct. rewrite build_connections_pool_shift.
  destruct (build_connections_pool (draw_shapes results) counter)
    as [pool c1]. cbn [fst snd].
  rewrite process_arrow_detections_shift. cbv zeta.
  by destruct (process_arrow_detections results pool c1)
    as [[arrows pool2] c2].
Qed.

Lemma link_shift k arrows u v :
  link (shift_arrow k <$> arrows) u v ↔ link arrows (u - k) (v - k).
Proof.
  unfold link. split.
  - intros (a' & Ha' & <- & <-).
    apply list_elem_of_fmap in Ha' as (a & -> & Ha).
    exists a. unfold tail_id, tip_id. simpl. split; [done|]. lia.
  - intros (a & Ha & Ht & Hp). exists (shift_arrow k a).
    split; [apply list_elem_of_fmap; by exists a|].
    unfold tail_id, tip_id in *. simpl. lia.
Qed.

Lemma reach_shift k arrows u v :
  reach (shift_arrow k <$> arrows) u v ↔ reach arrows (u - k) (v - k).
Proof.
  unfold reach. split.
  - induction 1 as [x|x y z Hxy _ IH]; [apply rtc_refl|].
    eapply rtc_l; [|exact IH]. by apply link_shift.
  - intros H. remember (u - k)%Z as u' eqn:Hu. remember (v - k)%Z as v' eqn:Hv.
    revert u v Hu Hv.
    induction H as [x|x y z Hxy _ IH]; intros u v Hu Hv.
    + assert (u = v) as -> by lia. apply rtc_refl.
    + apply (rtc_l _ _ (y + k)%Z).
      * apply link_shift. subst x. by replace (y + k - k)%Z with y by lia.
      * apply IH; lia.
Qed.

Lemma get_node_by_id_shift k t pool :
  get_node_by_id t (shift_conn k <$> pool)
  = shift_conn k <$> get_node_by_id (t - k) pool.
Proof.
  induction pool as [|c pool IH]; [done|].
  rewrite fmap_cons. simpl.
  destruct (decide (conn_id c = (t - k)%Z)) as [Heq|Hne].
  - by rewrite decide_True by lia.
  - by rewrite decide_False by lia.
Qed.

Lemma reached_edge_shift k pool start_id start_shape t e :
  reached_edge (shift_conn k <$> pool) start_id start_shape t e
  ↔ reached_edge pool (start_id - k) start_shape (t - k) e.
Proof.
  unfold reached_edge. rewrite get_node_by_id_shift. split.
  - intros (Hne & node' & Hget & Ht & ->). split; [lia|].
    destruct (get_node_by_id (t - k) pool) as [node|]; [|done].
    injection Hget as <-. by exists node.
  - intros (Hne & node & Hget & Ht & ->). split; [lia|].
    exists (shift_conn k node). by rewrite Hget.
Qed.

Lemma seed_edge_shift k pool arrows s e :
  seed_edge (shift_conn k <$> pool) (shift_arrow k <$> arrows)
            (shift_conn k s) e
  ↔ seed_edge pool arrows s e.
Proof.
  unfold seed_edge. simpl. split.
  - intros (Hs & t & Hr & He). split; [done|]. exists (t - k)%Z.
    apply reach_shift in Hr. apply reached_edge_shift in He.
    by replace (conn_id s + k - k)%Z with (conn_id s) in * by lia.
  - intros (Hs & t & Hr & He). split; [done|]. exists (t + k)%Z. split.
    + apply reach_shift.
      by replace (conn_id s + k - k)%Z with (conn_id s) by lia;
         replace (t + k - k)%Z with t by lia.
    + apply reached_edge_shift.
      by replace (conn_id s + k - k)%Z with (conn_id s) by lia;
         replace (t + k - k)%Z with t by lia.
Qed.

(** The final edges do not depend on where the node ids start. *)
Lemma collapse_arrow_chains_shift k fuel pool arrows :
  (S (length arrows) < fuel)%nat →
  collapse_arrow_chains fuel (shift_conn k <$> pool) (shift_arrow k <$> arrows)
  = collapse_arrow_chains fuel pool arrows.
Proof.
  intros Hfuel. unfold collapse_arrow_chains.
  destruct (collapse_edge_set_spec fuel pool arrows Hfuel) as (set1 & -> & H1).
  destruct (collapse_edge_set_spec fuel (shift_conn k <$> pool)
              (shift_arrow k <$> arrows)) as (set2 & -> & H2).
  { by rewrite length_fmap. }
  assert (set2 = set1) as ->; [|done].
  apply set_eq. intros e. rewrite H1, H2. split.
  - intros (s' & Hs' & He). apply list_elem_of_fmap in Hs' as (s & -> & Hs).
    exists s. split; [done|]. by apply seed_edge_shift in He.
  - intros (s & Hs & He). exists (shift_conn k s).
    split; [apply list_elem_of_fmap; by exists s|]. by apply seed_edge_shift.
Qed.

Lemma process_arrow_detections_length results pool counter :
  length (process_arrow_detections results pool counter).1.1
  = length (arrow_detections results).
Proof.
  unfold process_arrow_detections. rewrite arrow_detections_filter.
  rewrite <- (length_map arrow_source), process_arrow_fold_sources.
  - simpl. by rewrite !length_map.
  - apply Forall_forall. intros b Hb.
    by apply list_elem_of_filter in Hb as [? _].
Qed.

Lemma reconstruct_arrows_length results counter :
  length (reconstruct results counter).1.2 = length (arrow_detections results).
Proof.
  unfold reconstruct.
  destruct (build_connections_pool (draw_shapes results) counter)
    as [pool c1].
  pose proof (process_arrow_detections_length results pool c1) as Hlen.
  by destruct (process_arrow_detections results pool c1)
    as [[arrows pool2] c2].
Qed.

(** With fuel for the traversal [main] produces its documents. *)
Lemma main_is_Some fuel results ocr_dict counter :
  (S (length (arrow_detections results)) < fuel)%nat →
  is_Some (main fuel results ocr_dict counter).1.
Proof.
  intros Hfuel. unfold main.
  destruct (reconstruct results counter) as [[[shapes pool] arrows] c']
    eqn:Hrec.
  pose proof (reconstruct_arrows_length results counter) as Hlen.
  rewrite Hrec in Hlen. simpl in Hlen. rewrite <- Hlen in Hfuel.
  destruct (reconstruct_edges_in_range _ _ _ _ _ _ _ Hrec Hfuel)
    as (edges & -> & Hrange).
  simpl.
  destruct (build_nxn_matrix_spec shapes edges Hrange) as (m & sm & -> & _).
  simpl. by eexists.
Qed.

Lemma build_chart_json_shift k shapes edges arrows ocr_dict :
  build_chart_json shapes edges (shift_arrow k <$> arrows) ocr_dict
  = let c := build_chart_json shapes edges arrows ocr_dict in
    ChartJson (chart_nodes c) (chart_edges c) (chart_SHAPE_MAP c)
              (shift_chart_arrow k <$> chart_arrows c).
Proof.
  unfold build_chart_json. simpl. f_equal.
  change (map ?f (shift_arrow k <$> arrows))
    with (f <$> (shift_arrow k <$> arrows)).
  change (map ?f arrows) with (f <$> arrows).
  rewrite <- !list_fmap_compose. done.
Qed.

(** A run started [k] later writes the same documents with every
    connection-node id moved by [k]. *)
Lemma main_shift k fuel results ocr_dict counter :
  (S (length (arrow_detections results)) < fuel)%nat →
  main fuel results ocr_dict (counter + k)
  = (shift_documents k <$> (main fuel results ocr_dict counter).1,
     ((main fuel results ocr_dict counter).2 + k)%Z).
Proof.
  intros Hfuel. unfold main. rewrite reconstruct_shift. cbv zeta.
  pose proof (reconstruct_arrows_length results counter) as Hlen.
  destruct (reconstruct results counter) as [[[shapes pool] arrows] c'].
  cbn [fst snd] in *. rewrite <- Hlen in Hfuel.
  rewrite (collapse_arrow_chains_shift k fuel pool arrows Hfuel).
  destruct (collapse_arrow_chains fuel pool arrows) as [edges|]; [|done].
  simpl. rewrite build_chart_json_shift. cbv zeta.
  by destruct (build_nxn_matrix shapes edges) as [[m sm]|].
Qed.

Lemma shift_documents_0 d : shift_documents 0 d = d.
Proof.
  destruct d as [[nodes edges smap arrows] matrix shapes].
  unfold shift_documents. simpl. do 2 f_equal.
  rewrite <- (list_fmap_id arrows) at 2. apply list_fmap_ext.
  intros _ [cid bbox tl tp [i1 p1 t1 s1 d1] [i2 p2 t2 s2 d2]] _.
  unfold shift_chart_arrow, shift_endpoint. simpl.
  by rewrite !Z.add_0_r.
Qed.

(** C2 (as amended): two runs on the same detections and OCR texts write
    the same matrix document and the same nodes, edges and SHAPE_MAP of the
    graph document whatever the values of the id counter they start from;
    the arrows of the graph document agree up to the connection-node ids,
    which are moved by the difference of the two counter values.  Runs that
    start from the same counter value, such as the first run of each fresh
    interpreter, write identical documents. *)
Theorem main_runs_agree_up_to_ids fuel results ocr_dict counter1 counter2 :
  (S (length (arrow_detections results)) < fuel)%nat →
  ∃ d1 d2,
    (main fuel results ocr_dict counter1).1 = Some d1 ∧
    (main fuel results ocr_dict counter2).1 = Some d2 ∧
    doc_matrix d2 = doc_matrix d1 ∧
    doc_shapes d2 = doc_shapes d1 ∧
    chart_nodes (doc_chart d2) = chart_nodes (doc_chart d1) ∧
    chart_edges (doc_chart d2) = chart_edges (doc_chart d1) ∧
    chart_SHAPE_MAP (doc_chart d2) = chart_SHAPE_MAP (doc_chart d1) ∧
    chart_arrows (doc_chart d2)
    = shift_chart_arrow (counter2 - counter1) <$> chart_arrows (doc_chart d1) ∧
    (counter1 = counter2 → d2 = d1).
Proof.
  intros Hfuel.
  destruct (main_is_Some fuel results ocr_dict counter1 Hfuel) as [d1 Hd1].
  pose proof (main_shift (counter2 - counter1) fuel results ocr_dict counter1
                Hfuel) as Hshift.
  replace (counter1 + (counter2 - counter1))%Z with counter2 in Hshift by lia.
  exists d1, (shift_documents (counter2 - counter1) d1).
  rewrite Hshift, Hd1. split_and!; try done.
  intros ->. rewrite Z.sub_diag. apply shift_documents_0.
Qed.

Lemma main_runs_agree_up_to_ids_witness :
  (S (length (arrow_detections Example.results)) < 4)%nat ∧
  ∃ d1 d2,
    (main 4 Example.results ∅ 0).1 = Some d1 ∧
    (main 4 Example.results ∅ 9).1 = Some d2 ∧
    doc_matrix d2 = doc_matrix d1 ∧
    doc_shapes d2 = doc_shapes d1 ∧
    chart_nodes (doc_chart d2) = chart_nodes (doc_chart d1) ∧
    chart_edges (doc_chart d2) = chart_edges (doc_chart d1) ∧
    chart_SHAPE_MAP (doc_chart d2) = chart_SHAPE_MAP (doc_chart d1) ∧
    chart_arrows (doc_chart d2)
    = shift_chart_arrow (9 - 0) <$> chart_arrows (doc_chart d1) ∧
    (0%Z = 9%Z → d2 = d1).
Proof.
  assert (S (length (arrow_detections Example.results)) < 4)%nat as Hfuel
    by (vm_compute; lia).
  split; [exact Hfuel|].
  exact (main_runs_agree_up_to_ids 4 Example.results ∅ 0 9 Hfuel).
Defined.

(** C2, counterexample: two runs of [main] in one interpreter on the same
    detections.  The first leaves the counter at 9, so the second numbers
    its nodes from 9 and the two graph documents differ in every
    connection-node id. *)
Lemma second_run_renumbers_nodes :
  ∃ d1 d2,
    main_twice 4 Example.results ∅ 0 = (Some d1, Some d2, 18%Z) ∧
    chart_connection_ids d1 = [(3, 8); (8, 6)]%Z ∧
    chart_connection_ids d2 = [(12, 17); (17, 15)]%Z ∧
    d1 ≠ d2.
Proof.
  eexists _, _. split; [vm_compute; reflexivity|].
  split; [reflexivity|]. split; [reflexivity|].
  intros Heq. apply (f_equal chart_connection_ids) in Heq.
  vm_compute in Heq. discriminate Heq.
Qed.

(** ** Node ids are never duplicated *)

Lemma ids_from_snoc counter0 pool counter c :
  ids_from counter0 pool counter → conn_id c = counter →
  ids_from counter0 (pool ++ [c]) (counter + 1).
Proof.
  intros [-> Hids] Hc. split.
  - rewrite length_app. simpl. lia.
  - intros i c' Hi. apply lookup_app_Some in Hi as [Hi|[Hlen Hi]].
    + by apply Hids.
    + apply list_lookup_singleton_Some in Hi as [Hi <-]. lia.
Qed.

Lemma build_connections_pool_ids shape_positions counter :
  ids_from counter (build_connections_pool shape_positions counter).1
           (build_connections_pool shape_positions counter).2.
Proof.
  unfold build_connections_pool.
  apply (fold_left_inv (fun acc : list conn * Z => ids_from counter acc.1 acc.2)).
  - split; [simpl; lia|]. intros i c Hi. simpl in Hi.
    by rewrite lookup_nil in Hi.
  - intros acc s _ Hacc.
    apply (fold_left_inv
             (fun acc : list conn * Z => ids_from counter acc.1 acc.2));
      [done|].
    intros [pool ctr] [side pt] _ Hpool. simpl in *.
    by apply ids_from_snoc.
Qed.

Lemma find_nearest_connection_ids counter0 candidate pool threshold counter :
  ids_from counter0 pool counter →
  ids_from counter0
    (find_nearest_connection candidate pool threshold counter).1.2
    (find_nearest_connection candidate pool threshold counter).2.
Proof.
  intros Hids.
  destruct (find_nearest_connection_cases candidate pool threshold counter)
    as [(_ & -> & ->)| ->]; [done|]. simpl.
  by apply ids_from_snoc.
Qed.

Lemma process_arrow_ids counter0 acc arrow :
  ids_from counter0 acc.1.2 acc.2 →
  ids_from counter0 (process_arrow acc arrow).1.2 (process_arrow acc arrow).2.
Proof.
  destruct acc as [[arrows pool] counter]. cbn [fst snd]. intros Hids.
  destruct (arrow_candidates arrow) as [[tl tp]|] eqn:Hc.
  - rewrite (process_arrow_eq _ _ _ _ _ _ Hc). cbv zeta. cbn [fst snd].
    by do 2 apply find_nearest_connection_ids.
  - unfold process_arrow.
    destruct arrow as [[[[class_id ax1] ay1] ax2] ay2]. by rewrite Hc.
Qed.

Lemma reconstruct_ids results counter :
  ids_from counter (reconstruct results counter).1.1.2
           (reconstruct results counter).2.
Proof.
  unfold reconstruct.
  pose proof (build_connections_pool_ids (draw_shapes results) counter) as H1.
  destruct (build_connections_pool (draw_shapes results) counter)
    as [pool c1]. cbn [fst snd] in H1.
  assert (ids_from counter
            (process_arrow_detections results pool c1).1.2
            (process_arrow_detections results pool c1).2) as H2.
  { unfold process_arrow_detections.
    apply (fold_left_inv
             (fun acc : list arrow_conn * list conn * Z =>
                ids_from counter acc.1.2 acc.2)); [done|].
    intros acc arrow _. apply process_arrow_ids. }
  by destruct (process_arrow_detections results pool c1)
    as [[arrows pool2] c2].
Qed.

Lemma ids_from_NoDup counter0 pool counter :
  ids_from counter0 pool counter → NoDup (conn_id <$> pool).
Proof.
  intros [_ Hids]. apply NoDup_alt. intros i j x Hi Hj.
  rewrite list_lookup_fmap in Hi, Hj.
  destruct (pool !! i) as [ci|] eqn:Ei; [|done].
  destruct (pool !! j) as [cj|] eqn:Ej; [|done].
  simpl in *. injection Hi as <-. injection Hj as Hj.
  apply Hids in Ei, Ej. lia.
Qed.

(** The pool of a pipeline run has pairwise distinct node ids, from any
    counter value. *)
Lemma reconstruct_ids_NoDup results counter :
  NoDup (conn_id <$> (reconstruct results counter).1.1.2).
Proof. eapply ids_from_NoDup, reconstruct_ids. Qed.

(** * Further properties *)

(** ** Shapes and their anchors *)

Lemma SHAPE_MAP_shape_class class_id :
  is_Some (dict_get SHAPE_MAP class_id None) ↔ is_shape_class class_id = true.
Proof.
  unfold is_shape_class. rewrite bool_decide_eq_true.
  rewrite !elem_of_cons, elem_of_nil. unfold dict_get, SHAPE_MAP. simpl.
  destruct (decide (class_id = 4%Z)) as [->|?]; [split; eauto|].
  destruct (decide (class_id = 5%Z)) as [->|?].
  { split; [by intros [? ?]|lia]. }
  destruct (decide (class_id = 6%Z)) as [->|?]; [split; eauto|].
  destruct (decide (class_id = 7%Z)) as [->|?]; [split; eauto|].
  destruct (decide (class_id = 8%Z)) as [->|?]; [split; eauto 6|].
  destruct (decide (class_id = 9%Z)) as [->|?]; [split; eauto 6|].
  rewrite !lookup_insert_ne by done. rewrite lookup_empty.
  split; [by intros [? ?]|lia].
Qed.

Lemma draw_shapes_box_eq shape_positions b :
  draw_shapes_box shape_positions b
  = if is_shape_class (box_cls b)
    then shape_positions ++ [shape_of_box (length shape_positions) b]
    else shape_positions.
Proof.
  pose proof (SHAPE_MAP_shape_class (box_cls b)) as Hmap.
  unfold draw_shapes_box.
  destruct (is_shape_class (box_cls b)) eqn:Hs.
  - assert (negb (is_arrow_class (box_cls b)) && negb (box_cls b =? 5)%Z
            = true) as ->.
    { unfold is_shape_class in Hs. apply bool_decide_eq_true in Hs.
      rewrite !elem_of_cons, elem_of_nil in Hs.
      destruct Hs as [-> | [-> | [-> | [-> | [-> | []]]]]]; reflexivity. }
    destruct (dict_get SHAPE_MAP (box_cls b) None) as [shape_type|]; [done|].
    destruct Hmap as [_ Hmap]. by destruct (Hmap eq_refl).
  - destruct (negb _ && negb _); [|done].
    destruct (dict_get SHAPE_MAP (box_cls b) None) as [shape_type|]; [|done].
    destruct Hmap as [Hmap _]. by discriminate Hmap; eauto.
Qed.

Lemma fold_left_pointwise {A B} (f g : B → A → B) (l : list A) b :
  (∀ b a, f b a = g b a) → fold_left f l b = fold_left g l b.
Proof.
  intros Hfg. revert b. induction l as [|a l IH]; intros b; simpl; [done|].
  by rewrite Hfg, IH.
Qed.

Lemma fold_left_enumerate {A B} (p : A → bool) (f : nat → A → B) l acc :
  fold_left (fun acc x => if p x then acc ++ [f (length acc) x] else acc) l acc
  = acc ++ imap (fun i => f (length acc + i)%nat)
                (filter (fun x => p x = true) l).
Proof.
  revert acc. induction l as [|x l IH]; intros acc; simpl.
  - by rewrite app_nil_r.
  - rewrite IH, filter_cons. destruct (p x) eqn:E.
    + rewrite decide_True by done. simpl. rewrite <- app_assoc. simpl.
      rewrite Nat.add_0_r. do 2 f_equal. apply imap_ext.
      intros i y _. rewrite length_app. simpl. f_equal. lia.
    + rewrite decide_False by (by intros ?). done.
Qed.

(** [draw_shapes] as a filter followed by an enumeration. *)
Lemma draw_shapes_keeps_shape_classes_aux results :
  draw_shapes results
  = imap shape_of_box
         (filter (fun b => is_shape_class (box_cls b) = true) (concat results)).
Proof.
  unfold draw_shapes. rewrite fold_left_concat.
  rewrite (fold_left_pointwise _ (fun acc b =>
             if is_shape_class (box_cls b)
             then acc ++ [shape_of_box (length acc) b] else acc)).
  - by rewrite (fold_left_enumerate (fun b => is_shape_class (box_cls b))
                  shape_of_box).
  - intros acc b. apply draw_shapes_box_eq.
Qed.

Lemma build_connections_sides_eq sid items pool counter :
  fold_left (build_connections_side sid) items (pool, counter)
  = (pool ++ imap (fun j item =>
                     Conn (counter + Z.of_nat j) (snd item) "shape" (Some sid)
                          (Some (fst item))) items,
     (counter + Z.of_nat (length items))%Z).
Proof.
  revert pool counter. induction items as [|[side pt] items IH];
    intros pool counter; simpl.
  - by rewrite app_nil_r, Z.add_0_r.
  - rewrite IH, <- app_assoc. simpl. rewrite Z.add_0_r. f_equal.
    + do 2 f_equal. apply imap_ext. intros j [side' pt'] _. simpl.
      f_equal. lia.
    + lia.
Qed.

Lemma build_connections_fold_eq shapes pool0 counter0 :
  fold_left (fun acc s =>
               fold_left (build_connections_side (shape_id s))
                         (shape_edge_centers s) acc)
            shapes (pool0, counter0)
  = (pool0 ++ seed_all counter0 shapes,
     (counter0 + Z.of_nat (length (seed_all counter0 shapes)))%Z).
Proof.
  revert pool0 counter0. induction shapes as [|s shapes IH];
    intros pool0 counter0; cbn [fold_left seed_all].
  - simpl. by rewrite app_nil_r, Z.add_0_r.
  - rewrite build_connections_sides_eq. fold (anchors_of counter0 s).
    rewrite IH, <- app_assoc. f_equal.
    rewrite length_app. unfold anchors_of. rewrite length_imap. lia.
Qed.



Lemma draw_shapes_four_sides results :
  Forall (fun s => fst <$> shape_edge_centers s
                   = ["top"; "bottom"; "left"; "right"])
         (draw_shapes results).
Proof.
  rewrite draw_shapes_keeps_shape_classes_aux. apply Forall_forall.
  intros s Hs. apply list_elem_of_lookup in Hs as [k Hk].
  apply list_lookup_imap_Some in Hk as (b & _ & ->). done.
Qed.

Lemma draw_shapes_lookup results k s :
  draw_shapes results !! k = Some s →
  ∃ b, b ∈ concat results ∧ is_shape_class (box_cls b) = true ∧
       s = shape_of_box k b.
Proof.
  rewrite draw_shapes_keeps_shape_classes_aux. intros Hk.
  apply list_lookup_imap_Some in Hk as (b & Hb & ->).
  exists b. split_and!; [|  |done];
    apply list_elem_of_lookup_2, list_elem_of_filter in Hb; tauto.
Qed.

(** X1: [draw_shapes] keeps exactly the boxes of class 4, 6, 7, 8 or 9, in
    detection order, and numbers them 0, 1, 2, ...; boxes of the arrow
    classes, of class 5 and of any other class produce no shape.  Width and
    height are the differences of the corners. *)
Theorem draw_shapes_keeps_shape_classes results :
  draw_shapes results
  = imap shape_of_box
         (filter (fun b => is_shape_class (box_cls b) = true) (concat results))
  ∧ ∀ k s, draw_shapes results !! k = Some s →
           shape_id s = Z.of_nat k ∧
           shape_class_id s ∈ [4; 6; 7; 8; 9]%Z ∧
           ∃ b, b ∈ concat results ∧ shape_class_id s = box_cls b ∧
                shape_x1 s = box_x1 b ∧ shape_y1 s = box_y1 b ∧
                shape_width s = (box_x2 b - box_x1 b)%Z ∧
                shape_height s = (box_y2 b - box_y1 b)%Z.
Proof.
  split; [apply draw_shapes_keeps_shape_classes_aux|].
  intros k s Hk. apply draw_shapes_lookup in Hk as (b & Hb & Hc & ->).
  split; [done|]. split.
  - unfold is_shape_class in Hc. by apply bool_decide_eq_true in Hc.
  - by exists b.
Qed.


(** ** The pool only grows *)

Lemma find_nearest_connection_extends candidate pool threshold counter :
  (0 < threshold)%Q →
  let r := find_nearest_connection candidate pool threshold counter in
  pool `prefix_of` r.1.2 ∧ r.1.1 ∈ r.1.2 ∧
  (euclidean candidate (conn_point r.1.1) < Q2R threshold)%R.
Proof.
  intros Ht.
  destruct (find_nearest_connection_scan candidate pool threshold counter)
    as [(l1 & best & l2 & Hpool & -> & Hw & _)|[_ ->]]; cbn [fst snd].
  - split; [done|]. split; [|by apply within_euclidean].
    rewrite Hpool. apply elem_of_app. right. apply elem_of_cons. by left.
  - split; [by apply prefix_app_r|]. split.
    + apply elem_of_app. right. by apply list_elem_of_singleton.
    + by apply within_euclidean, within_same_point.
Qed.

Lemma link_resolved_prefix pool pool' a :
  pool `prefix_of` pool' → link_resolved pool a → link_resolved pool' a.
Proof.
  intros [k ->] (Htl & Htp & H). split_and!; [| |done];
    apply elem_of_app; by left.
Qed.

Lemma process_arrow_resolves pool0 acc arrow :
  (pool0 `prefix_of` acc.1.2 ∧ ∀ a, a ∈ acc.1.1 → link_resolved acc.1.2 a) →
  pool0 `prefix_of` (process_arrow acc arrow).1.2 ∧
  ∀ a, a ∈ (process_arrow acc arrow).1.1 →
       link_resolved (process_arrow acc arrow).1.2 a.
Proof.
  destruct acc as [[arrows pool] counter]. cbn [fst snd]. intros [Hpre Hres].
  destruct (arrow_candidates arrow) as [[tl tp]|] eqn:Hc.
  - rewrite (process_arrow_eq _ _ _ _ _ _ Hc). cbv zeta. cbn [fst snd].
    destruct (find_nearest_connection_extends tl pool 50 counter eq_refl)
      as (Hp1 & Hin1 & Hd1).
    set (r1 := find_nearest_connection tl pool 50 counter) in *.
    destruct (find_nearest_connection_extends tp r1.1.2 50 r1.2 eq_refl)
      as (Hp2 & Hin2 & Hd2).
    set (r2 := find_nearest_connection tp r1.1.2 50 r1.2) in *.
    split; [by do 2 (etrans; [|eassumption])|].
    intros a Ha. apply elem_of_app in Ha as [Ha|Ha].
    + apply (link_resolved_prefix pool); [by etrans|by apply Hres].
    + apply list_elem_of_singleton in Ha as ->.
      split_and!; cbn; [|done|by exists tl, tp].
      destruct Hp2 as [k ->]. apply elem_of_app. by left.
  - unfold process_arrow.
    destruct arrow as [[[[class_id ax1] ay1] ax2] ay2]. by rewrite Hc.
Qed.

(** Links are resolved into the pool, which only grows. *)
Lemma process_arrow_detections_resolves_aux results pool counter :
  let r := process_arrow_detections results pool counter in
  pool `prefix_of` r.1.2 ∧ ∀ a, a ∈ r.1.1 → link_resolved r.1.2 a.
Proof.
  unfold process_arrow_detections. cbv zeta.
  apply (fold_left_inv
           (fun acc : list arrow_conn * list conn * Z =>
              pool `prefix_of` acc.1.2 ∧
              ∀ a, a ∈ acc.1.1 → link_resolved acc.1.2 a)).
  - split; [done|]. intros a Ha. by apply elem_of_nil in Ha.
  - intros acc arrow _. apply process_arrow_resolves.
Qed.

(** X3: [process_arrow_detections] only appends to the pool it is given
    (no node is removed or edited), and both ends of every arrow link it
    returns are nodes of the returned pool that lie strictly within 50 of
    the tail and tip candidate recorded in the link. *)
Theorem process_arrow_detections_resolves results pool counter :
  let r := process_arrow_detections results pool counter in
  pool `prefix_of` r.1.2 ∧ ∀ a, a ∈ r.1.1 → link_resolved r.1.2 a.
Proof. apply process_arrow_detections_resolves_aux. Qed.

(** ** Node ids and lookup by id *)

(** X4: the pool of a pipeline run started with the counter at [counter]
    holds the ids [counter], [counter + 1], ... in pool order, so no id
    occurs twice, and the run leaves the counter at [counter] plus the
    number of nodes. *)
Theorem pipeline_ids_consecutive results counter :
  let r := reconstruct results counter in
  r.2 = (counter + Z.of_nat (length r.1.1.2))%Z ∧
  (∀ i c, r.1.1.2 !! i = Some c → conn_id c = (counter + Z.of_nat i)%Z) ∧
  NoDup (conn_id <$> r.1.1.2).
Proof.
  cbv zeta. pose proof (reconstruct_ids results counter) as Hids.
  split; [apply Hids|]. split; [apply Hids|].
  by eapply ids_from_NoDup.
Qed.

Lemma get_node_by_id_cases node_id pool :
  match get_node_by_id node_id pool with
  | Some node =>
      ∃ l1 l2, pool = l1 ++ node :: l2 ∧ conn_id node = node_id ∧
               ∀ c, c ∈ l1 → conn_id c ≠ node_id
  | None => ∀ c, c ∈ pool → conn_id c ≠ node_id
  end.
Proof.
  induction pool as [|c pool IH]; simpl.
  - intros c Hc. by apply elem_of_nil in Hc.
  - case_decide as Hid.
    + exists [], pool. split; [done|]. split; [done|].
      intros c' Hc'. by apply elem_of_nil in Hc'.
    + destruct (get_node_by_id node_id pool) as [node|].
      * destruct IH as (l1 & l2 & -> & Hn & Hfirst).
        exists (c :: l1), l2. split; [done|]. split; [done|].
        intros c' Hc'. apply elem_of_cons in Hc' as [->|Hc']; [done|].
        by apply Hfirst.
      * intros c' Hc'. apply elem_of_cons in Hc' as [->|Hc']; [done|].
        by apply IH.
Qed.

(** X5: [get_node_by_id] returns the first node of the pool that carries
    the id, and [None] exactly when no node carries it. *)
Theorem get_node_by_id_first_match node_id pool :
  (∀ node, get_node_by_id node_id pool = Some node ↔
           ∃ l1 l2, pool = l1 ++ node :: l2 ∧ conn_id node = node_id ∧
                    ∀ c, c ∈ l1 → conn_id c ≠ node_id) ∧
  (get_node_by_id node_id pool = None ↔
   ∀ c, c ∈ pool → conn_id c ≠ node_id).
Proof.
  pose proof (get_node_by_id_cases node_id pool) as Hcases.
  destruct (get_node_by_id node_id pool) as [found|] eqn:Hget; split.
  - intros node. split; [by intros [= <-]|].
    intros (l1 & l2 & Hpool & Hid & Hfirst). f_equal.
    destruct Hcases as (k1 & k2 & Hpool' & Hid' & Hfirst').
    (* both decompositions stop at the first node with the id *)
    rewrite Hpool in Hpool'. clear Hget Hpool.
    revert k1 Hpool' Hfirst'.
    induction l1 as [|c l1 IH]; intros k1 Hpool' Hfirst'.
    + destruct k1 as [|c' k1]; simpl in Hpool'; simplify_eq; [done|].
      exfalso. eapply Hfirst'; [by apply elem_of_cons; left|done].
    + destruct k1 as [|c' k1]; simpl in Hpool'; simplify_eq.
      * exfalso. eapply Hfirst; [by apply elem_of_cons; left|done].
      * eapply IH; [|done|].
        -- intros c0 Hc0. apply Hfirst. apply elem_of_cons. by right.
        -- intros c0 Hc0. apply Hfirst'. apply elem_of_cons. by right.
  - split; [done|]. intros Hnone. exfalso.
    destruct Hcases as (l1 & l2 & -> & Hid & _).
    apply (Hnone found); [|done].
    apply elem_of_app. right. apply elem_of_cons. by left.
  - intros node. split; [done|].
    intros (l1 & l2 & -> & Hid & _). exfalso.
    apply (Hcases node); [|done].
    apply elem_of_app. right. apply elem_of_cons. by left.
  - done.
Qed.

Lemma get_node_by_id_ids_from counter0 pool counter node_id :
  ids_from counter0 pool counter →
  get_node_by_id node_id pool
  = if decide (counter0 ≤ node_id)%Z
    then pool !! Z.to_nat (node_id - counter0) else None.
Proof.
  intros [_ Hids].
  pose proof (get_node_by_id_cases node_id pool) as Hcases.
  destruct (get_node_by_id node_id pool) as [found|].
  - destruct Hcases as (l1 & l2 & -> & Hid & _).
    assert ((l1 ++ found :: l2) !! length l1 = Some found) as Hlook.
    { by rewrite list_lookup_middle. }
    pose proof (Hids _ _ Hlook) as Hfound.
    rewrite decide_True by lia.
    replace (Z.to_nat (node_id - counter0)) with (length l1) by lia.
    done.
  - case_decide as Hle; [|done].
    destruct (pool !! Z.to_nat (node_id - counter0)) as [c|] eqn:Hlook;
      [|done].
    exfalso. apply (Hcases c); [by eapply list_elem_of_lookup_2|].
    rewrite (Hids _ _ Hlook). lia.
Qed.

(** X6: in the pool of a pipeline run, lookup by id is lookup by position:
    the id [counter + i] finds the i-th node, and an id below [counter] or
    from [counter + length pool] on finds nothing. *)
Theorem get_node_by_id_pipeline results counter node_id :
  let pool := (reconstruct results counter).1.1.2 in
  get_node_by_id node_id pool
  = if decide (counter ≤ node_id)%Z
    then pool !! Z.to_nat (node_id - counter) else None.
Proof.
  cbv zeta. eapply get_node_by_id_ids_from, reconstruct_ids.
Qed.

(** ** Chain collapser: edges only along chains *)

(** X7: every edge returned by [collapse_arrow_chains] is backed by the
    mesh: it joins the shape ids of two shape anchors of the pool with
    different node ids, the second reached from the first through at least
    one arrow link, tail to tip. *)
Theorem collapse_arrow_chains_sound fuel pool arrows :
  (S (length arrows) < fuel)%nat →
  ∃ edges,
    collapse_arrow_chains fuel pool arrows = Some edges ∧
    ∀ i j, (i, j) ∈ edges →
      ∃ a b, a ∈ pool ∧ b ∈ pool ∧
             conn_type a = "shape" ∧ conn_type b = "shape" ∧
             conn_shape_id a = i ∧ conn_shape_id b = j ∧
             conn_id a ≠ conn_id b ∧
             tc (link arrows) (conn_id a) (conn_id b).
Proof.
  intros Hfuel.
  destruct (collapse_arrow_chains_spec fuel pool arrows Hfuel)
    as (edges & Hrun & _ & Hmem).
  exists edges. split; [done|]. intros i j Hin.
  apply Hmem in Hin as (_ & a & Ha & Hta & t & Hreach & Hne & b & Hget & Htb & [= -> ->]).
  apply get_node_by_id_Some in Hget as [Hb <-].
  exists a, b. split_and!; try done.
  apply rtc_tc in Hreach as [Heq|Htc]; [by rewrite Heq in Hne|done].
Qed.

Lemma collapse_arrow_chains_sound_witness :
  (S (length Example.arrows) < 4)%nat ∧
  ∃ edges,
    collapse_arrow_chains 4 Example.pool Example.arrows = Some edges ∧
    ∀ i j, (i, j) ∈ edges →
      ∃ a b, a ∈ Example.pool ∧ b ∈ Example.pool ∧
             conn_type a = "shape" ∧ conn_type b = "shape" ∧
             conn_shape_id a = i ∧ conn_shape_id b = j ∧
             conn_id a ≠ conn_id b ∧
             tc (link Example.arrows) (conn_id a) (conn_id b).
Proof.
  assert (S (length Example.arrows) < 4)%nat as Hfuel by (simpl; lia).
  split; [exact Hfuel|].
  exact (collapse_arrow_chains_sound 4 Example.pool Example.arrows Hfuel).
Defined.

(** X8: when no arrow link has its tail on a shape anchor of the pool, as
    when every arrow starts from a floating node, the collapser returns the
    empty list, whatever the links reach. *)
Theorem collapse_arrow_chains_no_outgoing fuel pool arrows :
  (S (length arrows) < fuel)%nat →
  (∀ a c, a ∈ arrows → c ∈ pool → conn_type c = "shape" →
          tail_id a ≠ conn_id c) →
  collapse_arrow_chains fuel pool arrows = Some [].
Proof.
  intros Hfuel Hout.
  destruct (collapse_arrow_chains_spec fuel pool arrows Hfuel)
    as (edges & -> & _ & Hmem).
  f_equal. destruct edges as [|e edges]; [done|]. exfalso.
  destruct (Hmem e) as [Hin _].
  destruct Hin as (_ & s & Hs & Hts & t & Hreach & Hne & _);
    [by apply elem_of_cons; left|].
  apply rtc_inv in Hreach as [Heq|(y & (a & Ha & Htail & _) & _)];
    [by rewrite Heq in Hne|].
  by apply (Hout a s).
Qed.

Lemma collapse_arrow_chains_no_outgoing_witness :
  (S (length (drop 1 Example.arrows)) < 3)%nat ∧
  (∀ a c, a ∈ drop 1 Example.arrows → c ∈ Example.pool →
          conn_type c = "shape" → tail_id a ≠ conn_id c) ∧
  drop 1 Example.arrows ≠ [] ∧
  collapse_arrow_chains 3 Example.pool (drop 1 Example.arrows) = Some [].
Proof.
  assert (S (length (drop 1 Example.arrows)) < 3)%nat as Hfuel
    by (simpl; lia).
  assert (∀ a c, a ∈ drop 1 Example.arrows → c ∈ Example.pool →
                 conn_type c = "shape" → tail_id a ≠ conn_id c) as Hout.
  { intros a c Ha Hc Hshape.
    apply list_elem_of_singleton in Ha as ->.
    assert (Forall (fun c => conn_type c = "shape" → conn_id c ≠ 8%Z)
                   Example.pool) as Hall.
    { repeat constructor; simpl; intros; congruence. }
    rewrite Forall_forall in Hall. intros Heq.
    by apply (Hall c Hc Hshape). }
  split; [exact Hfuel|]. split; [exact Hout|]. split; [done|].
  exact (collapse_arrow_chains_no_outgoing 3 Example.pool
           (drop 1 Example.arrows) Hfuel Hout).
Defined.

(** ** Serializer: when [build_nxn_matrix] raises *)

Lemma py_index_is_Some n i :
  is_Some (py_index n i) ↔ (- Z.of_nat n ≤ i < Z.of_nat n)%Z.
Proof.
  unfold py_index. repeat case_decide; split; intros H'; try lia;
    try (by eexists); by destruct H' as [? ?].
Qed.

Lemma py_index_lt n i r : py_index n i = Some r → (r < n)%nat.
Proof.
  unfold py_index. repeat case_decide; intros [= <-]; lia.
Qed.

Lemma matrix_set_py n matrix i j ri cj :
  square n matrix → py_index n i = Some ri → py_index n j = Some cj →
  ∃ matrix',
    matrix_set matrix (Some i, Some j) = Some matrix' ∧
    square n matrix' ∧
    ∀ a b, entry matrix' a b
           = if decide (a = ri ∧ b = cj) then Some 1%Z else entry matrix a b.
Proof.
  intros [Hlen Hrows] Hi Hj. unfold matrix_set.
  pose proof (py_index_lt _ _ _ Hi) as Hri.
  pose proof (py_index_lt _ _ _ Hj) as Hcj.
  rewrite Hlen, Hi. simpl.
  destruct (lookup_lt_is_Some_2 matrix ri) as [row Hrow]; [lia|].
  rewrite Hrow. simpl.
  assert (length row = n) as Hrl.
  { apply Hrows. apply list_elem_of_lookup. by exists ri. }
  rewrite Hrl, Hj. simpl.
  eexists. split; [done|]. split.
  - split; [by rewrite length_insert|].
    intros row' Hin. apply list_elem_of_lookup in Hin as [a Ha].
    destruct (decide (a = ri)) as [->|Hne].
    + rewrite list_lookup_insert_eq in Ha by lia.
      injection Ha as <-. by rewrite length_insert.
    + rewrite list_lookup_insert_ne in Ha by done.
      apply Hrows. apply list_elem_of_lookup. by exists a.
  - intros a b. unfold entry.
    destruct (decide (a = ri)) as [->|Hne].
    + rewrite list_lookup_insert_eq by lia. rewrite Hrow. simpl.
      destruct (decide (b = cj)) as [->|Hnb].
      * rewrite decide_True by done. apply list_lookup_insert_eq. lia.
      * rewrite decide_False by tauto. by apply list_lookup_insert_ne.
    + rewrite list_lookup_insert_ne by done. by rewrite decide_False by tauto.
Qed.

Lemma matrix_set_addressable n matrix e :
  square n matrix → is_Some (matrix_set matrix e) → edge_addressable n e.
Proof.
  intros [Hlen Hrows]. unfold matrix_set.
  destruct e as [[i|] [j|]]; try by intros [? ?].
  rewrite Hlen. destruct (py_index n i) as [ri|] eqn:Hi; [|by intros [? ?]].
  simpl. destruct (matrix !! ri) as [row|] eqn:Hrow; [|by intros [? ?]].
  simpl. assert (length row = n) as ->.
  { apply Hrows. apply list_elem_of_lookup. by exists ri. }
  destruct (py_index n j) as [cj|] eqn:Hj; [|by intros [? ?]].
  intros _. exists i, j. split; [done|].
  split; apply py_index_is_Some; by eexists.
Qed.

Lemma matrix_fill_py n edges matrix :
  square n matrix → (∀ e, e ∈ edges → edge_addressable n e) →
  ∃ matrix',
    matrix_fill matrix edges = Some matrix' ∧
    square n matrix' ∧
    ∀ a b,
      (entry matrix' a b = Some 1%Z ∧
       ((∃ i j, (Some i, Some j) ∈ edges ∧
                py_index n i = Some a ∧ py_index n j = Some b)
        ∨ entry matrix a b = Some 1%Z))
      ∨ (entry matrix' a b = entry matrix a b ∧
         ¬ ∃ i j, (Some i, Some j) ∈ edges ∧
                  py_index n i = Some a ∧ py_index n j = Some b).
Proof.
  revert matrix. induction edges as [|e edges IH]; intros matrix Hsq Hall.
  - exists matrix. split; [done|]. split; [done|]. intros a b. right.
    split; [done|]. intros (i & j & Hin & _). by apply elem_of_nil in Hin.
  - destruct (Hall e) as (i & j & -> & Hi & Hj); [by apply elem_of_cons; left|].
    apply py_index_is_Some in Hi as [ri Hri].
    apply py_index_is_Some in Hj as [cj Hcj].
    destruct (matrix_set_py n matrix i j ri cj Hsq Hri Hcj)
      as (m1 & Hset & Hsq1 & H1).
    destruct (IH m1 Hsq1) as (m2 & Hfill & Hsq2 & H2).
    { intros e He. apply Hall. apply elem_of_cons. by right. }
    exists m2. cbn [matrix_fill]. rewrite Hset. simpl.
    split; [done|]. split; [done|].
    intros a b. specialize (H2 a b). rewrite H1 in H2.
    destruct H2 as [[Hone Hwhy]|[Hsame Hnot]].
    + left. split; [done|].
      destruct Hwhy as [(i' & j' & Hin & ? & ?)|Hwhy].
      * left. exists i', j'. split; [|done]. apply elem_of_cons. by right.
      * case_decide as Hab; [|by right].
        destruct Hab as [-> ->]. left. exists i, j.
        split; [by apply elem_of_cons; left|done].
    + case_decide as Hab.
      * destruct Hab as [-> ->]. left. split; [done|]. left. exists i, j.
        split; [by apply elem_of_cons; left|done].
      * right. split; [done|]. intros (i' & j' & Hin & Hi' & Hj').
        apply elem_of_cons in Hin as [[= <- <-]|Hin].
        -- apply Hab. split; congruence.
        -- apply Hnot. by exists i', j'.
Qed.

Lemma matrix_fill_addressable n edges matrix :
  square n matrix → is_Some (matrix_fill matrix edges) →
  ∀ e, e ∈ edges → edge_addressable n e.
Proof.
  revert matrix. induction edges as [|e edges IH]; intros matrix Hsq Hfill.
  - intros e He. by apply elem_of_nil in He.
  - cbn [matrix_fill] in Hfill.
    destruct (matrix_set matrix e) as [m1|] eqn:Hset;
      [|by destruct Hfill as [? ?]].
    simpl in Hfill.
    assert (edge_addressable n e) as He.
    { apply (matrix_set_addressable n matrix); [done|]. rewrite Hset. by eexists. }
    destruct He as (i & j & -> & Hi & Hj).
    pose proof Hi as Hi'. pose proof Hj as Hj'.
    apply py_index_is_Some in Hi' as [ri Hri].
    apply py_index_is_Some in Hj' as [cj Hcj].
    destruct (matrix_set_py n matrix i j ri cj Hsq Hri Hcj)
      as (m1' & Hset' & Hsq1 & _).
    rewrite Hset in Hset'. injection Hset' as <-.
    intros e He. apply elem_of_cons in He as [->|He].
    + by exists i, j.
    + by apply (IH m1).
Qed.

(** X9: [build_nxn_matrix] returns exactly when both ends of every edge are
    integers in [-N, N) for the N shapes; any other end ([None], or an
    index outside that range) makes the assignment [matrix[i][j] = 1]
    raise.  When it returns, the matrix is N x N with entries 0 and 1, and
    an entry is 1 exactly when some edge addresses it, a negative end
    counting from the last row or column. *)
Theorem build_nxn_matrix_returns_iff shape_positions edges :
  let n := length shape_positions in
  (is_Some (build_nxn_matrix shape_positions edges) ↔
   ∀ e, e ∈ edges → edge_addressable n e) ∧
  ∀ matrix shape_mapping,
    build_nxn_matrix shape_positions edges = Some (matrix, shape_mapping) →
    square n matrix ∧
    ∀ a b, (a < n)%nat → (b < n)%nat →
      (entry matrix a b = Some 0%Z ∨ entry matrix a b = Some 1%Z) ∧
      (entry matrix a b = Some 1%Z ↔
       ∃ i j, (Some i, Some j) ∈ edges ∧
              py_index n i = Some a ∧ py_index n j = Some b).
Proof.
  intros n. unfold build_nxn_matrix. fold n.
  pose proof (zero_matrix_square n) as Hsq0. split.
  - split.
    + intros Hsome. apply (matrix_fill_addressable n edges _ Hsq0).
      destruct (matrix_fill _ edges) as [m|]; [by eexists|].
      by destruct Hsome as [? ?].
    + intros Hall.
      destruct (matrix_fill_py n edges _ Hsq0 Hall) as (m & -> & _).
      simpl. by eexists.
  - intros matrix shape_mapping Hbuild.
    destruct (matrix_fill (replicate n (replicate n 0%Z)) edges)
      as [m|] eqn:Hfill; [|done].
    simpl in Hbuild. injection Hbuild as <- _.
    assert (∀ e, e ∈ edges → edge_addressable n e) as Hall.
    { apply (matrix_fill_addressable n edges _ Hsq0). rewrite Hfill.
      by eexists. }
    destruct (matrix_fill_py n edges _ Hsq0 Hall) as (m' & Hfill' & Hsq & Hent).
    rewrite Hfill in Hfill'. injection Hfill' as <-.
    split; [done|]. intros a b Ha Hb.
    pose proof (zero_matrix_entry n a b Ha Hb) as Hzero.
    destruct (Hent a b) as [[Hone [Hwhy|Hwhy]]|[Hsame Hnot]].
    + split; [by right|]. by split.
    + rewrite Hzero in Hwhy. discriminate Hwhy.
    + rewrite Hzero in Hsame. split; [by left|].
      rewrite Hsame. split; [discriminate|]. by intros H'.
Qed.

(** Negative ends wrap: with two shapes, the edge (-1, 0) sets row 1. *)
Example build_nxn_matrix_negative_index :
  fst <$> build_nxn_matrix Example.shapes [(Some (-1), Some 0)]%Z
  = Some [[0; 0]; [1; 0]]%Z
  ∧ build_nxn_matrix Example.shapes [(Some 2, Some 0)]%Z = None
  ∧ build_nxn_matrix Example.shapes [(None, Some 0%Z)] = None.
Proof. vm_compute. by split_and!. Qed.

(** ** Serializer: the two documents describe the same shapes *)

Lemma SHAPE_NAME_MAP_shape_class class_id default :
  is_shape_class class_id = true →
  dict_get SHAPE_NAME_MAP class_id default
  = dict_get SHAPE_NAME_MAP class_id None
  ∧ is_Some (dict_get SHAPE_NAME_MAP class_id None).
Proof.
  unfold is_shape_class. rewrite bool_decide_eq_true.
  rewrite !elem_of_cons, elem_of_nil.
  intros [-> | [-> | [-> | [-> | [-> | []]]]]]; by split; [|eexists].
Qed.

(** X10: for the shapes of [draw_shapes], the k-th node of the chart
    document and the k-th entry of the matrix document's shape list carry
    the same id k, class, bounding box and centre, and the same name, which
    is one of the five names of [SHAPE_NAME_MAP]: neither [None] nor the
    ["Class n"] fallback occurs. *)
Theorem documents_agree_on_shapes results edges arrows ocr_dict matrix
    shape_mapping :
  let shapes := draw_shapes results in
  let nodes := chart_nodes (build_chart_json shapes edges arrows ocr_dict) in
  build_nxn_matrix shapes edges = Some (matrix, shape_mapping) →
  length nodes = length shapes ∧ length shape_mapping = length shapes ∧
  ∀ k, (k < length shapes)%nat →
    ∃ node m,
      nodes !! k = Some node ∧ shape_mapping !! k = Some m ∧
      node_id node = Z.of_nat k ∧ mapping_id m = Z.of_nat k ∧
      node_class_id node = mapping_class_id m ∧
      node_name node = mapping_name m ∧ is_Some (node_name node) ∧
      node_bbox node = mapping_bbox m ∧ node_center node = mapping_center m.
Proof.
  intros shapes nodes Hbuild. subst nodes. unfold build_nxn_matrix in Hbuild.
  destruct (matrix_fill _ edges) as [m0|]; [|done]. simpl in Hbuild.
  injection Hbuild as _ <-. unfold build_chart_json. cbn [chart_nodes].
  rewrite !length_map. split; [done|]. split; [done|].
  intros k Hk. destruct (lookup_lt_is_Some_2 shapes k Hk) as [s Hs].
  change (map ?f shapes) with (f <$> shapes). rewrite !list_lookup_fmap, Hs.
  simpl. eexists _, _. split; [done|]. split; [done|]. simpl.
  destruct (draw_shapes_lookup results k s Hs) as (b & _ & Hc & ->). simpl.
  destruct (SHAPE_NAME_MAP_shape_class (box_cls b)
              (Some ("Class " +:+ pretty (box_cls b))) Hc) as [Heq Hsome].
  by rewrite Heq.
Qed.

Lemma documents_agree_on_shapes_witness :
  ∃ matrix shape_mapping,
    build_nxn_matrix (draw_shapes Example.results) [(Some 0, Some 1)]%Z
    = Some (matrix, shape_mapping) ∧
    length (chart_nodes (build_chart_json (draw_shapes Example.results)
                           [(Some 0, Some 1)]%Z Example.arrows ∅))
    = length (draw_shapes Example.results) ∧
    length shape_mapping = length (draw_shapes Example.results) ∧
    ∀ k, (k < length (draw_shapes Example.results))%nat →
      ∃ node m,
        chart_nodes (build_chart_json (draw_shapes Example.results)
                       [(Some 0, Some 1)]%Z Example.arrows ∅) !! k
        = Some node ∧
        shape_mapping !! k = Some m ∧
        node_id node = Z.of_nat k ∧ mapping_id m = Z.of_nat k ∧
        node_class_id node = mapping_class_id m ∧
        node_name node = mapping_name m ∧ is_Some (node_name node) ∧
        node_bbox node = mapping_bbox m ∧ node_center node = mapping_center m.
Proof.
  destruct (build_nxn_matrix (draw_shapes Example.results)
              [(Some 0, Some 1)]%Z) as [[matrix shape_mapping]|] eqn:Hbuild;
    [|vm_compute in Hbuild; discriminate Hbuild].
  exists matrix, shape_mapping. split; [reflexivity|].
  exact (documents_agree_on_shapes Example.results [(Some 0, Some 1)]%Z
           Example.arrows ∅ matrix shape_mapping Hbuild).
Defined.

(** ** Text inside quotes *)

Lemma lazy_group_body body post :
  occurs quote_char body = false → occurs newline_char body = false →
  lazy_group (body +:+ String quote_char post) = Some body.
Proof.
  induction body as [|c body IH]; simpl; [done|].
  rewrite !orb_false_iff. intros [Hq Hqs] [Hn Hns].
  rewrite Hq, Hn, IH by done. done.
Qed.

Lemma lazy_group_no_quote s group :
  lazy_group s = Some group → occurs quote_char group = false.
Proof.
  revert group. induction s as [|c s IH]; intros group; simpl; [done|].
  destruct (Ascii.eqb c quote_char) eqn:Hq; [by intros [= <-]|].
  destruct (Ascii.eqb c newline_char); [done|].
  destruct (lazy_group s) as [g|]; [|done].
  intros [= <-]. simpl. by rewrite Hq, (IH g).
Qed.

Lemma search_quoted_no_quote metin group :
  search_quoted metin = Some group → occurs quote_char group = false.
Proof.
  induction metin as [|c metin IH]; simpl; [done|].
  destruct (Ascii.eqb c quote_char); [|done].
  destruct (lazy_group metin) as [g|] eqn:Hg; [|done].
  intros [= <-]. by eapply lazy_group_no_quote.
Qed.

Lemma search_quoted_without_quote metin :
  occurs quote_char metin = false → search_quoted metin = None.
Proof.
  induction metin as [|c metin IH]; simpl; [done|].
  rewrite orb_false_iff. intros [-> Hq]. by apply IH.
Qed.

(** X11: when the text is [pre], a quote, [body], a quote and [post], with
    no quote in [pre] and neither a quote nor a newline in [body],
    [icerigi_al] returns [body]: the text between the first pair of
    quotes. *)
Theorem icerigi_al_extracts pre body post :
  occurs quote_char pre = false →
  occurs quote_char body = false → occurs newline_char body = false →
  icerigi_al (pre +:+ String quote_char (body +:+ String quote_char post))
  = body.
Proof.
  intros Hpre Hq Hn. unfold icerigi_al.
  assert (search_quoted
            (pre +:+ String quote_char (body +:+ String quote_char post))
          = Some body) as ->; [|done].
  induction pre as [|c pre IH]; simpl in *.
  - by rewrite lazy_group_body.
  - apply orb_false_iff in Hpre as [-> Hpre]. by apply IH.
Qed.

Lemma icerigi_al_extracts_witness :
  occurs quote_char "The text is: " = false ∧
  occurs quote_char "Start" = false ∧ occurs newline_char "Start" = false ∧
  icerigi_al ("The text is: " +:+
              String quote_char ("Start" +:+ String quote_char "."))
  = "Start".
Proof.
  split; [reflexivity|]. split; [reflexivity|]. split; [reflexivity|].
  exact (icerigi_al_extracts "The text is: " "Start" "." eq_refl eq_refl
           eq_refl).
Defined.

Lemma icerigi_al_without_quote metin :
  occurs quote_char metin = false → icerigi_al metin = metin.
Proof.
  intros Hq. unfold icerigi_al. by rewrite search_quoted_without_quote.
Qed.

(** X12: a text without a quote is returned as it is; the result of
    [icerigi_al] holds no quote unless it is the whole input, and applying
    [icerigi_al] again changes nothing. *)
Theorem icerigi_al_idempotent metin :
  (occurs quote_char metin = false → icerigi_al metin = metin) ∧
  (icerigi_al metin = metin ∨ occurs quote_char (icerigi_al metin) = false) ∧
  icerigi_al (icerigi_al metin) = icerigi_al metin.
Proof.
  split.
  { intros Hq. unfold icerigi_al. by rewrite search_quoted_without_quote. }
  unfold icerigi_al at 1 2 4 5.
  destruct (search_quoted metin) as [group|] eqn:Hs.
  - pose proof (search_quoted_no_quote _ _ Hs) as Hq.
    split; [by right|]. unfold icerigi_al.
    by rewrite search_quoted_without_quote.
  - split; [by left|]. unfold icerigi_al. by rewrite Hs.
Qed.

(** A newline between two quotes defeats the match at the first quote; the
    search goes on from the second. *)
Example icerigi_al_newline :
  icerigi_al (String quote_char ("a" +:+ String newline_char
               ("b" +:+ String quote_char ("c" +:+ String quote_char "d"))))
  = "c".
Proof. reflexivity. Qed.

(** ** Re-creation from the matrix document: arrow endpoints *)

(** X13: for two shapes whose centres differ, the arrow computed from
    [target] to [source] is the arrow from [source] to [target] reversed:
    the same two edge midpoints, swapped. *)
Theorem compute_arrow_endpoints_reverse source target sx sy sw sh scx scy
    tx ty tw th tcx tcy :
  js_bbox source = [sx; sy; sw; sh] → js_center source = [scx; scy] →
  js_bbox target = [tx; ty; tw; th] → js_center target = [tcx; tcy] →
  ¬ (scx == tcx ∧ scy == tcy)%Q →
  ∃ source_pt target_pt,
    RecreateFromMatrix.compute_arrow_endpoints source target
    = Some (source_pt, target_pt) ∧
    RecreateFromMatrix.compute_arrow_endpoints target source
    = Some (target_pt, source_pt).
Proof.
  intros Hsb Hsc Htb Htc Hne.
  unfold RecreateFromMatrix.compute_arrow_endpoints.
  rewrite Hsb, Hsc, Htb, Htc.
  destruct (Qltb scy tcy) eqn:E1; destruct (Qltb tcy scy) eqn:E2;
    rewrite ?Qltb_true, ?Qltb_false in E1, E2.
  - lra.
  - by eexists _, _.
  - by eexists _, _.
  - destruct (Qltb scx tcx) eqn:E3; destruct (Qltb tcx scx) eqn:E4;
      rewrite ?Qltb_true, ?Qltb_false in E3, E4.
    + lra.
    + by eexists _, _.
    + by eexists _, _.
    + exfalso. apply Hne. split; lra.
Qed.

Lemma compute_arrow_endpoints_reverse_witness :
  let source := JsonShape 0 7 (Some "Process") [0; 0; 20; 10]%Z [10; 5]%Q None in
  let target := JsonShape 1 9 (Some "Start/End") [0; 40; 20; 10]%Z [10; 45]%Q
                          None in
  ¬ (10 == 10 ∧ 5 == 45)%Q ∧
  ∃ source_pt target_pt,
    RecreateFromMatrix.compute_arrow_endpoints source target
    = Some (source_pt, target_pt) ∧
    RecreateFromMatrix.compute_arrow_endpoints target source
    = Some (target_pt, source_pt).
Proof.
  intros source target.
  assert (¬ (10 == 10 ∧ 5 == 45)%Q) as Hne by (intros [_ H]; discriminate H).
  split; [exact Hne|].
  exact (compute_arrow_endpoints_reverse source target 0 0 20 10 10 5
           0 40 20 10 10 45 eq_refl eq_refl eq_refl eq_refl Hne).
Defined.

(** Two shapes with the same centre are joined from the left edge of the
    source to the right edge of the target, in both directions. *)
Example compute_arrow_endpoints_same_centre :
  let s := JsonShape 0 7 None [0; 0; 20; 10]%Z [10; 5]%Q None in
  RecreateFromMatrix.compute_arrow_endpoints s s
  = Some ((inject_Z 0, 5), (inject_Z (0 + 20), 5))%Q.
Proof. reflexivity. Qed.

(** ** Re-creation of the drawing from the documents *)

Lemma mapM_Some_fmap {A B C} (f : B → option C) (g : A → B) (h : A → C)
    (l : list A) :
  (∀ x, x ∈ l → f (g x) = Some (h x)) → mapM f (g <$> l) = Some (h <$> l).
Proof.
  induction l as [|x l IH]; intros Hf; [done|].
  rewrite !fmap_cons. simpl.
  rewrite Hf by (by apply elem_of_cons; left). simpl.
  rewrite IH; [done|]. intros y Hy. apply Hf. apply elem_of_cons. by right.
Qed.

Lemma build_nxn_matrix_shape_mapping shape_positions edges matrix
    shape_mapping :
  build_nxn_matrix shape_positions edges = Some (matrix, shape_mapping) →
  shape_mapping = shape_mapping_of <$> shape_positions.
Proof.
  unfold build_nxn_matrix. destruct (matrix_fill _ edges); [|done].
  simpl. by intros [= _ <-].
Qed.

Lemma create_shape_mapping_entry k b :
  is_shape_class (box_cls b) = true →
  create_shape (load_mapping_entry (shape_mapping_of (shape_of_box k b)))
  = Some (shape_obj (shape_of_box k b)).
Proof.
  unfold is_shape_class. rewrite bool_decide_eq_true.
  rewrite !elem_of_cons, elem_of_nil. destruct b as [cls x1 y1 x2 y2]. simpl.
  intros [-> | [-> | [-> | [-> | [-> | []]]]]]; reflexivity.
Qed.

(** X14: re-creating the shapes from the matrix document draws, in order,
    exactly the shapes that [draw_shapes] drew: same Word shape type,
    position, size and fill colour, labelled with the class name. *)
Theorem recreate_shapes_from_matrix results edges matrix shape_mapping :
  build_nxn_matrix (draw_shapes results) edges = Some (matrix, shape_mapping) →
  create_shapes (load_mapping_entry <$> shape_mapping)
  = Some (shape_obj <$> draw_shapes results).
Proof.
  intros Hbuild. apply build_nxn_matrix_shape_mapping in Hbuild as ->.
  unfold create_shapes. rewrite <- list_fmap_compose.
  apply mapM_Some_fmap.
  intros s Hs. apply list_elem_of_lookup in Hs as [k Hk].
  apply draw_shapes_lookup in Hk as (b & _ & Hc & ->). simpl.
  by apply create_shape_mapping_entry.
Qed.

Lemma recreate_shapes_from_matrix_witness :
  ∃ matrix shape_mapping,
    build_nxn_matrix (draw_shapes Example.results) [(Some 0, Some 1)]%Z
    = Some (matrix, shape_mapping) ∧
    create_shapes (load_mapping_entry <$> shape_mapping)
    = Some (shape_obj <$> draw_shapes Example.results).
Proof.
  destruct (build_nxn_matrix (draw_shapes Example.results)
              [(Some 0, Some 1)]%Z) as [[matrix shape_mapping]|] eqn:Hbuild;
    [|vm_compute in Hbuild; discriminate Hbuild].
  exists matrix, shape_mapping. split; [reflexivity|].
  exact (recreate_shapes_from_matrix Example.results [(Some 0, Some 1)]%Z
           matrix shape_mapping Hbuild).
Defined.

Lemma create_shape_chart_node ocr_dict k b :
  is_shape_class (box_cls b) = true →
  let s := shape_of_box k b in
  create_shape
    (load_chart_node
       (ChartNode (shape_id s) (shape_class_id s)
                  (dict_get SHAPE_NAME_MAP (shape_class_id s) None)
                  [shape_x1 s; shape_y1 s; shape_width s; shape_height s]
                  [shape_cx s; shape_cy s]
                  (map (fun kv => (fst kv, tuple_to_list (snd kv)))
                       (shape_edge_centers s))
                  (default "" (ocr_dict !! shape_id s))))
  = Some (relabelled ocr_dict s).
Proof.
  unfold is_shape_class. rewrite bool_decide_eq_true.
  rewrite !elem_of_cons, elem_of_nil. destruct b as [cls x1 y1 x2 y2].
  unfold relabelled, create_shape, load_chart_node. simpl.
  intros [-> | [-> | [-> | [-> | [-> | []]]]]];
    by destruct (default "" (ocr_dict !! Z.of_nat k)).
Qed.

(** X15: re-creating the shapes from the chart document draws, in order,
    the shapes of [draw_shapes] with the same Word shape type, position,
    size and fill colour as [main] leaves them; the text is the OCR text
    when there is one and the class name otherwise, which is the text
    [main] writes whenever the OCR text is not empty and holds no quote. *)
Theorem recreate_shapes_from_chart results edges arrows ocr_dict :
  let shapes := draw_shapes results in
  create_shapes
    (load_chart_node
       <$> chart_nodes (build_chart_json shapes edges arrows ocr_dict))
  = Some (relabelled ocr_dict <$> shapes) ∧
  ∀ s, s ∈ shapes →
    let original := main_shape_obj ocr_dict s in
    let again := relabelled ocr_dict s in
    ws_type again = ws_type original ∧ is_Some (ws_type again) ∧
    ws_left again = ws_left original ∧ ws_top again = ws_top original ∧
    ws_width again = ws_width original ∧
    ws_height again = ws_height original ∧
    ws_fill again = ws_fill original ∧
    ∀ c text, ocr_dict !! shape_id s = Some (String c text) →
              occurs quote_char (String c text) = false →
              ws_text again = ws_text original.
Proof.
  intros shapes. split.
  - unfold create_shapes, build_chart_json. cbn [chart_nodes].
    change (map ?f shapes) with (f <$> shapes).
    rewrite <- list_fmap_compose. apply mapM_Some_fmap.
    intros s Hs. apply list_elem_of_lookup in Hs as [k Hk].
    apply draw_shapes_lookup in Hk as (b & _ & Hc & ->).
    by apply create_shape_chart_node.
  - intros s Hs original again. subst original again.
    unfold relabelled, main_shape_obj. cbn.
    split_and!; try done.
    + apply list_elem_of_lookup in Hs as [k Hk].
      apply draw_shapes_lookup in Hk as (b & _ & Hc & ->).
      by apply SHAPE_MAP_shape_class.
    + intros c text -> Hq. cbn.
      by rewrite (icerigi_al_without_quote (String c text) Hq).
Qed.

(** X16: re-creating the arrows from the chart document draws, in order,
    exactly the lines that [process_arrow_detections] drew: from the point
    of the tail node to the point of the tip node of every arrow link. *)
Theorem recreate_arrows_from_chart shapes edges arrows ocr_dict :
  RecreateFromJson.create_arrows
    (chart_arrows (build_chart_json shapes edges arrows ocr_dict))
  = Some (arrow_line <$> arrows).
Proof.
  unfold RecreateFromJson.create_arrows, build_chart_json. cbn [chart_arrows].
  change (map ?f arrows) with (f <$> arrows).
  apply mapM_Some_fmap. intros a _.
  unfold RecreateFromJson.create_arrow, arrow_line. simpl.
  by destruct (conn_point (arrow_tail a)), (conn_point (arrow_tip a)).
Qed.

(** ** Re-creation from the matrix document: the lines *)

Lemma shape_dict_of_lookup shape_mapping k :
  (∀ i s, shape_mapping !! i = Some s → js_id s = Z.of_nat i) →
  RecreateFromMatrix.shape_dict_of shape_mapping !! Z.of_nat k
  = shape_mapping !! k.
Proof.
  unfold RecreateFromMatrix.shape_dict_of.
  induction shape_mapping as [|s l IH] using rev_ind; intros Hids.
  - simpl. by rewrite lookup_empty, lookup_nil.
  - rewrite fold_left_app. simpl.
    assert (js_id s = Z.of_nat (length l)) as Hs.
    { apply Hids. by rewrite list_lookup_middle. }
    assert (∀ i s', l !! i = Some s' → js_id s' = Z.of_nat i) as Hl.
    { intros i s' Hi. apply Hids. by apply lookup_app_l_Some. }
    destruct (decide (k = length l)) as [->|Hne].
    + rewrite Hs, lookup_insert_eq. by rewrite list_lookup_middle.
    + rewrite lookup_insert_ne by lia. rewrite (IH Hl).
      destruct (decide (k < length l)%nat).
      * by rewrite lookup_app_l.
      * rewrite !lookup_ge_None_2; [done| |lia].
        rewrite length_app. simpl. lia.
Qed.

Lemma compute_arrow_endpoints_is_Some source target i j :
  well_formed_shape i source → well_formed_shape j target →
  is_Some (RecreateFromMatrix.compute_arrow_endpoints source target).
Proof.
  intros (_ & Hsb & Hsc) (_ & Htb & Htc).
  unfold RecreateFromMatrix.compute_arrow_endpoints.
  destruct (js_bbox source) as [|? [|? [|? [|? [|]]]]]; try done.
  destruct (js_center source) as [|? [|? [|]]]; try done.
  destruct (js_bbox target) as [|? [|? [|? [|? [|]]]]]; try done.
  destruct (js_center target) as [|? [|? [|]]]; try done.
Qed.

Lemma create_arrows_cell_eq n matrix shape_mapping i j lines :
  square n matrix → length shape_mapping = n →
  (∀ k s, shape_mapping !! k = Some s → well_formed_shape k s) →
  (i < n)%nat → (j < n)%nat →
  RecreateFromMatrix.create_arrows_cell matrix
    (RecreateFromMatrix.shape_dict_of shape_mapping) i j lines
  = Some (lines ++ cell_lines matrix shape_mapping (i, j)).
Proof.
  intros [Hlen Hrows] Hn Hwf Hi Hj.
  unfold RecreateFromMatrix.create_arrows_cell, cell_lines, entry. simpl.
  destruct (lookup_lt_is_Some_2 matrix i) as [row Hrow]; [lia|].
  rewrite Hrow. simpl.
  assert (length row = n) as Hrl.
  { apply Hrows. by eapply list_elem_of_lookup_2. }
  destruct (lookup_lt_is_Some_2 row j) as [x Hx]; [lia|].
  rewrite Hx. simpl.
  destruct (decide (x = 1%Z)) as [->|Hne].
  - rewrite decide_True by done.
    rewrite !shape_dict_of_lookup
      by (intros k s Hk; by destruct (Hwf k s Hk)).
    unfold matrix_line.
    destruct (lookup_lt_is_Some_2 shape_mapping i) as [source Hs]; [lia|].
    destruct (lookup_lt_is_Some_2 shape_mapping j) as [target Ht]; [lia|].
    rewrite Hs, Ht. simpl.
    destruct (compute_arrow_endpoints_is_Some source target i j)
      as [[source_pt target_pt] ->]; [by apply Hwf..|].
    done.
  - rewrite decide_False by congruence. by rewrite app_nil_r.
Qed.

Lemma row_major_bind {A} (c : nat * nat → list A) (rows cols : list nat) :
  (rows ≫= (fun i => (fun j => (i, j)) <$> cols)) ≫= c
  = rows ≫= (fun i => cols ≫= (fun j => c (i, j))).
Proof.
  induction rows as [|i rows IH]; [done|].
  rewrite !bind_cons, bind_app, IH. f_equal. clear IH.
  induction cols as [|j cols IHc]; [done|].
  by rewrite fmap_cons, !bind_cons, IHc.
Qed.

Lemma for_range_append {A} (n : nat) (body : nat → list A → option (list A))
    (g : nat → list A) init :
  (∀ k acc, (k < n)%nat → body k acc = Some (acc ++ g k)) →
  RecreateFromMatrix.for_range n body init
  = Some (init ++ (seq 0 n ≫= g)).
Proof.
  unfold RecreateFromMatrix.for_range. intros Hbody.
  assert (∀ k, k ∈ seq 0 n → (k < n)%nat) as Hseq.
  { intros k Hk. apply elem_of_seq in Hk. lia. }
  revert init. induction (seq 0 n) as [|k l IH]; intros init; simpl.
  - by rewrite app_nil_r.
  - rewrite Hbody by (apply Hseq; by apply elem_of_cons; left).
    rewrite IH; [by rewrite <- app_assoc|].
    intros k' Hk'. apply Hseq. apply elem_of_cons. by right.
Qed.

(** The lines of a matrix, cell by cell. *)
Lemma create_arrows_from_matrix_lines_aux matrix shape_mapping :
  square (length matrix) matrix → length shape_mapping = length matrix →
  (∀ k s, shape_mapping !! k = Some s → well_formed_shape k s) →
  RecreateFromMatrix.create_arrows_from_matrix matrix shape_mapping
  = Some (row_major (length matrix) ≫= cell_lines matrix shape_mapping) ∧
  ∀ i j, (i < length matrix)%nat → (j < length matrix)%nat →
         is_Some (matrix_line shape_mapping i j).
Proof.
  intros Hsq Hn Hwf. split.
  - unfold RecreateFromMatrix.create_arrows_from_matrix. cbv zeta.
    rewrite (for_range_append _ _
               (fun i => seq 0 (length matrix)
                           ≫= (fun j => cell_lines matrix shape_mapping (i, j)))).
    + simpl. f_equal. unfold row_major. by rewrite row_major_bind.
    + intros i acc Hi.
      apply (for_range_append _ _
               (fun j => cell_lines matrix shape_mapping (i, j))).
      intros j acc' Hj. by eapply create_arrows_cell_eq.
  - intros i j Hi Hj. unfold matrix_line.
    destruct (lookup_lt_is_Some_2 shape_mapping i) as [source Hs]; [lia|].
    destruct (lookup_lt_is_Some_2 shape_mapping j) as [target Ht]; [lia|].
    rewrite Hs, Ht. simpl.
    destruct (compute_arrow_endpoints_is_Some source target i j)
      as [[source_pt target_pt] ->]; [by apply Hwf..|].
    by eexists.
Qed.

(** X17: on an N x N matrix and a list of N shapes whose ids are their
    positions, [create_arrows_from_matrix] returns without raising and
    draws, cell by cell in row-major order, one line for every cell that
    holds 1: from the shape of the row to the shape of the column, with the
    endpoints of [compute_arrow_endpoints]; cells holding anything else
    draw nothing. *)
Theorem create_arrows_from_matrix_lines matrix shape_mapping :
  square (length matrix) matrix → length shape_mapping = length matrix →
  (∀ k s, shape_mapping !! k = Some s → well_formed_shape k s) →
  RecreateFromMatrix.create_arrows_from_matrix matrix shape_mapping
  = Some (row_major (length matrix) ≫= cell_lines matrix shape_mapping) ∧
  ∀ i j, (i < length matrix)%nat → (j < length matrix)%nat →
         is_Some (matrix_line shape_mapping i j).
Proof. apply create_arrows_from_matrix_lines_aux. Qed.

Lemma create_arrows_from_matrix_lines_witness :
  let matrix := [[0; 1]; [0; 0]]%Z in
  let shape_mapping :=
    load_mapping_entry <$> (shape_mapping_of <$> Example.shapes) in
  square (length matrix) matrix ∧ length shape_mapping = length matrix ∧
  (∀ k s, shape_mapping !! k = Some s → well_formed_shape k s) ∧
  RecreateFromMatrix.create_arrows_from_matrix matrix shape_mapping
  = Some (row_major (length matrix) ≫= cell_lines matrix shape_mapping) ∧
  ∀ i j, (i < length matrix)%nat → (j < length matrix)%nat →
         is_Some (matrix_line shape_mapping i j).
Proof.
  intros matrix shape_mapping.
  assert (square (length matrix) matrix) as Hsq.
  { split; [reflexivity|]. intros row Hrow.
    apply elem_of_cons in Hrow as [->|Hrow]; [reflexivity|].
    apply list_elem_of_singleton in Hrow as ->. reflexivity. }
  assert (∀ k s, shape_mapping !! k = Some s → well_formed_shape k s) as Hwf.
  { intros [|[|k]] s Hk; simpl in Hk; [| |done];
      injection Hk as <-; by split_and!. }
  split; [exact Hsq|]. split; [reflexivity|]. split; [exact Hwf|].
  exact (create_arrows_from_matrix_lines matrix shape_mapping Hsq eq_refl Hwf).
Defined.

(** ** Re-creation from the matrix document: one line per final edge *)

Lemma elem_of_row_major n i j :
  (i, j) ∈ row_major n ↔ (i < n)%nat ∧ (j < n)%nat.
Proof.
  unfold row_major. rewrite list_elem_of_bind. split.
  - intros (i' & Hj & Hi). apply list_elem_of_fmap in Hj as (j' & [= -> ->] & Hj).
    apply elem_of_seq in Hi, Hj. lia.
  - intros [Hi Hj]. exists i. split.
    + apply list_elem_of_fmap. exists j. split; [done|]. apply elem_of_seq. lia.
    + apply elem_of_seq. lia.
Qed.

Lemma NoDup_row_major n : NoDup (row_major n).
Proof.
  unfold row_major. apply NoDup_bind.
  - intros i1 i2 [i j] _ _ H1 H2.
    apply list_elem_of_fmap in H1 as (? & [= -> ->] & _).
    by apply list_elem_of_fmap in H2 as (? & [= -> ->] & _).
  - intros i _. apply NoDup_fmap; [|apply NoDup_seq]. by intros j1 j2 [= ->].
  - apply NoDup_seq.
Qed.

Lemma length_bind_filter {A B} (P : A → Prop) `{∀ x, Decision (P x)}
    (f : A → list B) (l : list A) :
  (∀ x, x ∈ l → P x → length (f x) = 1%nat) →
  (∀ x, x ∈ l → ¬ P x → f x = []) →
  length (l ≫= f) = length (filter P l).
Proof.
  induction l as [|x l IH]; intros H1 H0; [done|].
  rewrite bind_cons, length_app, filter_cons.
  rewrite IH.
  - destruct (decide (P x)) as [HP|HP].
    + rewrite (H1 x) by (done || by apply elem_of_cons; left). done.
    + rewrite (H0 x) by (done || by apply elem_of_cons; left). done.
  - intros y Hy. apply H1. apply elem_of_cons. by right.
  - intros y Hy. apply H0. apply elem_of_cons. by right.
Qed.

Lemma shape_mapping_well_formed results k s :
  (load_mapping_entry <$> (shape_mapping_of <$> draw_shapes results)) !! k
  = Some s →
  well_formed_shape k s.
Proof.
  rewrite !list_lookup_fmap.
  destruct (draw_shapes results !! k) as [s0|] eqn:Hk; [|done].
  intros [= <-]. split; [|done]. simpl. by eapply draw_shapes_ids.
Qed.

(** X18: for a pipeline run, re-creating the arrows from the matrix
    document draws exactly one line per final edge: the line from shape i
    to shape j is drawn if and only if (i, j) is a final edge, and there
    are as many lines as final edges. *)
Theorem matrix_lines_are_final_edges results counter fuel shapes pool arrows
    counter' :
  reconstruct results counter = (shapes, pool, arrows, counter') →
  (S (length arrows) < fuel)%nat →
  ∃ edges matrix shape_mapping lines,
    collapse_arrow_chains fuel pool arrows = Some edges ∧
    build_nxn_matrix shapes edges = Some (matrix, shape_mapping) ∧
    RecreateFromMatrix.create_arrows_from_matrix
      matrix (load_mapping_entry <$> shape_mapping) = Some lines ∧
    length lines = length edges ∧
    ∀ l, l ∈ lines ↔
         ∃ i j, (Some (Z.of_nat i), Some (Z.of_nat j)) ∈ edges ∧
                matrix_line (load_mapping_entry <$> shape_mapping) i j
                = Some l.
Proof.
  intros Hrec Hfuel.
  destruct (reconstruct_edges_in_range _ _ _ _ _ _ _ Hrec Hfuel)
    as (edges & Hrun & Hrange).
  destruct (collapse_arrow_chains_spec fuel pool arrows Hfuel)
    as (edges' & Hrun' & Hnd & _).
  rewrite Hrun in Hrun'. injection Hrun' as <-.
  destruct (build_nxn_matrix_spec shapes edges Hrange)
    as (matrix & shape_mapping & Hbuild & Hsq & Hentry & Hmap).
  assert (shapes = draw_shapes results) as Hshapes.
  { unfold reconstruct in Hrec.
    destruct (build_connections_pool _ _) as [p c] in Hrec.
    destruct (process_arrow_detections _ _ _) as [[a p'] c'] in Hrec.
    by injection Hrec as <- _ _ _. }
  pose proof (build_nxn_matrix_shape_mapping _ _ _ _ Hbuild) as Hsm.
  set (n := length shapes) in *.
  assert (length matrix = n) as Hlen by apply Hsq.
  set (loaded := load_mapping_entry <$> shape_mapping).
  assert (length loaded = length matrix) as Hll.
  { unfold loaded. rewrite Hsm, !length_fmap. by rewrite Hlen. }
  assert (∀ k s, loaded !! k = Some s → well_formed_shape k s) as Hwf.
  { unfold loaded. rewrite Hsm, Hshapes. apply shape_mapping_well_formed. }
  rewrite <- Hlen in Hsq.
  destruct (create_arrows_from_matrix_lines_aux matrix loaded Hsq Hll Hwf)
    as [Hlines Hline].
  rewrite Hlen in Hlines, Hline.
  exists edges, matrix, shape_mapping, (row_major n ≫= cell_lines matrix loaded).
  split; [done|]. split; [done|]. split; [done|].
  assert (∀ i j, (i < n)%nat → (j < n)%nat →
                 entry matrix i j = Some 1%Z ↔
                 (Some (Z.of_nat i), Some (Z.of_nat j)) ∈ edges) as Hone.
  { intros i j Hi Hj. rewrite (Hentry i j Hi Hj).
    case_decide; split; try done. }
  assert (∀ i j, (Some (Z.of_nat i), Some (Z.of_nat j)) ∈ edges →
                 (i < n)%nat ∧ (j < n)%nat) as Hlt.
  { intros i j Hin. destruct (Hrange _ Hin) as (i' & j' & [= <- <-] & ? & ?).
    lia. }
  split.
  - rewrite (length_bind_filter
               (fun cell : nat * nat =>
                  (Some (Z.of_nat cell.1), Some (Z.of_nat cell.2)) ∈ edges)).
    + rewrite <- (length_fmap
                    (fun cell : nat * nat =>
                       (Some (Z.of_nat cell.1), Some (Z.of_nat cell.2)))).
      apply Permutation_length, NoDup_Permutation; [|done|].
      * apply NoDup_fmap; [|apply NoDup_filter, NoDup_row_major].
        intros [i1 j1] [i2 j2] [= Hi Hj]. f_equal; lia.
      * intros e. rewrite list_elem_of_fmap. split.
        -- intros ([i j] & -> & Hin). by apply list_elem_of_filter in Hin as [? _].
        -- intros Hin. destruct (Hrange _ Hin) as (i & j & -> & Hi & Hj).
           exists (Z.to_nat i, Z.to_nat j). simpl.
           rewrite !Z2Nat.id by lia. split; [done|].
           apply list_elem_of_filter. simpl. rewrite !Z2Nat.id by lia.
           split; [done|]. apply elem_of_row_major. lia.
    + intros [i j] Hcell Hin. apply elem_of_row_major in Hcell as [Hi Hj].
      unfold cell_lines. simpl in *.
      rewrite decide_True by (by apply Hone).
      by destruct (Hline i j Hi Hj) as [l ->].
    + intros [i j] Hcell Hnin. apply elem_of_row_major in Hcell as [Hi Hj].
      unfold cell_lines. simpl in *.
      rewrite decide_False; [done|]. intros H1. by apply Hnin, Hone.
  - intros l. rewrite list_elem_of_bind. split.
    + intros ([i j] & Hl & Hcell). apply elem_of_row_major in Hcell as [Hi Hj].
      unfold cell_lines in Hl. simpl in Hl.
      case_decide as H1; [|by apply elem_of_nil in Hl].
      exists i, j. split; [by apply Hone|]. fold loaded.
      destruct (matrix_line loaded i j) as [l'|]; simpl in Hl;
        [|by apply elem_of_nil in Hl].
      by apply list_elem_of_singleton in Hl as ->.
    + intros (i & j & Hin & Hl). destruct (Hlt i j Hin) as [Hi Hj].
      exists (i, j). split; [|by apply elem_of_row_major].
      unfold cell_lines. simpl. rewrite decide_True by (by apply Hone).
      fold loaded in Hl. rewrite Hl. by apply list_elem_of_singleton.
Qed.

Lemma matrix_lines_are_final_edges_witness :
  reconstruct Example.cyclic_results 0
  = (Example.shapes, Example.cyclic_pool, Example.cyclic_arrows, 8%Z) ∧
  (S (length Example.cyclic_arrows) < 4)%nat ∧
  ∃ edges matrix shape_mapping lines,
    collapse_arrow_chains 4 Example.cyclic_pool Example.cyclic_arrows
    = Some edges ∧
    build_nxn_matrix Example.shapes edges = Some (matrix, shape_mapping) ∧
    RecreateFromMatrix.create_arrows_from_matrix
      matrix (load_mapping_entry <$> shape_mapping) = Some lines ∧
    length lines = length edges ∧
    ∀ l, l ∈ lines ↔
         ∃ i j, (Some (Z.of_nat i), Some (Z.of_nat j)) ∈ edges ∧
                matrix_line (load_mapping_entry <$> shape_mapping) i j
                = Some l.
Proof.
  assert (reconstruct Example.cyclic_results 0
          = (Example.shapes, Example.cyclic_pool, Example.cyclic_arrows, 8%Z))
    as Hrec by (vm_compute; reflexivity).
  assert (S (length Example.cyclic_arrows) < 4)%nat as Hfuel by (simpl; lia).
  split; [exact Hrec|]. split; [exact Hfuel|].
  exact (matrix_lines_are_final_edges Example.cyclic_results 0 4
           Example.shapes Example.cyclic_pool Example.cyclic_arrows 8
           Hrec Hfuel).
Defined.

(** ** Chain collapser: how the edges depend on the arrow links *)

Lemma reach_mono arrows arrows' u v :
  (∀ a, a ∈ arrows → a ∈ arrows') →
  reach arrows u v → reach arrows' u v.
Proof.
  intros Hsub. apply rtc_subrel. intros x y (a & Ha & Ht & Hp).
  exists a. split; [by apply Hsub|done].
Qed.

Lemma seed_edge_mono pool arrows arrows' s e :
  (∀ a, a ∈ arrows → a ∈ arrows') →
  seed_edge pool arrows s e → seed_edge pool arrows' s e.
Proof.
  intros Hsub (Hs & t & Hreach & He). split; [done|].
  exists t. split; [by eapply reach_mono|done].
Qed.

(** X19: more arrow links never remove an edge: when every link of
    [arrows] is also in [arrows'], every edge computed from [arrows] is
    among the edges computed from [arrows'] on the same pool.  In
    particular the edges do not depend on the order of the links. *)
Theorem collapse_arrow_chains_monotone fuel pool arrows arrows' :
  (S (length arrows) < fuel)%nat → (S (length arrows') < fuel)%nat →
  (∀ a, a ∈ arrows → a ∈ arrows') →
  ∃ edges edges',
    collapse_arrow_chains fuel pool arrows = Some edges ∧
    collapse_arrow_chains fuel pool arrows' = Some edges' ∧
    ∀ e, e ∈ edges → e ∈ edges'.
Proof.
  intros Hfuel Hfuel' Hsub.
  destruct (collapse_arrow_chains_spec fuel pool arrows Hfuel)
    as (edges & Hrun & _ & Hmem).
  destruct (collapse_arrow_chains_spec fuel pool arrows' Hfuel')
    as (edges' & Hrun' & _ & Hmem').
  exists edges, edges'. split; [done|]. split; [done|].
  intros e He. apply Hmem in He as (Hne & s & Hs & Hseed).
  apply Hmem'. split; [done|]. exists s. split; [done|].
  by eapply seed_edge_mono.
Qed.

Lemma collapse_arrow_chains_monotone_witness :
  (S (length (take 1 Example.arrows)) < 4)%nat ∧
  (S (length Example.arrows) < 4)%nat ∧
  (∀ a, a ∈ take 1 Example.arrows → a ∈ Example.arrows) ∧
  ∃ edges edges',
    collapse_arrow_chains 4 Example.pool (take 1 Example.arrows) = Some edges ∧
    collapse_arrow_chains 4 Example.pool Example.arrows = Some edges' ∧
    ∀ e, e ∈ edges → e ∈ edges'.
Proof.
  assert (S (length (take 1 Example.arrows)) < 4)%nat as H1 by (simpl; lia).
  assert (S (length Example.arrows) < 4)%nat as H2 by (simpl; lia).
  assert (∀ a, a ∈ take 1 Example.arrows → a ∈ Example.arrows) as Hsub.
  { intros a Ha. simpl in Ha. apply list_elem_of_singleton in Ha as ->.
    apply elem_of_cons. by left. }
  split; [exact H1|]. split; [exact H2|]. split; [exact Hsub|].
  exact (collapse_arrow_chains_monotone 4 Example.pool
           (take 1 Example.arrows) Example.arrows H1 H2 Hsub).
Defined.

Lemma reach_without_self_links arrows u v :
  reach arrows u v →
  reach (filter (fun a => tail_id a ≠ tip_id a) arrows) u v.
Proof.
  induction 1 as [x|x y z (a & Ha & Ht & Hp) _ IH]; [apply rtc_refl|].
  destruct (decide (x = y)) as [->|Hne]; [done|].
  eapply rtc_l; [|exact IH]. exists a. split; [|done].
  apply list_elem_of_filter. split; [congruence|done].
Qed.

(** X20: arrow links whose tail and tip are the same node (both ends of a
    short arrow snapped to one node) have no effect: dropping them leaves
    the list of final edges unchanged. *)
Theorem collapse_arrow_chains_self_links fuel pool arrows :
  (S (length arrows) < fuel)%nat →
  collapse_arrow_chains fuel pool
    (filter (fun a => tail_id a ≠ tip_id a) arrows)
  = collapse_arrow_chains fuel pool arrows.
Proof.
  intros Hfuel. unfold collapse_arrow_chains.
  destruct (collapse_edge_set_spec fuel pool arrows Hfuel) as (set1 & -> & H1).
  destruct (collapse_edge_set_spec fuel pool
              (filter (fun a => tail_id a ≠ tip_id a) arrows))
    as (set2 & -> & H2).
  { pose proof (length_filter (fun a => tail_id a ≠ tip_id a) arrows). lia. }
  assert (set2 = set1) as ->; [|done].
  apply set_eq. intros e. rewrite H1, H2. split.
  - intros (s & Hs & He). exists s. split; [done|].
    eapply seed_edge_mono; [|exact He].
    intros a Ha. by apply list_elem_of_filter in Ha as [_ ?].
  - intros (s & Hs & Hts & t & Hreach & He). exists s. split; [done|].
    split; [done|]. exists t. split; [|done].
    by apply reach_without_self_links.
Qed.

Lemma collapse_arrow_chains_self_links_witness :
  (S (length (process_arrow_detections [[Box 0 10 10 10 10]] [] 0).1.1) < 3)%nat
  ∧ collapse_arrow_chains 3 Example.pool
      (filter (fun a => tail_id a ≠ tip_id a)
              (process_arrow_detections [[Box 0 10 10 10 10]] [] 0).1.1)
    = collapse_arrow_chains 3 Example.pool
        (process_arrow_detections [[Box 0 10 10 10 10]] [] 0).1.1.
Proof.
  assert (S (length (process_arrow_detections [[Box 0 10 10 10 10]] [] 0).1.1)
          < 3)%nat as Hfuel by (vm_compute; lia).
  split; [exact Hfuel|].
  exact (collapse_arrow_chains_self_links 3 Example.pool _ Hfuel).
Defined.

(** ** The pipeline as a whole *)

Lemma find_nearest_connection_nodes (Q : conn → Prop) candidate pool
    threshold counter :
  (∀ id pt, Q (Conn id pt "arrow" None None)) → Forall Q pool →
  Forall Q (find_nearest_connection candidate pool threshold counter).1.2.
Proof.
  intros Hnew Hpool.
  destruct (find_nearest_connection_cases candidate pool threshold counter)
    as [(_ & -> & _)| ->]; [done|]. simpl.
  apply Forall_app. split; [done|]. by apply Forall_singleton.
Qed.

Lemma process_arrow_detections_nodes (Q : conn → Prop) results pool counter :
  (∀ id pt, Q (Conn id pt "arrow" None None)) → Forall Q pool →
  Forall Q (process_arrow_detections results pool counter).1.2.
Proof.
  intros Hnew Hpool. unfold process_arrow_detections.
  apply (fold_left_inv
           (fun acc : list arrow_conn * list conn * Z => Forall Q acc.1.2));
    [done|].
  intros [[arrows p] c] arrow _. cbn [fst snd]. intros Hp.
  destruct (arrow_candidates arrow) as [[tl tp]|] eqn:Hc.
  - rewrite (process_arrow_eq _ _ _ _ _ _ Hc). cbv zeta. cbn [fst snd].
    apply find_nearest_connection_nodes; [done|].
    by apply find_nearest_connection_nodes.
  - unfold process_arrow.
    destruct arrow as [[[[class_id ax1] ay1] ax2] ay2]. by rewrite Hc.
Qed.

Lemma elem_of_seed_all counter shapes c :
  c ∈ seed_all counter shapes →
  ∃ s side pt, s ∈ shapes ∧ (side, pt) ∈ shape_edge_centers s ∧
               conn_type c = "shape" ∧ conn_shape_id c = Some (shape_id s) ∧
               conn_side c = Some side ∧ conn_point c = pt.
Proof.
  revert counter. induction shapes as [|s shapes IH]; intros counter Hc.
  - by apply elem_of_nil in Hc.
  - cbn [seed_all] in Hc. apply elem_of_app in Hc as [Hc|Hc].
    + unfold anchors_of in Hc. apply list_elem_of_lookup in Hc as [j Hj].
      apply list_lookup_imap_Some in Hj as ([side pt] & Hitem & ->).
      exists s, side, pt. split; [by apply elem_of_cons; left|].
      split; [by eapply list_elem_of_lookup_2|done].
    + destruct (IH _ Hc) as (s' & side & pt & Hs' & H).
      exists s', side, pt. split; [apply elem_of_cons; by right|done].
Qed.

(** X21: every node of the pool of a pipeline run is of one of two kinds:
    a node of type ['shape'] that carries the id of one of the N shapes and
    one of the sides top, bottom, left, right, or a node of type ['arrow']
    whose shape id and side are [None]; so are the tail and the tip of
    every arrow link. *)
Theorem pool_nodes_typed results counter :
  let r := reconstruct results counter in
  (∀ c, c ∈ r.1.1.2 → node_typed (length r.1.1.1) c) ∧
  ∀ a, a ∈ r.1.2 →
       node_typed (length r.1.1.1) (arrow_tail a) ∧
       node_typed (length r.1.1.1) (arrow_tip a).
Proof.
  cbv zeta. unfold reconstruct.
  set (shapes := draw_shapes results).
  assert (Forall (node_typed (length shapes))
                 (build_connections_pool shapes counter).1) as Hseed.
  { unfold build_connections_pool.
    rewrite (build_connections_fold_eq shapes [] counter). cbn [fst app].
    apply Forall_forall. intros c Hc.
    apply elem_of_seed_all in Hc as (s & side & pt & Hs & Hside & Ht & Hid & Hsd & _).
    left. split; [done|]. split.
    - exists (shape_id s). split; [done|].
      apply list_elem_of_lookup in Hs as [k Hk].
      rewrite (draw_shapes_ids _ _ _ Hk). apply lookup_lt_Some in Hk. lia.
    - exists side. split; [done|].
      pose proof (draw_shapes_four_sides results) as Hsides.
      rewrite Forall_forall in Hsides. rewrite <- (Hsides s Hs).
      apply list_elem_of_fmap. by exists (side, pt). }
  destruct (build_connections_pool shapes counter) as [pool c1].
  cbn [fst] in Hseed.
  pose proof (process_arrow_detections_nodes
                (node_typed (length shapes)) results pool c1) as Hpool.
  pose proof (process_arrow_detections_resolves_aux results pool c1) as Hres.
  cbv zeta in Hres.
  destruct (process_arrow_detections results pool c1)
    as [[arrows pool2] c2]. cbn [fst snd] in *.
  assert (Forall (node_typed (length shapes)) pool2) as Htyped.
  { apply Hpool; [|done]. intros id pt. by right. }
  rewrite Forall_forall in Htyped. split; [done|].
  intros a Ha. destruct Hres as [_ Hres].
  destruct (Hres a Ha) as (Htl & Htp & _). split; by apply Htyped.
Qed.

(** ** Short arrows *)

Lemma euclidean_sym p q : euclidean p q = euclidean q p.
Proof.
  unfold euclidean. f_equal.
  assert (∀ a b : Q, Rsqr (Q2R (a - b)) = Rsqr (Q2R (b - a))) as Hsq.
  { intros a b. unfold Qminus. rewrite !Q2R_plus, !Q2R_opp.
    rewrite (Rsqr_neg (Q2R a + - Q2R b)). f_equal. lra. }
  by rewrite (Hsq (fst p)), (Hsq (snd p)).
Qed.

(** X23: an arrow whose tail and tip candidates are less than 50 apart
    adds at most one node to the pool: when the tail candidate had to get a
    new node, the tip candidate snaps to a node that is already there. *)
Theorem short_arrow_adds_at_most_one_node arrows pool counter arrow
    tail_candidate tip_candidate :
  arrow_candidates arrow = Some (tail_candidate, tip_candidate) →
  (euclidean tail_candidate tip_candidate < Q2R 50)%R →
  (length (process_arrow (arrows, pool, counter) arrow).1.2
   ≤ length pool + 1)%nat.
Proof.
  intros Hc Hshort. rewrite (process_arrow_eq _ _ _ _ _ _ Hc). cbv zeta.
  cbn [fst snd].
  destruct (find_nearest_connection_scan tail_candidate pool 50 counter)
    as [(_ & best & _ & _ & -> & _)|[_ ->]]; cbn [fst snd].
  - destruct (find_nearest_connection_cases tip_candidate pool 50 counter)
      as [(_ & -> & _)| ->]; cbn [fst snd]; [lia|].
    rewrite length_app. simpl. lia.
  - set (new := Conn counter tail_candidate "arrow" None None).
    destruct (find_nearest_connection_scan tip_candidate (pool ++ [new]) 50
                (counter + 1))
      as [(_ & best & _ & _ & -> & _)|[Hnone _]]; cbn [fst snd].
    + rewrite length_app. simpl. lia.
    + exfalso. apply (Hnone new).
      * apply elem_of_app. right. by apply list_elem_of_singleton.
      * apply within_euclidean. simpl. by rewrite euclidean_sym.
Qed.

Lemma short_arrow_adds_at_most_one_node_witness :
  arrow_candidates (0, 10, 10, 20, 40)%Z
  = Some ((inject_Z (10 + 20) / 2, inject_Z 10),
          (inject_Z (10 + 20) / 2, inject_Z 40))%Q ∧
  (euclidean (inject_Z (10 + 20) / 2, inject_Z 10)%Q
             (inject_Z (10 + 20) / 2, inject_Z 40)%Q < Q2R 50)%R ∧
  (length (process_arrow ([], [], 0%Z) (0, 10, 10, 20, 40)%Z).1.2
   ≤ length (@nil conn) + 1)%nat.
Proof.
  assert (euclidean (inject_Z (10 + 20) / 2, inject_Z 10)%Q
                    (inject_Z (10 + 20) / 2, inject_Z 40)%Q < Q2R 50)%R
    as Hshort.
  { apply (within_euclidean _ 50
             (Conn 0 (inject_Z (10 + 20) / 2, inject_Z 40)%Q "arrow" None None)).
    unfold within. vm_compute. reflexivity. }
  split; [reflexivity|]. split; [exact Hshort|].
  exact (short_arrow_adds_at_most_one_node [] [] 0 (0, 10, 10, 20, 40)%Z
           _ _ eq_refl Hshort).
Defined.

(** * The scan in double precision *)

(** ** Order of binary64 values *)

Ltac sf_compare :=
  repeat match goal with
    | H : context [(?a ?= ?b)%Z] |- _ => destruct (Z.compare_spec a b)
    | |- context [(?a ?= ?b)%Z] => destruct (Z.compare_spec a b)
    | H : context [(?a ?= ?b)%positive] |- _ => destruct (Pos.compare_spec a b)
    | |- context [(?a ?= ?b)%positive] => destruct (Pos.compare_spec a b)
    end;
  simpl in *; try discriminate; try lia; try reflexivity.

Ltac sf_cases :=
  unfold SFltb, SFleb, SFcompare;
  repeat match goal with
    | x : spec_float |- _ => destruct x as [[]|[]| |[] ? ?]
    end;
  simpl; try discriminate; try reflexivity;
  change (PosDef.Pos.compare_cont Eq) with Pos.compare;
  intros; sf_compare.

Lemma SFltb_trans a b c :
  SFltb a b = true → SFltb b c = true → SFltb a c = true.
Proof. sf_cases. Qed.

Lemma SFleb_ltb_trans a b c :
  SFleb a b = true → SFltb b c = true → SFltb a c = true.
Proof. sf_cases. Qed.

Lemma SFltb_leb_false a b : SFltb a b = true → SFleb b a = false.
Proof. sf_cases. Qed.

Lemma SFltb_leb a b : SFltb a b = true → SFleb a b = true.
Proof. sf_cases. Qed.

Lemma ltb_trans (a b c : float) :
  (a <? b)%float = true → (b <? c)%float = true → (a <? c)%float = true.
Proof. rewrite !ltb_spec. apply SFltb_trans. Qed.

Lemma leb_ltb_trans (a b c : float) :
  (a <=? b)%float = true → (b <? c)%float = true → (a <? c)%float = true.
Proof. rewrite !ltb_spec, leb_spec. apply SFleb_ltb_trans. Qed.

Lemma ltb_leb_false (a b : float) :
  (a <? b)%float = true → (b <=? a)%float = false.
Proof. rewrite ltb_spec, leb_spec. apply SFltb_leb_false. Qed.

Lemma ltb_leb (a b : float) :
  (a <? b)%float = true → (a <=? b)%float = true.
Proof. rewrite ltb_spec, leb_spec. apply SFltb_leb. Qed.

(** ** The scan loop *)

Lemma double_scanned_step hypot candidate threshold scanned acc c :
  double_scanned hypot candidate threshold scanned acc →
  double_scanned hypot candidate threshold (scanned ++ [c])
                 (Double.nearest_step hypot candidate acc c).
Proof.
  destruct acc as [[best|] bd]; unfold double_scanned; cbn [fst snd];
    set (d := Double.conn_distance hypot candidate).
  - intros (-> & Hw & l1 & l2 & -> & H1 & H2).
    unfold Double.nearest_step. fold d.
    destruct (d c <? d best)%float eqn:E; cbn [fst snd].
    + split; [done|]. split; [by apply (ltb_trans _ (d best))|].
      exists (l1 ++ best :: l2), []. split; [done|].
      split; [|by intros ? ?%elem_of_nil].
      intros c' Hc'. apply not_true_is_false. intros Hle.
      pose proof (leb_ltb_trans _ _ _ Hle E) as Hlt.
      apply elem_of_app in Hc' as [Hc'|Hc'].
      * apply ltb_leb in Hlt. by rewrite (H1 c' Hc') in Hlt.
      * apply elem_of_cons in Hc' as [->|Hc'].
        -- by rewrite (ltb_leb_false _ _ E) in Hle.
        -- by rewrite (H2 c' Hc') in Hlt.
    + split; [done|]. split; [done|].
      exists l1, (l2 ++ [c]). split; [by rewrite <- app_assoc|].
      split; [done|].
      intros c' [Hc'|Hc']%elem_of_app; [by apply H2|].
      by apply list_elem_of_singleton in Hc' as ->.
  - intros [-> Hnone]. unfold Double.nearest_step. fold d.
    destruct (d c <? threshold)%float eqn:E; cbn [fst snd].
    + split; [done|]. split; [done|].
      exists scanned, []. split; [done|].
      split; [|by intros ? ?%elem_of_nil].
      intros c' Hc'. apply not_true_is_false. intros Hle.
      pose proof (leb_ltb_trans _ _ _ Hle E) as Hlt.
      by rewrite (Hnone c' Hc') in Hlt.
    + split; [done|].
      intros c' [Hc'|Hc']%elem_of_app; [by apply Hnone|].
      by apply list_elem_of_singleton in Hc' as ->.
Qed.

Lemma double_nearest_scan_scanned hypot candidate threshold pool :
  double_scanned hypot candidate threshold pool
                 (Double.nearest_scan hypot candidate pool threshold).
Proof.
  unfold Double.nearest_scan.
  assert (∀ scanned acc,
            double_scanned hypot candidate threshold scanned acc →
            double_scanned hypot candidate threshold (scanned ++ pool)
              (fold_left (Double.nearest_step hypot candidate) pool acc))
    as Hgen.
  { induction pool as [|c pool IH]; intros scanned acc Hacc; simpl.
    - by rewrite app_nil_r.
    - rewrite (assoc_L (++) scanned [c] pool : scanned ++ c :: pool = _).
      by apply IH, double_scanned_step. }
  apply (Hgen [] (None, threshold)). split; [done|].
  by intros ? ?%elem_of_nil.
Qed.

(** C4: [find_nearest_connection] either snaps or creates, by the distances
    it computes.  Write [d c] for the double that [math.hypot] returns for
    the coordinate differences between the candidate and the node [c].
    When [d c < threshold] holds of some pool node, the function returns a
    pool node [best] with [d best < threshold] such that no pool node has
    [d c < d best] and no node before [best] in insertion order has
    [d c <= d best], and it leaves pool and counter as they were.
    Otherwise (also for the empty pool) it appends exactly one new node of
    type ['arrow'] located at the candidate point and returns it.  This
    holds of whatever [math.hypot] returns. *)
Theorem find_nearest_connection_computed_distance
    (hypot : float → float → float) (candidate : Double.point)
    (pool : list Double.conn) (threshold : float) (counter : Z) :
  let d := Double.conn_distance hypot candidate in
  (∃ l1 best l2,
      pool = l1 ++ best :: l2 ∧
      Double.find_nearest_connection hypot candidate pool threshold counter
      = (best, pool, counter) ∧
      (d best <? threshold)%float = true ∧
      (∀ c, c ∈ pool → (d c <? d best)%float = false) ∧
      (∀ c, c ∈ l1 → (d c <=? d best)%float = false))
  ∨
  ((∀ c, c ∈ pool → (d c <? threshold)%float = false) ∧
   let best := Double.Conn counter candidate "arrow" None None in
   Double.find_nearest_connection hypot candidate pool threshold counter
   = (best, pool ++ [best], (counter + 1)%Z)).
Proof.
  intros d.
  pose proof (double_nearest_scan_scanned hypot candidate threshold pool)
    as Hs.
  unfold Double.find_nearest_connection, double_scanned in *.
  fold d in Hs.
  destruct (Double.nearest_scan hypot candidate pool threshold)
    as [[best|] bd]; cbn [fst snd] in *.
  - left. destruct Hs as (_ & Hw & l1 & l2 & -> & H1 & H2).
    exists l1, best, l2. split_and!; try done.
    intros c [Hc|Hc]%elem_of_app.
    + apply not_true_is_false. intros Hlt%ltb_leb.
      by rewrite (H1 c Hc) in Hlt.
    + apply elem_of_cons in Hc as [->|Hc]; [|by apply H2].
      apply not_true_is_false. intros Hlt.
      pose proof (ltb_leb_false _ _ Hlt) as Hle.
      apply ltb_leb in Hlt. congruence.
  - right. by destruct Hs as [_ Hnone].
Qed.

(** C4, the claim over Euclidean distances fails at the threshold: the node
    at the origin lies at a Euclidean distance strictly below 50 from the
    candidate [(48, 14 - 2^-49)], it is the only node of the pool, and yet
    the call with threshold 50 does not return it.  The norm rounds to the
    double 50, which is not below the threshold, so a new node is
    appended. *)
Example find_nearest_connection_rounds_to_threshold :
  (euclidean (Double.to_point boundary_candidate)
             (Double.to_point (Double.conn_point origin_node)) < Q2R 50)%R ∧
  Double.conn_distance Double.math_hypot boundary_candidate origin_node
  = 50%float ∧
  Double.find_nearest_connection Double.math_hypot boundary_candidate
                                 [origin_node] 50 1
  = (Double.Conn 1 boundary_candidate "arrow" None None,
     [origin_node; Double.Conn 1 boundary_candidate "arrow" None None], 2%Z).
Proof.
  split; [|split; by vm_compute].
  apply (within_euclidean (Double.to_point boundary_candidate) 50
           (Conn 0 (Double.to_point (Double.conn_point origin_node))
                 "shape" (Some 0%Z) (Some "top"))).
  unfold within. by vm_compute.
Qed.
